(** * rgbd_VisualOdometry: the mapping backend, its identifiers and its
      frontend handoff

    A shallow embedding of [src/src/backend.cpp], [src/src/mappoint.cpp] and
    [src/include/myslam/frame.h].

    Conventions of the embedding:
    - [size_t] and [unsigned long] are [Z] with the 64-bit wrap-around written
      out ([wrap64]); an [int] argument that is stored is [Z] with the 32-bit
      wrap-around written out ([wrap_int32]), the counters [vertexIndex] and
      [edgeIndex] of a round, which count its vertices and edges, are [Z];
    - [double] values are rationals: every finite double denotes one, and
      [>] and [>=] on finite doubles agree with the order of the rationals
      (NaN is outside the model);
    - a [shared_ptr] is an optional heap location, [None] being [nullptr];
      the objects live in a heap indexed by location;
    - [std::unordered_map] and [std::unordered_set] are [gmap] and [gset];
      loops over them are written over the sequence of their elements, so
      that the statements about a loop hold for every iteration order;
    - dereferencing [nullptr] (or a location that holds no object) is the
      result [Fault];
    - locks and the condition variable are not modelled: every function is
      the sequential code of its body. *)

From Stdlib Require Import ZArith QArith Lia Lqa.
From stdpp Require Import gmap list.

Open Scope Z_scope.

(** ** Machine integers, doubles, pointers *)

Definition wrap64 (z : Z) : Z := z mod 2 ^ 64.

(** A value stored in a 32-bit [int]: two's complement wrap-around. *)
Definition wrap_int32 (z : Z) : Z := (z + 2 ^ 31) mod 2 ^ 32 - 2 ^ 31.

(** [x > y] on doubles. *)
Definition Qgtb (x y : Q) : bool := negb (Qle_bool x y).

(** [x >= y] on doubles. *)
Definition Qgeb (x y : Q) : bool := Qle_bool y x.

Definition loc := positive.

Abbreviation ptr := (option loc).

Definition Vector2d : Type := Q * Q.

Definition Vector3d : Type := Q * Q * Q.

(** Sophus [SE3]: a unit quaternion and a translation. *)
Record SE3 := mkSE3 { unit_quaternion : Q * Q * Q * Q; translation : Vector3d }.

(** [cv::Mat] used as a descriptor: its bytes. *)
Definition Mat : Type := list Z.

Definition Point2f : Type := Q * Q.

(** ** Fallible code: [Fault] is undefined behaviour (a null dereference). *)

Inductive result (A : Type) : Type :=
| Ok (a : A)
| Fault.

Arguments Ok {A} a.
Arguments Fault {A}.

#[global] Instance result_ret : MRet result := @Ok.

#[global] Instance result_bind : MBind result :=
  λ A B f m, match m with Ok a => f a | Fault => Fault end.

(** [p->...]: the object a pointer designates. *)
Definition deref {A : Type} (h : gmap loc A) (p : ptr) : result A :=
  match p with
  | None => Fault
  | Some l => match h !! l with Some a => Ok a | None => Fault end
  end.

(** A [for] loop with a fallible body. *)
Fixpoint foldlM {S A : Type} (f : S → A → result S) (s : S) (l : list A) : result S :=
  match l with
  | [] => Ok s
  | a :: l' => s' ← f s a; foldlM f s' l'
  end.

(** ** [mappoint.cpp]: class [MapPoint] *)

Module MapPoint.

Record t := mk {
  id_ : Z;
  pos_ : Vector3d;
  norm_ : Vector3d;
  good_ : bool;
  visible_times_ : Z;
  matched_times_ : Z;
  descriptor_ : Mat;
  observed_frames_ : list ptr;
  observed_pixel_pos_ : list Point2f
}.

Definition zero3 : Vector3d := (0%Q, 0%Q, 0%Q).

(** [MapPoint::MapPoint()]: [id_(-1)] stored in an [unsigned long]. *)
Definition MapPoint0 : t :=
  {| id_ := wrap64 (-1); pos_ := zero3; norm_ := zero3; good_ := false;
     visible_times_ := 0; matched_times_ := 0; descriptor_ := [];
     observed_frames_ := []; observed_pixel_pos_ := [] |}.

(** [MapPoint::MapPoint(id, position, norm, pixel_pos, frame, descriptor)]. *)
Definition MapPoint6 (id : Z) (position norm : Vector3d) (pixel_pos : Point2f)
    (frame : ptr) (descriptor : Mat) : t :=
  {| id_ := wrap64 id; pos_ := position; norm_ := norm; good_ := false;
     visible_times_ := 1; matched_times_ := 1; descriptor_ := descriptor;
     observed_frames_ := [frame]; observed_pixel_pos_ := [pixel_pos] |}.

(** [unsigned long MapPoint::factory_id_ = 0]. *)
Definition factory_id_init : Z := 0.

(** [MapPoint::createMapPoint()]: the two trailing arguments of the
    constructor are the defaults of its declaration (no frame, empty
    descriptor). The counter is passed in and returned. *)
Definition createMapPoint0 (factory_id_ : Z) : t * Z :=
  (MapPoint6 factory_id_ zero3 zero3 (0%Q, 0%Q) None [], wrap64 (factory_id_ + 1)).

(** [MapPoint::createMapPoint(pos_world, norm, pixel_pos, descriptor, frame)]. *)
Definition createMapPoint (pos_world norm : Vector3d) (pixel_pos : Point2f)
    (descriptor : Mat) (frame : ptr) (factory_id_ : Z) : t * Z :=
  (MapPoint6 factory_id_ pos_world norm pixel_pos frame descriptor,
   wrap64 (factory_id_ + 1)).

End MapPoint.

(** ** [frame.h]: class [Frame], with the members the backend calls *)

Module Frame.

(** [cv::KeyPoint]: the pixel it was detected at. *)
Record KeyPoint := mkKeyPoint { pt : Point2f }.

(** The image payload and the camera are not read by the code below and
    are left out. [keypoints_] is the vector [GetKeypoint] indexes. *)
Record t := mk {
  id_ : Z;
  timestamp_ : Q;
  T_c_w_ : SE3;
  keypoints_ : list KeyPoint;
  observedMappointIds_ : gset Z;
  covisibleKeyframeIdToWeight_ : gmap Z Z
}.

Definition GetId (f : t) : Z := id_ f.

(** [GetPose] of [frame.h]; the backend calls it [GetTcw]. *)
Definition GetTcw (f : t) : SE3 := T_c_w_ f.

(** [SetPose] of [frame.h]; the backend calls it [SetTcw]. *)
Definition SetTcw (pose : SE3) (f : t) : t :=
  {| id_ := id_ f; timestamp_ := timestamp_ f; T_c_w_ := pose;
     keypoints_ := keypoints_ f; observedMappointIds_ := observedMappointIds_ f;
     covisibleKeyframeIdToWeight_ := covisibleKeyframeIdToWeight_ f |}.

(** [AddObservedMappoint(const size_t id)]: the argument arrives as a
    [size_t]. *)
Definition AddObservedMappoint (id : Z) (f : t) : t :=
  {| id_ := id_ f; timestamp_ := timestamp_ f; T_c_w_ := T_c_w_ f;
     keypoints_ := keypoints_ f;
     observedMappointIds_ := {[wrap64 id]} ∪ observedMappointIds_ f;
     covisibleKeyframeIdToWeight_ := covisibleKeyframeIdToWeight_ f |}.

(** [IsObservedMappoint(const size_t id)]: [count(id)] converted to [bool]. *)
Definition IsObservedMappoint (id : Z) (f : t) : bool :=
  bool_decide (wrap64 id ∈ observedMappointIds_ f).

Definition GetObservedMappointIds (f : t) : gset Z := observedMappointIds_ f.

(** [AddCovisibleKeyframe(const size_t id, const int weight)]: the key
    arrives as a [size_t] and the weight as an [int], which is what the map
    holds. *)
Definition AddCovisibleKeyframe (id weight : Z) (f : t) : t :=
  {| id_ := id_ f; timestamp_ := timestamp_ f; T_c_w_ := T_c_w_ f;
     keypoints_ := keypoints_ f; observedMappointIds_ := observedMappointIds_ f;
     covisibleKeyframeIdToWeight_ :=
       <[wrap64 id := wrap_int32 weight]> (covisibleKeyframeIdToWeight_ f) |}.

Definition GetCovisibleKeyframes (f : t) : gmap Z Z := covisibleKeyframeIdToWeight_ f.

(** Modelled from the spec: the body of [RemoveObservedMappoint], declared in
    [frame.h], is not in src. Section 4.3: it removes the observation of the
    mappoint from this keyframe. Only the set [frame.h] declares is updated
    here; the covisibility bookkeeping the spec also describes touches no
    field read after bundle adjustment and is left out. *)
Definition RemoveObservedMappoint (id : Z) (f : t) : t :=
  {| id_ := id_ f; timestamp_ := timestamp_ f; T_c_w_ := T_c_w_ f;
     keypoints_ := keypoints_ f;
     observedMappointIds_ := observedMappointIds_ f ∖ {[id]};
     covisibleKeyframeIdToWeight_ := covisibleKeyframeIdToWeight_ f |}.

(** Modelled from the spec: [GetAllCovisibleKfIds] is not in src; the
    covisible keyframes of section 3 are the keys of the covisibility map. *)
Definition GetAllCovisibleKfIds (f : t) : gset Z := dom (covisibleKeyframeIdToWeight_ f).

(** Modelled from the spec: [GetObservingMappointIds] is not in src; the
    mappoints a keyframe observes, by id. *)
Definition GetObservingMappointIds (f : t) : gset Z := observedMappointIds_ f.

(** Modelled from the spec: [GetKeypoint] is not in src; it indexes the
    ordered sequence of keypoints. An index out of range is a fault. *)
Definition GetKeypoint (kptIdx : Z) (f : t) : result KeyPoint :=
  if decide (0 ≤ kptIdx) then
    match keypoints_ f !! Z.to_nat kptIdx with
    | Some kp => Ok kp
    | None => Fault
    end
  else Fault.

(** [size_t Frame::factoryId_]. *)
Definition factoryId_init : Z := 0.

(** Modelled from the spec: the body of [CreateFrame], declared in
    [frame.h], is not in src. Section 3: the identifier is allocated by the
    process-wide counter at construction. *)
Definition CreateFrame (timestamp : Q) (factoryId_ : Z) : t * Z :=
  ({| id_ := wrap64 factoryId_; timestamp_ := timestamp;
      T_c_w_ := mkSE3 (1%Q, 0%Q, 0%Q, 0%Q) (0%Q, 0%Q, 0%Q);
      keypoints_ := []; observedMappointIds_ := ∅;
      covisibleKeyframeIdToWeight_ := ∅ |},
   wrap64 (factoryId_ + 1)).

End Frame.

(** ** Construction of entities over a run of the process *)

(** The ways an entity is constructed. *)
Inductive construction : Type :=
| NewMapPoint0
| NewMapPoint6 (id : Z) (position norm : Vector3d) (pixel_pos : Point2f)
    (frame : ptr) (descriptor : Mat)
| CreateMapPoint0
| CreateMapPoint (pos_world norm : Vector3d) (pixel_pos : Point2f)
    (descriptor : Mat) (frame : ptr)
| CreateFrame (timestamp : Q).

(** The two static counters and the entities constructed so far, oldest
    first. [made_by_factory] lists the mappoints that came out of
    [createMapPoint]. *)
Record World := mkWorld {
  mappoint_factory_id_ : Z;
  frame_factoryId_ : Z;
  all_mappoints : list MapPoint.t;
  made_by_factory : list MapPoint.t;
  all_frames : list Frame.t
}.

Definition World_init : World :=
  mkWorld MapPoint.factory_id_init Frame.factoryId_init [] [] [].

Definition construct (w : World) (c : construction) : World :=
  match c with
  | NewMapPoint0 =>
      mkWorld (mappoint_factory_id_ w) (frame_factoryId_ w)
        (all_mappoints w ++ [MapPoint.MapPoint0]) (made_by_factory w) (all_frames w)
  | NewMapPoint6 id position norm pixel_pos frame descriptor =>
      mkWorld (mappoint_factory_id_ w) (frame_factoryId_ w)
        (all_mappoints w ++ [MapPoint.MapPoint6 id position norm pixel_pos frame descriptor])
        (made_by_factory w) (all_frames w)
  | CreateMapPoint0 =>
      let '(m, n) := MapPoint.createMapPoint0 (mappoint_factory_id_ w) in
      mkWorld n (frame_factoryId_ w) (all_mappoints w ++ [m])
        (made_by_factory w ++ [m]) (all_frames w)
  | CreateMapPoint pos_world norm pixel_pos descriptor frame =>
      let '(m, n) :=
        MapPoint.createMapPoint pos_world norm pixel_pos descriptor frame
          (mappoint_factory_id_ w) in
      mkWorld n (frame_factoryId_ w) (all_mappoints w ++ [m])
        (made_by_factory w ++ [m]) (all_frames w)
  | CreateFrame timestamp =>
      let '(f, n) := Frame.CreateFrame timestamp (frame_factoryId_ w) in
      mkWorld (mappoint_factory_id_ w) n (all_mappoints w) (made_by_factory w)
        (all_frames w ++ [f])
  end.

Definition run (cs : list construction) : World := foldl construct World_init cs.

(** ** The backend's [Mappoint], the Map Manager and the heap *)

Module Mappoint.

(** Modelled from the spec: the class [Mappoint] the backend uses is not in
    src (the [MapPoint] of [mappoint.cpp] is another class). Its attributes
    are those of section 3 that [backend.cpp] reads or writes. *)
Record t := mk {
  id_ : Z;
  position_ : Vector3d;
  outlier_ : bool;
  triangulated_ : bool;
  optimized_ : bool;
  observedByKeyframes_ : gmap Z Z
}.

Definition GetId (m : t) : Z := id_ m.

Definition GetPosition (m : t) : Vector3d := position_ m.

Definition SetPosition (position : Vector3d) (m : t) : t :=
  {| id_ := id_ m; position_ := position; outlier_ := outlier_ m;
     triangulated_ := triangulated_ m; optimized_ := optimized_ m;
     observedByKeyframes_ := observedByKeyframes_ m |}.

(** [mpt->optimized_ = true]. *)
Definition set_optimized (m : t) : t :=
  {| id_ := id_ m; position_ := position_ m; outlier_ := outlier_ m;
     triangulated_ := triangulated_ m; optimized_ := true;
     observedByKeyframes_ := observedByKeyframes_ m |}.

(** Keyframe id to keypoint index. *)
Definition GetObservedByKeyframesMap (m : t) : gmap Z Z := observedByKeyframes_ m.

End Mappoint.

Module MapManager.

(** Modelled from the spec: the class [MapManager] is not in src. Section
    4.4: a registry of keyframes and of mappoints by id; a lookup returns
    a shared reference or none. *)
Record t := mk {
  keyframes_ : gmap Z loc;
  mappoints_ : gmap Z loc
}.

Definition GetKeyframe (mm : t) (id : Z) : ptr := keyframes_ mm !! id.

Definition GetMappoint (mm : t) (id : Z) : ptr := mappoints_ mm !! id.

(** A snapshot of the whole registry of mappoints. *)
Definition GetAllMappoints (mm : t) : gmap Z loc := mappoints_ mm.

End MapManager.

(** The objects the shared pointers designate. *)
Record Heap := mkHeap {
  frames : gmap loc Frame.t;
  mappoints : gmap loc Mappoint.t
}.

(** Members of [Frame] that [backend.cpp] calls and src does not define:
    the search of a keypoint for a mappoint ([Some (kptIdx, distance,
    mayObserveMpt)] when it returns true), the mappoint already matched with
    a keypoint, and the active part of the covisible keyframes. *)
Class FrameOps := {
  GetMatchedKeypoint : Frame.t → Mappoint.t → option (Z * Q * bool);
  IsKeypointMatchWithMappoint : Frame.t → Z → option Z;
  GetActiveCovisibleKfIds : Frame.t → gset Z
}.

(** ** The graph optimizer (g2o), as [backend.cpp] drives it *)

Module g2o.

(** [VertexPose] and [VertexMappoint]; a vertex is designated by its id. *)
Inductive Vertex : Type :=
| VertexPose (estimate : SE3) (fixed : bool)
| VertexMappoint (estimate : Vector3d) (marginalized : bool).

Inductive RobustKernel : Type :=
| RobustKernelHuber (delta : Q).

(** [BinaryEdgeProjection]; the information matrix is always the identity.
    [error_chi2] is what [chi2()] returns: the squared error left by the
    last [computeError]. An edge is designated by its id. *)
Record Edge := mkEdge {
  vertex0 : Z;
  vertex1 : Z;
  measurement : Vector2d;
  level : Z;
  robustKernel : option RobustKernel;
  error_chi2 : Q
}.

Record SparseOptimizer := mkOptimizer {
  vertices : gmap Z Vertex;
  edges : gmap Z Edge
}.

Definition empty : SparseOptimizer := mkOptimizer ∅ ∅.

(** The numerical part, which src does not contain: the estimates
    Levenberg-Marquardt reaches for a vertex after some iterations on the
    active edges, the squared reprojection error of an edge, and the double
    [sqrt(7.815)]. *)
Class Solver := {
  levenberg_marquardt : nat → SparseOptimizer → Z → SE3 * Vector3d;
  reprojection_chi2 : SE3 → Vector3d → Vector2d → Q;
  deltaRGBD : Q
}.

Definition addVertex (id : Z) (v : Vertex) (o : SparseOptimizer) : SparseOptimizer :=
  mkOptimizer (<[id := v]> (vertices o)) (edges o).

Definition addEdge (id : Z) (e : Edge) (o : SparseOptimizer) : SparseOptimizer :=
  mkOptimizer (vertices o) (<[id := e]> (edges o)).

(** [initializeOptimization(0); optimize(n)]: the estimates of the vertices
    that are not fixed move; no vertex or edge is added, removed or changes
    kind. *)
Definition optimize `{Solver} (n : nat) (o : SparseOptimizer) : SparseOptimizer :=
  mkOptimizer
    (map_imap (λ id v,
       Some match v with
            | VertexPose e true => VertexPose e true
            | VertexPose e false => VertexPose (levenberg_marquardt n o id).1 false
            | VertexMappoint e m => VertexMappoint (levenberg_marquardt n o id).2 m
            end) (vertices o))
    (edges o).

(** [edge->computeError()]. *)
Definition computeError `{Solver} (o : SparseOptimizer) (e : Edge) : result Edge :=
  match vertices o !! vertex0 e, vertices o !! vertex1 e with
  | Some (VertexPose T _), Some (VertexMappoint P _) =>
      Ok (mkEdge (vertex0 e) (vertex1 e) (measurement e) (level e) (robustKernel e)
            (reprojection_chi2 T P (measurement e)))
  | _, _ => Fault
  end.

Definition chi2 (e : Edge) : Q := error_chi2 e.

Definition setLevel (l : Z) (e : Edge) : Edge :=
  mkEdge (vertex0 e) (vertex1 e) (measurement e) l (robustKernel e) (error_chi2 e).

Definition setRobustKernel (k : option RobustKernel) (e : Edge) : Edge :=
  mkEdge (vertex0 e) (vertex1 e) (measurement e) (level e) k (error_chi2 e).

(** [vertex->estimate()] of a pose vertex and of a mappoint vertex. *)
Definition pose_estimate (o : SparseOptimizer) (v : Z) : result SE3 :=
  match vertices o !! v with
  | Some (VertexPose e _) => Ok e
  | _ => Fault
  end.

Definition mappoint_estimate (o : SparseOptimizer) (v : Z) : result Vector3d :=
  match vertices o !! v with
  | Some (VertexMappoint e _) => Ok e
  | _ => Fault
  end.

End g2o.

(** ** [backend.cpp]: class [Backend] *)

Module Backend.

(** The members of the class. The three maps to vertices hold the entity
    and the id of its vertex; [edgeToKfThenMpt_] is keyed by the id of the
    edge. The keys of [newMptKptIdxMap_] are mappoints the frontend
    created: they are not null. *)
Record t := mk {
  keyframeCurr_ : ptr;
  oldMptIdKptIdxMap_ : gmap Z Z;
  newMptKptIdxMap_ : gmap loc Z;
  kfIdToCovKfThenVertex_ : gmap Z (loc * Z);
  mptIdToMptThenVertex_ : gmap Z (loc * Z);
  kfIdToFixedKfThenVertex_ : gmap Z (loc * Z);
  edgeToKfThenMpt_ : gmap Z (loc * loc);
  optimizer_ : g2o.SparseOptimizer;
  chi2Threshold_ : Q;
  reMatchDescriptorDistance_ : Q
}.

(** [m.insert(first, last)]: a key already present keeps its value. *)
Definition insert_range `{Countable K} {V : Type} (m : gmap K V) (l : list (K * V))
  : gmap K V :=
  foldl (λ acc kv, match acc !! kv.1 with
                   | Some _ => acc
                   | None => <[kv.1 := kv.2]> acc
                   end) m l.

(** [Backend::ProcessNewKeyframeAsync]. *)
Definition ProcessNewKeyframeAsync (b : t) (keyframe : ptr)
    (oldMptIdKptIdxMap : gmap Z Z) (newMptKptIdxMap : gmap loc Z) : t :=
  {| keyframeCurr_ := keyframe;
     oldMptIdKptIdxMap_ := insert_range ∅ (map_to_list oldMptIdKptIdxMap);
     newMptKptIdxMap_ := insert_range ∅ (map_to_list newMptKptIdxMap);
     kfIdToCovKfThenVertex_ := kfIdToCovKfThenVertex_ b;
     mptIdToMptThenVertex_ := mptIdToMptThenVertex_ b;
     kfIdToFixedKfThenVertex_ := kfIdToFixedKfThenVertex_ b;
     edgeToKfThenMpt_ := edgeToKfThenMpt_ b;
     optimizer_ := optimizer_ b;
     chi2Threshold_ := chi2Threshold_ b;
     reMatchDescriptorDistance_ := reMatchDescriptorDistance_ b |}.

(** *** [Backend::AddNewMappointsToExistingKeyframe], lines 81 to 99 *)

(** The inner loop over the covisible keyframes of [kf]: the lookup is
    made with [kfId], the id of the outer loop, as the source has it. *)
Definition expand_neighbors (mm : MapManager.t) (kfId : Z)
    (covisibleKfs : gset loc) (neighborKfIds : list Z) : gset loc :=
  foldl (λ acc (neighborKfId : Z),
           match MapManager.GetKeyframe mm kfId with
           | None => acc
           | Some neighborKf => {[neighborKf]} ∪ acc
           end) covisibleKfs neighborKfIds.

Definition collect_step (mm : MapManager.t) (h : Heap)
    (covisibleKfs : gset loc) (kfId : Z) : result (gset loc) :=
  match MapManager.GetKeyframe mm kfId with
  | None => Ok covisibleKfs
  | Some kf =>
      f ← deref (frames h) (Some kf);
      Ok (expand_neighbors mm kfId ({[kf]} ∪ covisibleKfs)
            (elements (Frame.GetAllCovisibleKfIds f)))
  end.

Definition erase_current (keyframeCurr : ptr) (covisibleKfs : gset loc) : gset loc :=
  match keyframeCurr with
  | Some l => if decide (l ∈ covisibleKfs) then covisibleKfs ∖ {[l]} else covisibleKfs
  | None => covisibleKfs
  end.

(** The set [covisibleKfs] the matching loop then runs over. *)
Definition covisibleKfs_of (b : t) (mm : MapManager.t) (h : Heap) : result (gset loc) :=
  cur ← deref (frames h) (keyframeCurr_ b);
  covisibleKfs ← foldlM (collect_step mm h) ∅ (elements (Frame.GetAllCovisibleKfIds cur));
  Ok (erase_current (keyframeCurr_ b) covisibleKfs).

(** The set the spec describes, for comparison: the covisible keyframes
    of the current keyframe and, for each of them, the keyframes its own
    covisible ids ([neighborKfId]) resolve to, minus the current keyframe. *)
Definition expand_neighbors_two_hop (mm : MapManager.t)
    (covisibleKfs : gset loc) (neighborKfIds : list Z) : gset loc :=
  foldl (λ acc (neighborKfId : Z),
           match MapManager.GetKeyframe mm neighborKfId with
           | None => acc
           | Some neighborKf => {[neighborKf]} ∪ acc
           end) covisibleKfs neighborKfIds.

Definition collect_step_two_hop (mm : MapManager.t) (h : Heap)
    (covisibleKfs : gset loc) (kfId : Z) : result (gset loc) :=
  match MapManager.GetKeyframe mm kfId with
  | None => Ok covisibleKfs
  | Some kf =>
      f ← deref (frames h) (Some kf);
      Ok (expand_neighbors_two_hop mm ({[kf]} ∪ covisibleKfs)
            (elements (Frame.GetAllCovisibleKfIds f)))
  end.

Definition covisibleKfs_two_hop (b : t) (mm : MapManager.t) (h : Heap) : result (gset loc) :=
  cur ← deref (frames h) (keyframeCurr_ b);
  covisibleKfs ← foldlM (collect_step_two_hop mm h) ∅
                   (elements (Frame.GetAllCovisibleKfIds cur));
  Ok (erase_current (keyframeCurr_ b) covisibleKfs).

(** *** [Backend::AddNewMappointsToExistingKeyframe], lines 101 to 143 *)

(** [if (m.count(k) && distance >= m[k].second) continue; m[k] =
    make_pair(v, distance);] *)
Definition keep_best `{Countable K} {V : Type} (k : K) (v : V) (distance : Q)
    (m : gmap K (V * Q)) : gmap K (V * Q) :=
  match m !! k with
  | Some p => if Qgeb distance p.2 then m else <[k := (v, distance)]> m
  | None => <[k := (v, distance)]> m
  end.

Record Matching := mkMatching {
  oldMptIdToNewMptIdAndDistance : gmap Z (Z * Q);
  kptIdxToMptAndDistance : gmap Z (loc * Q);
  observationsToAdd : list (loc * loc * Z)
}.

(** The body of the loop over the new mappoints, for the keyframe [f]. *)
Definition match_one `{FrameOps} (reMatchDescriptorDistance : Q) (f : Frame.t)
    (mpt : loc) (m : Mappoint.t) (st : Matching) : Matching :=
  match GetMatchedKeypoint f m with
  | None => st
  | Some (kptIdx, distance, mayObserveMpt) =>
      if Qgtb distance reMatchDescriptorDistance then st
      else
        match IsKeypointMatchWithMappoint f kptIdx with
        | Some oldMptId =>
            mkMatching
              (keep_best oldMptId (Mappoint.GetId m) distance
                 (oldMptIdToNewMptIdAndDistance st))
              (kptIdxToMptAndDistance st) (observationsToAdd st)
        | None =>
            mkMatching (oldMptIdToNewMptIdAndDistance st)
              (keep_best kptIdx mpt distance (kptIdxToMptAndDistance st))
              (observationsToAdd st)
        end
  end.

Definition match_step `{FrameOps} (reMatchDescriptorDistance : Q) (h : Heap)
    (kf : loc) (st : Matching) (mpt : loc) : result Matching :=
  f ← deref (frames h) (Some kf);
  m ← deref (mappoints h) (Some mpt);
  Ok (match_one reMatchDescriptorDistance f mpt m st).

(** The observations to add for a keyframe, from its map of keypoints. *)
Definition record_observations (kf : loc) (kptIdxToMpt : gmap Z (loc * Q))
  : list (loc * loc * Z) :=
  (λ x : Z * (loc * Q), (kf, x.2.1, x.1)) <$> map_to_list kptIdxToMpt.

(** The body of the loop over the covisible keyframes. *)
Definition match_keyframe `{FrameOps} (reMatchDescriptorDistance : Q) (h : Heap)
    (mpts : list loc) (st : Matching) (kf : loc) : result Matching :=
  st1 ← foldlM (match_step reMatchDescriptorDistance h kf)
         (mkMatching (oldMptIdToNewMptIdAndDistance st) ∅ (observationsToAdd st)) mpts;
  Ok (mkMatching (oldMptIdToNewMptIdAndDistance st1) (kptIdxToMptAndDistance st1)
        (observationsToAdd st1 ++ record_observations kf (kptIdxToMptAndDistance st1))).

Definition match_new_mappoints `{FrameOps} (reMatchDescriptorDistance : Q) (h : Heap)
    (kfs mpts : list loc) : result Matching :=
  foldlM (match_keyframe reMatchDescriptorDistance h mpts) (mkMatching ∅ ∅ []) kfs.

(** Lines 81 to 143: the candidate keyframes, then the matching. The
    observations are added and the mappoints replaced after that, by
    members of [Frame] and [MapManager] that src does not contain. *)
Definition AddNewMappointsToExistingKeyframe_match `{FrameOps} (b : t)
    (mm : MapManager.t) (h : Heap) : result Matching :=
  covisibleKfs ← covisibleKfs_of b mm h;
  match_new_mappoints (reMatchDescriptorDistance_ b) h (elements covisibleKfs)
    ((map_to_list (newMptKptIdxMap_ b)).*1).

(** *** [Backend::OptimizeLocalMap] *)

(** Replaces the four maps of the round and the optimizer. *)
Definition set_graph (b : t) (cov mpts fixed : gmap Z (loc * Z))
    (edgeTo : gmap Z (loc * loc)) (o : g2o.SparseOptimizer) : t :=
  {| keyframeCurr_ := keyframeCurr_ b;
     oldMptIdKptIdxMap_ := oldMptIdKptIdxMap_ b;
     newMptKptIdxMap_ := newMptKptIdxMap_ b;
     kfIdToCovKfThenVertex_ := cov;
     mptIdToMptThenVertex_ := mpts;
     kfIdToFixedKfThenVertex_ := fixed;
     edgeToKfThenMpt_ := edgeTo;
     optimizer_ := o;
     chi2Threshold_ := chi2Threshold_ b;
     reMatchDescriptorDistance_ := reMatchDescriptorDistance_ b |}.

(** Lines 194 to 216: a vertex for a mappoint the keyframe observes. The
    second component is [vertexIndex]. *)
Definition add_mappoint_vertex (mm : MapManager.t) (h : Heap)
    (acc : t * Z) (mptId : Z) : result (t * Z) :=
  match mptIdToMptThenVertex_ acc.1 !! mptId with
  | Some _ => Ok acc
  | None =>
      match MapManager.GetMappoint mm mptId with
      | None => Ok acc
      | Some mpt =>
          m ← deref (mappoints h) (Some mpt);
          if Mappoint.outlier_ m then Ok acc
          else
            let b := acc.1 in
            let vertexIndex := acc.2 + 1 in
            Ok (set_graph b (kfIdToCovKfThenVertex_ b)
                  (<[mptId := (mpt, vertexIndex)]> (mptIdToMptThenVertex_ b))
                  (kfIdToFixedKfThenVertex_ b) (edgeToKfThenMpt_ b)
                  (g2o.addVertex vertexIndex
                     (g2o.VertexMappoint (Mappoint.GetPosition m) true) (optimizer_ b)),
                vertexIndex)
      end
  end.

(** Lines 174 to 217: the pose vertex of a covisible keyframe, then the
    vertices of its mappoints. *)
Definition add_keyframe_vertices (mm : MapManager.t) (h : Heap)
    (acc : t * Z) (kfId : Z) : result (t * Z) :=
  match MapManager.GetKeyframe mm kfId with
  | None => Ok acc
  | Some kf =>
      f ← deref (frames h) (Some kf);
      let b := acc.1 in
      let vertexIndex := acc.2 + 1 in
      let b1 :=
        set_graph b (<[kfId := (kf, vertexIndex)]> (kfIdToCovKfThenVertex_ b))
          (mptIdToMptThenVertex_ b) (kfIdToFixedKfThenVertex_ b) (edgeToKfThenMpt_ b)
          (g2o.addVertex vertexIndex
             (g2o.VertexPose (Frame.GetTcw f) (bool_decide (Frame.GetId f = 0)))
             (optimizer_ b)) in
      foldlM (add_mappoint_vertex mm h) (b1, vertexIndex)
        (elements (Frame.GetObservingMappointIds f))
  end.

(** Lines 234 to 285: the edge of one observation of the mappoint [mpt].
    [keyframe->GetKeypoint(kptIdx)] comes before the test of [keyframe]
    against [nullptr]. The components of the state after the backend are
    [vertexIndex] and [edgeIndex]. *)
Definition add_edge `{g2o.Solver} (mm : MapManager.t) (h : Heap) (mpt : loc)
    (mptVertex : Z) (acc : t * Z * Z) (obs : Z * Z) : result (t * Z * Z) :=
  let keyframe := MapManager.GetKeyframe mm obs.1 in
  f ← deref (frames h) keyframe;
  kpt ← Frame.GetKeypoint obs.2 f;
  match keyframe with
  | None => Ok acc
  | Some kf =>
      let b := acc.1.1 in
      let with_pose :=
        match kfIdToCovKfThenVertex_ b !! obs.1 with
        | Some kv => (b, acc.1.2, kv.2)
        | None =>
            let vertexIndex := acc.1.2 + 1 in
            (set_graph b (kfIdToCovKfThenVertex_ b) (mptIdToMptThenVertex_ b)
               (<[obs.1 := (kf, vertexIndex)]> (kfIdToFixedKfThenVertex_ b))
               (edgeToKfThenMpt_ b)
               (g2o.addVertex vertexIndex (g2o.VertexPose (Frame.GetTcw f) true)
                  (optimizer_ b)),
             vertexIndex, vertexIndex)
        end in
      let b1 := with_pose.1.1 in
      let edgeIndex := acc.2 + 1 in
      let edge :=
        g2o.mkEdge with_pose.2 mptVertex (Frame.pt kpt) 0
          (Some (g2o.RobustKernelHuber g2o.deltaRGBD)) 0%Q in
      Ok (set_graph b1 (kfIdToCovKfThenVertex_ b1) (mptIdToMptThenVertex_ b1)
            (kfIdToFixedKfThenVertex_ b1)
            (<[edgeIndex := (kf, mpt)]> (edgeToKfThenMpt_ b1))
            (g2o.addEdge edgeIndex edge (optimizer_ b1)),
          with_pose.1.2, edgeIndex)
  end.

(** Lines 224 to 297, [needTriangulate] being the constant [false]. *)
Definition add_mappoint_edges `{g2o.Solver} (mm : MapManager.t) (h : Heap)
    (acc : t * Z * Z) (x : Z * (loc * Z)) : result (t * Z * Z) :=
  m ← deref (mappoints h) (Some x.2.1);
  foldlM (add_edge mm h x.2.1 x.2.2) acc
    (map_to_list (Mappoint.GetObservedByKeyframesMap m)).

(** Lines 167 to 297: the graph of the round. *)
Definition build_graph `{FrameOps} `{g2o.Solver} (b : t) (mm : MapManager.t)
    (h : Heap) : result t :=
  cur ← deref (frames h) (keyframeCurr_ b);
  let covisibleKfIds := {[Frame.GetId cur]} ∪ GetActiveCovisibleKfIds cur in
  bv ← foldlM (add_keyframe_vertices mm h) (b, 0) (elements covisibleKfIds);
  bve ← foldlM (add_mappoint_edges mm h) (bv, 0)
          (map_to_list (mptIdToMptThenVertex_ bv.1));
  Ok bve.1.1.

(** The state of a sweep over the edges: the optimizer, the heap and
    [outlierCnt]. *)
Record Sweep := mkSweep {
  sw_optimizer : g2o.SparseOptimizer;
  sw_heap : Heap;
  outlierCnt : Z
}.

(** [kf->RemoveObservedMappoint(mpt->GetId())]. *)
Definition remove_observation (h : Heap) (kf mpt : loc) : result Heap :=
  m ← deref (mappoints h) (Some mpt);
  f ← deref (frames h) (Some kf);
  Ok (mkHeap (<[kf := Frame.RemoveObservedMappoint (Mappoint.GetId m) f]> (frames h))
        (mappoints h)).

Definition get_edge (o : g2o.SparseOptimizer) (edge : Z) : result g2o.Edge :=
  match g2o.edges o !! edge with
  | Some e => Ok e
  | None => Fault
  end.

(** Lines 305 to 316: the body of the first sweep. *)
Definition sweep1_step `{g2o.Solver} (chi2Threshold : Q) (s : Sweep)
    (x : Z * (loc * loc)) : result Sweep :=
  e0 ← get_edge (sw_optimizer s) x.1;
  e ← g2o.computeError (sw_optimizer s) e0;
  r ← (if Qgtb (g2o.chi2 e) chi2Threshold then
         h ← remove_observation (sw_heap s) x.2.1 x.2.2;
         Ok (g2o.setLevel 1 e, h, outlierCnt s + 1)
       else Ok (e, sw_heap s, outlierCnt s));
  Ok (mkSweep (g2o.addEdge x.1 (g2o.setRobustKernel None r.1.1) (sw_optimizer s))
        r.1.2 r.2).

(** Lines 322 to 332: the body of the second sweep. *)
Definition sweep2_step `{g2o.Solver} (chi2Threshold : Q) (s : Sweep)
    (x : Z * (loc * loc)) : result Sweep :=
  e0 ← get_edge (sw_optimizer s) x.1;
  e ← g2o.computeError (sw_optimizer s) e0;
  r ← (if bool_decide (g2o.level e = 0) && Qgtb (g2o.chi2 e) chi2Threshold then
         h ← remove_observation (sw_heap s) x.2.1 x.2.2;
         Ok (h, outlierCnt s + 1)
       else Ok (sw_heap s, outlierCnt s));
  m ← deref (mappoints r.1) (Some x.2.2);
  Ok (mkSweep (g2o.addEdge x.1 e (sw_optimizer s))
        (mkHeap (frames r.1) (<[x.2.2 := Mappoint.set_optimized m]> (mappoints r.1)))
        r.2).

(** Lines 299 to 316: ten iterations, then the first sweep. *)
Definition pass1 `{g2o.Solver} (chi2Threshold : Q) (edgeTo : list (Z * (loc * loc)))
    (o : g2o.SparseOptimizer) (h : Heap) : result Sweep :=
  foldlM (sweep1_step chi2Threshold) (mkSweep (g2o.optimize 10 o) h 0) edgeTo.

(** Lines 318 to 332: ten more iterations, then the second sweep. *)
Definition pass2 `{g2o.Solver} (chi2Threshold : Q) (edgeTo : list (Z * (loc * loc)))
    (s : Sweep) : result Sweep :=
  foldlM (sweep2_step chi2Threshold)
    (mkSweep (g2o.optimize 10 (sw_optimizer s)) (sw_heap s) (outlierCnt s)) edgeTo.

(** Lines 299 to 332 on the graph of the round. *)
Definition two_pass `{g2o.Solver} (b : t) (h : Heap) : result (t * Heap) :=
  s1 ← pass1 (chi2Threshold_ b) (map_to_list (edgeToKfThenMpt_ b)) (optimizer_ b) h;
  s2 ← pass2 (chi2Threshold_ b) (map_to_list (edgeToKfThenMpt_ b)) s1;
  Ok (set_graph b (kfIdToCovKfThenVertex_ b) (mptIdToMptThenVertex_ b)
        (kfIdToFixedKfThenVertex_ b) (edgeToKfThenMpt_ b) (sw_optimizer s2),
      sw_heap s2).

Definition OptimizeLocalMap `{FrameOps} `{g2o.Solver} (b : t) (mm : MapManager.t)
    (h : Heap) : result (t * Heap) :=
  b1 ← build_graph b mm h;
  two_pass b1 h.

(** *** [Backend::UpdateFrontendTrackingMap]: the callback handed to the
    frontend, applied to the frontend's [refKeyframe] and [trackingMap] *)

(** Line 348. *)
Definition must_reset (b : t) (h : Heap) (refKeyframe : ptr) : result bool :=
  match refKeyframe with
  | None => Ok true
  | Some _ =>
      r ← deref (frames h) refKeyframe;
      c ← deref (frames h) (keyframeCurr_ b);
      Ok (negb (bool_decide (Frame.GetId r = Frame.GetId c)))
  end.

(** Lines 351 to 358. *)
Definition track_step (h : Heap) (trackingMap : gmap Z loc) (x : Z * (loc * Z))
  : result (gmap Z loc) :=
  m ← deref (mappoints h) (Some x.2.1);
  Ok (if Mappoint.outlier_ m then trackingMap else <[x.1 := x.2.1]> trackingMap).

(** Lines 349 to 363. *)
Definition reset_tracking (b : t) (mm : MapManager.t) (h : Heap)
    (mpts : list (Z * (loc * Z))) : result (ptr * gmap Z loc) :=
  trackingMap ← foldlM (track_step h) ∅ mpts;
  Ok (keyframeCurr_ b,
      if bool_decide (size trackingMap < 100)%nat
      then MapManager.GetAllMappoints mm else trackingMap).

(** Line 369. *)
Definition write_pose (o : g2o.SparseOptimizer) (fr : gmap loc Frame.t)
    (x : Z * (loc * Z)) : result (gmap loc Frame.t) :=
  est ← g2o.pose_estimate o x.2.2;
  f ← deref fr (Some x.2.1);
  Ok (<[x.2.1 := Frame.SetTcw est f]> fr).

(** Lines 375 to 378. *)
Definition write_position (o : g2o.SparseOptimizer) (mp : gmap loc Mappoint.t)
    (x : Z * (loc * Z)) : result (gmap loc Mappoint.t) :=
  m ← deref mp (Some x.2.1);
  if Mappoint.outlier_ m then Ok mp
  else
    est ← g2o.mappoint_estimate o x.2.2;
    Ok (<[x.2.1 := Mappoint.SetPosition est m]> mp).

(** The callback on given iteration sequences of the two maps. *)
Definition handoff (b : t) (mm : MapManager.t) (h : Heap)
    (kfs mpts : list (Z * (loc * Z))) (refKeyframe : ptr) (trackingMap : gmap Z loc)
  : result (ptr * gmap Z loc * Heap) :=
  reset ← must_reset b h refKeyframe;
  front ← (if reset : bool then reset_tracking b mm h mpts
           else Ok (refKeyframe, trackingMap));
  fr ← foldlM (write_pose (optimizer_ b)) (frames h) kfs;
  mp ← foldlM (write_position (optimizer_ b)) (mappoints h) mpts;
  Ok (front, mkHeap fr mp).

Definition UpdateFrontendTrackingMap (b : t) (mm : MapManager.t) (h : Heap)
    (refKeyframe : ptr) (trackingMap : gmap Z loc)
  : result (ptr * gmap Z loc * Heap) :=
  handoff b mm h (map_to_list (kfIdToCovKfThenVertex_ b))
    (map_to_list (mptIdToMptThenVertex_ b)) refKeyframe trackingMap.

(** [Backend::CleanUp]. *)
Definition CleanUp (b : t) : t := set_graph b ∅ ∅ ∅ ∅ g2o.empty.

End Backend.

(** ** What a round leaves for the sweeps and the handoff *)

(** The vertex [v] of the optimizer is a pose vertex, a mappoint vertex. *)
Definition is_pose (o : g2o.SparseOptimizer) (v : Z) : bool :=
  match g2o.vertices o !! v with
  | Some (g2o.VertexPose _ _) => true
  | _ => false
  end.

Definition is_point (o : g2o.SparseOptimizer) (v : Z) : bool :=
  match g2o.vertices o !! v with
  | Some (g2o.VertexMappoint _ _) => true
  | _ => false
  end.

(** Every entry of a map from ids to (entity, vertex) designates a live
    entity and a vertex of the expected kind, and no entity is entered
    under two ids. *)
Definition entries_ready {A : Type} (kind : Z → bool) (heap : gmap loc A)
    (m : gmap Z (loc * Z)) : Prop :=
  map_Forall (λ _ x, is_Some (heap !! x.1) ∧ kind x.2 = true) m ∧
  NoDup ((map_to_list m).*2.*1).

#[global] Instance entries_ready_dec {A : Type} (kind : Z → bool) (heap : gmap loc A)
    (m : gmap Z (loc * Z)) : Decision (entries_ready kind heap m).
Proof. unfold entries_ready. apply _. Defined.

(** [refKeyframe] is null, or it and the current keyframe are alive. *)
Definition ref_ready (b : Backend.t) (h : Heap) (refKeyframe : ptr) : Prop :=
  match refKeyframe with
  | None => True
  | Some r =>
      is_Some (frames h !! r) ∧
      match Backend.keyframeCurr_ b with
      | Some c => is_Some (frames h !! c)
      | None => False
      end
  end.

(** The edge [e] recorded for the keyframe and the mappoint [x] is in the
    optimizer, between a pose vertex and a mappoint vertex, and both
    entities are alive. *)
Definition edge_ready (o : g2o.SparseOptimizer) (h : Heap) (e : Z) (x : loc * loc) : Prop :=
  match g2o.edges o !! e with
  | Some ed => is_pose o (g2o.vertex0 ed) = true ∧ is_point o (g2o.vertex1 ed) = true
  | None => False
  end ∧ is_Some (frames h !! x.1) ∧ is_Some (mappoints h !! x.2).

#[global] Instance edge_ready_dec (o : g2o.SparseOptimizer) (h : Heap) (e : Z)
    (x : loc * loc) : Decision (edge_ready o h e x).
Proof. unfold edge_ready. destruct (g2o.edges o !! e); apply _. Defined.

(** The mappoint of the edge is still registered in the keyframe of the
    edge. *)
Definition observation_kept (h : Heap) (x : loc * loc) : Prop :=
  ∃ f m, frames h !! x.1 = Some f ∧ mappoints h !! x.2 = Some m ∧
         Mappoint.GetId m ∈ Frame.observedMappointIds_ f.

(** Keyframes stay alive and only lose observations; mappoints stay
    alive, keep their id and stay marked once marked. *)
Definition frames_shrink (fr fr' : gmap loc Frame.t) : Prop :=
  ∀ l f, fr !! l = Some f →
    ∃ f', fr' !! l = Some f' ∧
          Frame.observedMappointIds_ f' ⊆ Frame.observedMappointIds_ f.

Definition mappoints_marked (mp mp' : gmap loc Mappoint.t) : Prop :=
  ∀ l m, mp !! l = Some m →
    ∃ m', mp' !! l = Some m' ∧ Mappoint.id_ m' = Mappoint.id_ m ∧
          (Mappoint.optimized_ m = true → Mappoint.optimized_ m' = true).

(** What holds of the graph of a round while [build_graph] builds it: no
    vertex has an id beyond [vertexIndex]; the entries of the maps of
    covisible keyframes and of mappoints designate live entities and
    vertices of their kind; every recorded edge is ready. *)
Record graph_ok (h : Heap) (b : Backend.t) (vertexIndex : Z) : Prop := {
  ok_vertices : ∀ v x,
    g2o.vertices (Backend.optimizer_ b) !! v = Some x → v ≤ vertexIndex;
  ok_cov :
    map_Forall (λ _ x, is_Some (frames h !! x.1) ∧
                       is_pose (Backend.optimizer_ b) x.2 = true)
      (Backend.kfIdToCovKfThenVertex_ b);
  ok_mpt :
    map_Forall (λ _ x, is_Some (mappoints h !! x.1) ∧
                       is_point (Backend.optimizer_ b) x.2 = true)
      (Backend.mptIdToMptThenVertex_ b);
  ok_edges :
    map_Forall (edge_ready (Backend.optimizer_ b) h) (Backend.edgeToKfThenMpt_ b)
}.

(** The entries of the two maps of entities are what the Map Manager
    holds under their id. *)
Record graph_from (mm : MapManager.t) (b : Backend.t) : Prop := {
  from_keyframes :
    map_Forall (λ id x, MapManager.GetKeyframe mm id = Some x.1)
      (Backend.kfIdToCovKfThenVertex_ b);
  from_mappoints :
    map_Forall (λ id x, MapManager.GetMappoint mm id = Some x.1)
      (Backend.mptIdToMptThenVertex_ b)
}.

(** A registry holds no entity under two ids. *)
Definition one_id_each (m : gmap Z loc) : Prop :=
  ∀ i j l, m !! i = Some l → m !! j = Some l → i = j.

(** ** The candidates the matching loop meets, in the order it meets them *)

(** The match [GetMatchedKeypoint] finds for a new mappoint in a keyframe,
    when its distance does not exceed the threshold. *)
Definition accepted_match `{FrameOps} (reMatchDescriptorDistance : Q) (f : Frame.t)
    (m : Mappoint.t) : option (Z * Q) :=
  match GetMatchedKeypoint f m with
  | Some (kptIdx, distance, _) =>
      if Qgtb distance reMatchDescriptorDistance then None else Some (kptIdx, distance)
  | None => None
  end.

(** The candidate replacement a keyframe and a new mappoint give: the old
    mappoint of the matched keypoint, with the id of the new mappoint and
    the distance. *)
Definition old_candidate `{FrameOps} (th : Q) (h : Heap) (kf mpt : loc)
  : list (Z * (Z * Q)) :=
  match frames h !! kf, mappoints h !! mpt with
  | Some f, Some m =>
      match accepted_match th f m with
      | Some (kptIdx, distance) =>
          match IsKeypointMatchWithMappoint f kptIdx with
          | Some oldMptId => [(oldMptId, (Mappoint.GetId m, distance))]
          | None => []
          end
      | None => []
      end
  | _, _ => []
  end.

(** The candidate observation they give: the matched keypoint, when it
    has no mappoint yet, with the new mappoint and the distance. *)
Definition kpt_candidate `{FrameOps} (th : Q) (h : Heap) (kf mpt : loc)
  : list (Z * (loc * Q)) :=
  match frames h !! kf, mappoints h !! mpt with
  | Some f, Some m =>
      match accepted_match th f m with
      | Some (kptIdx, distance) =>
          match IsKeypointMatchWithMappoint f kptIdx with
          | Some _ => []
          | None => [(kptIdx, (mpt, distance))]
          end
      | None => []
      end
  | _, _ => []
  end.

(** All the candidate replacements, keyframe after keyframe, and the
    candidate observations of one keyframe. *)
Definition old_candidates `{FrameOps} (th : Q) (h : Heap) (kfs mpts : list loc)
  : list (Z * (Z * Q)) :=
  kfs ≫= λ kf, mpts ≫= old_candidate th h kf.

Definition kpt_candidates `{FrameOps} (th : Q) (h : Heap) (kf : loc) (mpts : list loc)
  : list (Z * (loc * Q)) :=
  mpts ≫= kpt_candidate th h kf.

(** In the sequence [cs], the candidate [(v, d)] for the key [k] has the
    smallest distance of the candidates for [k], and is the first to have
    it: those met before it are strictly farther. *)
Definition first_smallest {K V : Type} (cs : list (K * (V * Q))) (k : K) (v : V)
    (d : Q) : Prop :=
  ∃ i, cs !! i = Some (k, (v, d)) ∧
       ∀ j v' d', cs !! j = Some (k, (v', d')) →
                  (d <= d')%Q ∧ ((j < i)%nat → (d < d')%Q).

(** One candidate offered to the map of the best candidates so far: the
    test and the assignment of lines 124 to 128 and 131 to 135. *)
Definition offer `{Countable K} {V : Type} (m : gmap K (V * Q)) (c : K * (V * Q))
  : gmap K (V * Q) :=
  Backend.keep_best c.1 c.2.1 c.2.2 m.

(** ** Further notions used to state what the code keeps *)

(** The constructions that go through one of the two [createMapPoint]. *)
Definition is_factory_call (c : construction) : bool :=
  match c with
  | CreateMapPoint0 | CreateMapPoint _ _ _ _ _ => true
  | _ => false
  end.

(** The bookkeeping of a [MapPoint] agrees: as many observing frames as
    observed pixels, counted by [visible_times_] and [matched_times_]. *)
Definition bookkeeping_agrees (m : MapPoint.t) : Prop :=
  length (MapPoint.observed_frames_ m) = length (MapPoint.observed_pixel_pos_ m) ∧
  MapPoint.visible_times_ m = Z.of_nat (length (MapPoint.observed_frames_ m)) ∧
  MapPoint.matched_times_ m = Z.of_nat (length (MapPoint.observed_frames_ m)) ∧
  MapPoint.good_ m = false.

(** What [build_graph] puts in the graph. A covisible keyframe has a pose
    vertex at its current pose, fixed for keyframe 0 only; a mappoint with
    a vertex is no outlier and its vertex is at its current position,
    marginalized; a keyframe with a fixed vertex is not a covisible one and
    its vertex is at its current pose. *)
Record graph_vertices (h : Heap) (b : Backend.t) : Prop := {
  init_cov :
    map_Forall (λ _ x, ∃ f,
        frames h !! x.1 = Some f ∧
        g2o.vertices (Backend.optimizer_ b) !! x.2 =
          Some (g2o.VertexPose (Frame.GetTcw f) (bool_decide (Frame.GetId f = 0))))
      (Backend.kfIdToCovKfThenVertex_ b);
  init_mpt :
    map_Forall (λ _ x, ∃ m,
        mappoints h !! x.1 = Some m ∧ Mappoint.outlier_ m = false ∧
        g2o.vertices (Backend.optimizer_ b) !! x.2 =
          Some (g2o.VertexMappoint (Mappoint.GetPosition m) true))
      (Backend.mptIdToMptThenVertex_ b);
  init_fixed :
    map_Forall (λ id x,
        Backend.kfIdToCovKfThenVertex_ b !! id = None ∧
        ∃ f, frames h !! x.1 = Some f ∧
             g2o.vertices (Backend.optimizer_ b) !! x.2 =
               Some (g2o.VertexPose (Frame.GetTcw f) true))
      (Backend.kfIdToFixedKfThenVertex_ b)
}.

(** The edge [e], recorded for the keyframe and the mappoint [x], is the
    edge of an observation of the mappoint: it measures the pixel of the
    keypoint at which the keyframe observes it, at level 0 under the Huber
    kernel, from the vertex of the mappoint to the pose vertex of a
    covisible keyframe or to a fixed vertex at the pose of the keyframe. *)
Definition edge_built `{g2o.Solver} (mm : MapManager.t) (h : Heap) (b : Backend.t)
    (e : Z) (x : loc * loc) : Prop :=
  ∃ ed kfId kptIdx f m kp,
    g2o.edges (Backend.optimizer_ b) !! e = Some ed ∧
    g2o.level ed = 0 ∧
    g2o.robustKernel ed = Some (g2o.RobustKernelHuber g2o.deltaRGBD) ∧
    MapManager.GetKeyframe mm kfId = Some x.1 ∧
    frames h !! x.1 = Some f ∧
    mappoints h !! x.2 = Some m ∧
    Mappoint.GetObservedByKeyframesMap m !! kfId = Some kptIdx ∧
    Frame.GetKeypoint kptIdx f = Ok kp ∧
    g2o.measurement ed = Frame.pt kp ∧
    (∃ id, Backend.mptIdToMptThenVertex_ b !! id = Some (x.2, g2o.vertex1 ed)) ∧
    (Backend.kfIdToCovKfThenVertex_ b !! kfId = Some (x.1, g2o.vertex0 ed) ∨
     (Backend.kfIdToCovKfThenVertex_ b !! kfId = None ∧
      g2o.vertices (Backend.optimizer_ b) !! g2o.vertex0 ed =
        Some (g2o.VertexPose (Frame.GetTcw f) true))).

(** The invariants of the graph, taken together, on the state of the loop
    that adds the edges. *)
Definition graph_built `{g2o.Solver} (mm : MapManager.t) (h : Heap)
    (s : Backend.t * Z * Z) : Prop :=
  graph_ok h s.1.1 s.1.2 ∧ graph_from mm s.1.1 ∧ graph_vertices h s.1.1 ∧
  map_Forall (edge_built mm h s.1.1) (Backend.edgeToKfThenMpt_ s.1.1).

(** No two entries of a map of the round share a vertex. *)
Definition own_vertex (m : gmap Z (loc * Z)) : Prop :=
  ∀ id1 id2 x1 x2, m !! id1 = Some x1 → m !! id2 = Some x2 → x1.2 = x2.2 → id1 = id2.

(** Two recorded edges that share their pose vertex are edges of one
    covisible keyframe: the pose vertex is the one entered for it. *)
Definition shared_pose_is_covisible (b : Backend.t) : Prop :=
  ∀ e1 e2 ed1 ed2,
    e1 ≠ e2 →
    is_Some (Backend.edgeToKfThenMpt_ b !! e1) →
    is_Some (Backend.edgeToKfThenMpt_ b !! e2) →
    g2o.edges (Backend.optimizer_ b) !! e1 = Some ed1 →
    g2o.edges (Backend.optimizer_ b) !! e2 = Some ed2 →
    g2o.vertex0 ed1 = g2o.vertex0 ed2 →
    ∃ id kf, Backend.kfIdToCovKfThenVertex_ b !! id = Some (kf, g2o.vertex0 ed1).

(** The observation of the mappoint [mpt], of vertex [v], by the keyframe
    of id [kfId] at its keypoint [kptIdx] has an edge among the edges
    recorded so far, [edgeIndex] being the last id given to an edge. *)
Definition observation_has_edge (mm : MapManager.t) (h : Heap) (mpt : loc) (v : Z)
    (kfId kptIdx : Z) (s : Backend.t * Z * Z) : Prop :=
  ∃ e ed kf f kp,
    MapManager.GetKeyframe mm kfId = Some kf ∧
    frames h !! kf = Some f ∧
    Frame.GetKeypoint kptIdx f = Ok kp ∧
    e ≤ s.2 ∧
    Backend.edgeToKfThenMpt_ s.1.1 !! e = Some (kf, mpt) ∧
    g2o.edges (Backend.optimizer_ s.1.1) !! e = Some ed ∧
    g2o.vertex1 ed = v ∧
    g2o.measurement ed = Frame.pt kp.





(** ** Concrete maps, used to run the code above on explicit inputs *)

Module Scene.

Definition pose0 : SE3 := mkSE3 (1%Q, 0%Q, 0%Q, 0%Q) (0%Q, 0%Q, 0%Q).

Definition mkFrame (id : Z) (kps : list Point2f) (obs : list Z) (cov : list (Z * Z))
  : Frame.t :=
  Frame.mk id 0%Q pose0 (Frame.mkKeyPoint <$> kps) (list_to_set obs) (list_to_map cov).

Definition mkMappoint (id : Z) (pos : Vector3d) (outlier : bool) (obs : list (Z * Z))
  : Mappoint.t :=
  Mappoint.mk id pos outlier false false (list_to_map obs).

(** A solver that leaves every estimate where it is, and a camera that
    looks down the z axis from the translation of the pose: the error of
    an edge is the squared distance between the measurement and the x and y
    of the point moved by that translation. *)
Definition solver : g2o.Solver :=
  {| g2o.levenberg_marquardt := λ _ o v,
       match g2o.vertices o !! v with
       | Some (g2o.VertexPose e _) => (e, (0%Q, 0%Q, 0%Q))
       | Some (g2o.VertexMappoint e _) => (pose0, e)
       | None => (pose0, (0%Q, 0%Q, 0%Q))
       end;
     g2o.reprojection_chi2 := λ T P z,
       let dx := (P.1.1 + (translation T).1.1 - z.1)%Q in
       let dy := (P.1.2 + (translation T).1.2 - z.2)%Q in
       (dx * dx + dy * dy)%Q;
     g2o.deltaRGBD := (2795532 # 1000000)%Q |}.


(** Every covisible keyframe is active; a mappoint matches the keypoint
    whose index is a tenth of its id, at a distance equal to its x
    coordinate; the keypoints from 100 on already have a mappoint, keypoint
    100 + i having mappoint i. *)
Definition frame_ops : FrameOps :=
  {| GetMatchedKeypoint := λ f m,
       Some (Mappoint.id_ m / 10, (Mappoint.position_ m).1.1, true);
     IsKeypointMatchWithMappoint := λ _ kptIdx,
       if bool_decide (100 ≤ kptIdx) then Some (kptIdx - 100) else None;
     GetActiveCovisibleKfIds := Frame.GetAllCovisibleKfIds |}.

(** Two covisible keyframes (locations 2 and 3) and five new mappoints.
    The mappoints 1000 and 1001 both match keypoint 100, whose mappoint is
    0, at distance 5; the mappoints 30, 31 and 32 match the free keypoint 3
    at the distances 7, 6 and 60, the last one beyond the threshold 50. *)
Definition fuse_heap : Heap :=
  mkHeap (list_to_map [(2%positive, mkFrame 1 [] [] []);
                       (3%positive, mkFrame 2 [] [] [])])
         (list_to_map [(20%positive, mkMappoint 1000 (5%Q, 0%Q, 1%Q) false []);
                       (21%positive, mkMappoint 1001 (5%Q, 0%Q, 1%Q) false []);
                       (22%positive, mkMappoint 30 (7%Q, 0%Q, 1%Q) false []);
                       (23%positive, mkMappoint 31 (6%Q, 0%Q, 1%Q) false []);
                       (24%positive, mkMappoint 32 (60%Q, 0%Q, 1%Q) false [])]).

Definition fuse_kfs : list loc := [2%positive; 3%positive].

Definition fuse_mpts : list loc :=
  [20%positive; 21%positive; 22%positive; 23%positive; 24%positive].

Definition backend0 (cur : ptr) : Backend.t :=
  Backend.mk cur ∅ ∅ ∅ ∅ ∅ ∅ g2o.empty (5991 # 1000)%Q 50%Q.

(** Three keyframes in a chain: keyframe 0 (the current one, at location 1)
    is covisible with keyframe 1 (location 2), which is also covisible
    with keyframe 2 (location 3). *)
Definition chain_heap : Heap :=
  mkHeap (list_to_map
            [(1%positive, mkFrame 0 [] [] [(1, 20)]);
             (2%positive, mkFrame 1 [] [] [(0, 20); (2, 30)]);
             (3%positive, mkFrame 2 [] [] [(1, 30)])]) ∅.

Definition chain_map : MapManager.t :=
  MapManager.mk (list_to_map [(0, 1%positive); (1, 2%positive); (2, 3%positive)]) ∅.

(** One keyframe (id 0, location 1) observing mappoint 5 (location 10) at
    its keypoint 0. In [stale_heap] the mappoint also records an
    observation by keyframe 7, which the Map Manager does not hold. *)
Definition lone_map : MapManager.t :=
  MapManager.mk (list_to_map [(0, 1%positive)]) (list_to_map [(5, 10%positive)]).

Definition lone_heap : Heap :=
  mkHeap (list_to_map [(1%positive, mkFrame 0 [(3%Q, 4%Q)] [5] [])])
         (list_to_map [(10%positive, mkMappoint 5 (3%Q, 4%Q, 1%Q) false [(0, 0)])]).

Definition stale_heap : Heap :=
  mkHeap (list_to_map [(1%positive, mkFrame 0 [(3%Q, 4%Q)] [5] [])])
         (list_to_map [(10%positive,
                        mkMappoint 5 (3%Q, 4%Q, 1%Q) false [(0, 0); (7, 0)])]).

(** The state of a backend at the handoff: keyframe 0 (location 1) has
    pose vertex 1; mappoints 5 (location 10, an outlier) and 6 (location
    11) have the vertices 2 and 3. Keyframe 1 (location 2) is an older
    reference keyframe; the Map Manager also holds mappoint 8. *)
Definition poseA : SE3 := mkSE3 (1%Q, 0%Q, 0%Q, 0%Q) (2%Q, 0%Q, 0%Q).

Definition handoff_backend : Backend.t :=
  Backend.mk (Some 1%positive) ∅ ∅
    (list_to_map [(0, (1%positive, 1))])
    (list_to_map [(5, (10%positive, 2)); (6, (11%positive, 3))])
    ∅ ∅
    (g2o.mkOptimizer
       (list_to_map [(1, g2o.VertexPose poseA false);
                     (2, g2o.VertexMappoint (9%Q, 9%Q, 9%Q) true);
                     (3, g2o.VertexMappoint (7%Q, 7%Q, 7%Q) true)]) ∅)
    (5991 # 1000)%Q 50%Q.

Definition handoff_heap : Heap :=
  mkHeap (list_to_map [(1%positive, mkFrame 0 [] [5; 6] []);
                       (2%positive, mkFrame 1 [] [] [])])
         (list_to_map [(10%positive, mkMappoint 5 (3%Q, 4%Q, 1%Q) true []);
                       (11%positive, mkMappoint 6 (1%Q, 1%Q, 1%Q) false [(0, 0)]);
                       (12%positive, mkMappoint 8 (2%Q, 2%Q, 2%Q) false [])]).

Definition handoff_map : MapManager.t :=
  MapManager.mk (list_to_map [(0, 1%positive); (1, 2%positive)])
    (list_to_map [(5, 10%positive); (6, 11%positive); (8, 12%positive)]).

(** The same state with keyframe 1 (location 2) entered as a fixed
    keyframe: its vertex 4 holds [poseA], while the keyframe is at
    [pose0]. *)
Definition handoff_fixed_backend : Backend.t :=
  Backend.set_graph handoff_backend
    (Backend.kfIdToCovKfThenVertex_ handoff_backend)
    (Backend.mptIdToMptThenVertex_ handoff_backend)
    (list_to_map [(1, (2%positive, 4))])
    (Backend.edgeToKfThenMpt_ handoff_backend)
    (g2o.addVertex 4 (g2o.VertexPose poseA true) (Backend.optimizer_ handoff_backend)).

(** The graph of a round after [build_graph]: keyframe 0 (location 1, pose
    vertex 1) observes the mappoints 5 and 6 (locations 10 and 11, vertices
    2 and 3). Edge 1 measures mappoint 5 where it projects; edge 2
    measures mappoint 6 ten pixels off. *)
Definition ba_backend : Backend.t :=
  Backend.mk (Some 1%positive) ∅ ∅
    (list_to_map [(0, (1%positive, 1))])
    (list_to_map [(5, (10%positive, 2)); (6, (11%positive, 3))])
    ∅
    (list_to_map [(1, (1%positive, 10%positive)); (2, (1%positive, 11%positive))])
    (g2o.mkOptimizer
       (list_to_map [(1, g2o.VertexPose pose0 true);
                     (2, g2o.VertexMappoint (3%Q, 4%Q, 1%Q) true);
                     (3, g2o.VertexMappoint (1%Q, 1%Q, 1%Q) true)])
       (list_to_map
          [(1, g2o.mkEdge 1 2 (3%Q, 4%Q) 0
                 (Some (g2o.RobustKernelHuber (2795532 # 1000000)%Q)) 0%Q);
           (2, g2o.mkEdge 1 3 (11%Q, 1%Q) 0
                 (Some (g2o.RobustKernelHuber (2795532 # 1000000)%Q)) 0%Q)]))
    (5991 # 1000)%Q 50%Q.

Definition ba_map : MapManager.t :=
  MapManager.mk (list_to_map [(0, 1%positive)])
    (list_to_map [(5, 10%positive); (6, 11%positive)]).

Definition ba_heap : Heap :=
  mkHeap (list_to_map [(1%positive, mkFrame 0 [(3%Q, 4%Q); (11%Q, 1%Q)] [5; 6] [])])
         (list_to_map [(10%positive, mkMappoint 5 (3%Q, 4%Q, 1%Q) false [(0, 0)]);
                       (11%positive, mkMappoint 6 (1%Q, 1%Q, 1%Q) false [(0, 1)])]).

(** A current keyframe (id 0, location 1) covisible with the keyframes 1
    and 2 (locations 2 and 3) and with a keyframe 9 that the Map Manager
    does not hold, and the five new mappoints of [fuse_heap], as the
    frontend hands them over. *)
Definition fuse_round_heap : Heap :=
  mkHeap (list_to_map [(1%positive, mkFrame 0 [] [] [(1, 20); (2, 20); (9, 15)]);
                       (2%positive, mkFrame 1 [] [] [(0, 20)]);
                       (3%positive, mkFrame 2 [] [] [(0, 20)])])
         (mappoints fuse_heap).

Definition fuse_round_map : MapManager.t :=
  MapManager.mk (list_to_map [(0, 1%positive); (1, 2%positive); (2, 3%positive)]) ∅.

Definition fuse_round_backend : Backend.t :=
  Backend.mk (Some 1%positive) ∅
    (list_to_map [(20%positive, 0); (21%positive, 1); (22%positive, 2);
                  (23%positive, 3); (24%positive, 4)])
    ∅ ∅ ∅ ∅ g2o.empty (5991 # 1000)%Q 50%Q.

(** A current keyframe (id 0, location 1) observing the mappoints 5 and 6
    (locations 10 and 11), which keyframe 3 (location 4), not covisible
    with it, observes too. *)
Definition far_map : MapManager.t :=
  MapManager.mk (list_to_map [(0, 1%positive); (3, 4%positive)])
    (list_to_map [(5, 10%positive); (6, 11%positive)]).

Definition far_heap : Heap :=
  mkHeap (list_to_map [(1%positive, mkFrame 0 [(3%Q, 4%Q); (11%Q, 1%Q)] [5; 6] []);
                       (4%positive, mkFrame 3 [(2%Q, 2%Q); (8%Q, 8%Q)] [5; 6] [])])
         (list_to_map
            [(10%positive, mkMappoint 5 (3%Q, 4%Q, 1%Q) false [(0, 0); (3, 0)]);
             (11%positive, mkMappoint 6 (1%Q, 1%Q, 1%Q) false [(0, 1); (3, 1)])]).

End Scene.

(* ================================================================== *)
(** * Theorems *)
(* ================================================================== *)

(** ** Pointers and loops *)

Lemma deref_live {A : Type} (h : gmap loc A) (l : loc) (a : A) :
  h !! l = Some a → deref h (Some l) = Ok a.
Proof. intros E. unfold deref. by rewrite E. Qed.

Lemma deref_Ok {A : Type} (h : gmap loc A) (p : ptr) (a : A) :
  deref h p = Ok a → ∃ l, p = Some l ∧ h !! l = Some a.
Proof.
  destruct p as [l|]; simpl; [|done].
  destruct (h !! l) as [a'|] eqn:E; [|done].
  intros [= ->]. by exists l.
Qed.

Lemma bind_Ok {A B : Type} (m : result A) (f : A → result B) (b : B) :
  (x ← m; f x) = Ok b → ∃ a, m = Ok a ∧ f a = Ok b.
Proof. destruct m as [a|]; simpl; [|done]. intros E. by exists a. Qed.

Lemma bind_ret {A B : Type} (a : A) (f : A → result B) : (x ← Ok a; f x) = f a.
Proof. reflexivity. Qed.

Lemma foldlM_cons {S A : Type} (f : S → A → result S) (s : S) (a : A) (l : list A) :
  foldlM f s (a :: l) = (s' ← f s a; foldlM f s' l).
Proof. reflexivity. Qed.

Lemma foldlM_app {S A : Type} (f : S → A → result S) (s : S) (l1 l2 : list A) :
  foldlM f s (l1 ++ l2) = (s' ← foldlM f s l1; foldlM f s' l2).
Proof.
  revert s. induction l1 as [|a l1 IH]; intros s; simpl; [done |].
  destruct (f s a) as [s'|]; simpl; [apply IH | done].
Qed.

(** ** Identifiers *)

Lemma wrap64_range z : 0 ≤ wrap64 z < 2 ^ 64.
Proof. unfold wrap64. apply Z.mod_pos_bound. lia. Qed.

Lemma wrap64_small z : 0 ≤ z < 2 ^ 64 → wrap64 z = z.
Proof. intros. unfold wrap64. apply Z.mod_small. lia. Qed.

Lemma wrap64_succ z : wrap64 (wrap64 z + 1) = wrap64 (z + 1).
Proof. unfold wrap64. rewrite Zplus_mod_idemp_l. reflexivity. Qed.

Lemma run_snoc cs c : run (cs ++ [c]) = construct (run cs) c.
Proof. unfold run. rewrite foldl_app. reflexivity. Qed.

(** What every run maintains: each counter is the number of entities its
    factory has made (modulo 2^64) and the k-th of them carries k. *)
Record counters_ok (w : World) : Prop := {
  ok_mappoint_counter :
    mappoint_factory_id_ w = wrap64 (Z.of_nat (length (made_by_factory w)));
  ok_frame_counter :
    frame_factoryId_ w = wrap64 (Z.of_nat (length (all_frames w)));
  ok_mappoint_ids : ∀ k m,
    made_by_factory w !! k = Some m → MapPoint.id_ m = wrap64 (Z.of_nat k);
  ok_frame_ids : ∀ k f,
    all_frames w !! k = Some f → Frame.id_ f = wrap64 (Z.of_nat k);
  ok_mappoint_range : ∀ m, m ∈ all_mappoints w → 0 ≤ MapPoint.id_ m < 2 ^ 64;
  ok_factory_sub : ∀ m, m ∈ made_by_factory w → m ∈ all_mappoints w
}.

Lemma lookup_snoc_inv {A} (l : list A) (x y : A) (k : nat) :
  (l ++ [x]) !! k = Some y →
  l !! k = Some y ∨ (k = length l ∧ y = x).
Proof.
  intros H. destruct (decide (k < length l)%nat) as [Hlt|Hge].
  - left. by rewrite lookup_app_l in H.
  - right. rewrite lookup_app_r in H by lia.
    destruct (k - length l)%nat as [|n] eqn:E; simpl in H; [|done].
    split; [lia | congruence].
Qed.

Lemma counters_ok_init : counters_ok World_init.
Proof.
  split; simpl; try done; intros; try (by rewrite ?lookup_nil in * );
    by apply elem_of_nil in H.
Qed.

Lemma counters_ok_made w m :
  counters_ok w →
  MapPoint.id_ m = wrap64 (mappoint_factory_id_ w) →
  counters_ok (mkWorld (wrap64 (mappoint_factory_id_ w + 1)) (frame_factoryId_ w)
                 (all_mappoints w ++ [m]) (made_by_factory w ++ [m]) (all_frames w)).
Proof.
  intros [Hc Hf Hm Hfi Hr Hs] Hid. split; simpl; try done.
  - rewrite Hc, wrap64_succ, length_app. simpl. f_equal. lia.
  - intros k m' [Hk | [-> ->]]%lookup_snoc_inv; [by apply Hm |].
    rewrite Hid, Hc. unfold wrap64. by rewrite Zmod_mod.
  - intros m' [Hin | ->%list_elem_of_singleton]%elem_of_app; [by apply Hr |].
    rewrite Hid. apply wrap64_range.
  - intros m' [Hin | Hin]%elem_of_app; apply elem_of_app; [left; by apply Hs | by right].
Qed.

Lemma counters_ok_plain w m :
  counters_ok w →
  counters_ok (mkWorld (mappoint_factory_id_ w) (frame_factoryId_ w)
                 (all_mappoints w ++ [m]) (made_by_factory w) (all_frames w)) ∨
  ¬ (0 ≤ MapPoint.id_ m < 2 ^ 64).
Proof.
  intros [Hc Hf Hm Hfi Hr Hs].
  destruct (decide (0 ≤ MapPoint.id_ m < 2 ^ 64)) as [Hin|]; [left | by right].
  split; simpl; try done.
  - intros m' [H | ->%list_elem_of_singleton]%elem_of_app; [by apply Hr | done].
  - intros m' H. apply elem_of_app. left. by apply Hs.
Qed.

Lemma counters_ok_construct w c : counters_ok w → counters_ok (construct w c).
Proof.
  intros Hw. destruct c; simpl.
  - destruct (counters_ok_plain w MapPoint.MapPoint0 Hw) as [H | H]; [done |].
    exfalso. apply H. apply wrap64_range.
  - destruct (counters_ok_plain w
      (MapPoint.MapPoint6 id position norm pixel_pos frame descriptor) Hw)
      as [H | H]; [done |].
    exfalso. apply H. apply wrap64_range.
  - by apply counters_ok_made.
  - by apply counters_ok_made.
  - destruct Hw as [Hc Hf Hm Hfi Hr Hs]. split; simpl; try done.
    + rewrite Hf, wrap64_succ, length_app. simpl. f_equal. lia.
    + intros k f [Hk | [-> ->]]%lookup_snoc_inv; [by apply Hfi |].
      simpl. rewrite Hf. unfold wrap64. by rewrite Zmod_mod.
Qed.

Lemma counters_ok_run cs : counters_ok (run cs).
Proof.
  induction cs as [|c cs IH] using rev_ind.
  - apply counters_ok_init.
  - rewrite run_snoc. by apply counters_ok_construct.
Qed.

(** C9, as stated, fails: two mappoints built by the default constructor
    carry the same identifier, 2^64 - 1, which no counter allocated. *)
Lemma C9_default_constructor_reuses_id :
  let w := run [NewMapPoint0; NewMapPoint0] in
  ¬ NoDup (MapPoint.id_ <$> all_mappoints w) ∧
  MapPoint.id_ <$> all_mappoints w = [2 ^ 64 - 1; 2 ^ 64 - 1] ∧
  mappoint_factory_id_ w = 0.
Proof.
  split; [| split; reflexivity].
  intros H. apply NoDup_cons in H as [Hnin _]. apply Hnin. left.
Qed.

(** C9, amended: in every run, the mappoints made by [createMapPoint] and
    the frames made by [CreateFrame] carry, in order of construction, the
    successive values 0, 1, 2, ... of their own counter; these identifiers
    are 64-bit and non-negative, strictly increasing and never reused as
    long as fewer than 2^64 entities of the kind have been made. *)
Theorem C9_factory_ids_fresh (cs : list construction)
    (Hm : Z.of_nat (length (made_by_factory (run cs))) ≤ 2 ^ 64)
    (Hf : Z.of_nat (length (all_frames (run cs))) ≤ 2 ^ 64) :
  (∀ k m, made_by_factory (run cs) !! k = Some m → MapPoint.id_ m = Z.of_nat k) ∧
  (∀ k f, all_frames (run cs) !! k = Some f → Frame.id_ f = Z.of_nat k) ∧
  NoDup (MapPoint.id_ <$> made_by_factory (run cs)) ∧
  NoDup (Frame.id_ <$> all_frames (run cs)) ∧
  (∀ m, m ∈ all_mappoints (run cs) → 0 ≤ MapPoint.id_ m < 2 ^ 64) ∧
  (∀ f, f ∈ all_frames (run cs) → 0 ≤ Frame.id_ f < 2 ^ 64).
Proof.
  destruct (counters_ok_run cs) as [Hc Hfc Hmi Hfi Hr Hs].
  assert (Hmk : ∀ k m, made_by_factory (run cs) !! k = Some m →
                       MapPoint.id_ m = Z.of_nat k).
  { intros k m Hk. rewrite (Hmi _ _ Hk). apply wrap64_small.
    apply lookup_lt_Some in Hk. lia. }
  assert (Hfk : ∀ k f, all_frames (run cs) !! k = Some f →
                       Frame.id_ f = Z.of_nat k).
  { intros k f Hk. rewrite (Hfi _ _ Hk). apply wrap64_small.
    apply lookup_lt_Some in Hk. lia. }
  repeat split; try done.
  - apply NoDup_alt. intros i j x Hi Hj.
    apply list_lookup_fmap_Some in Hi as (mi & -> & Hi).
    apply list_lookup_fmap_Some in Hj as (mj & E & Hj).
    apply Hmk in Hi, Hj. lia.
  - apply NoDup_alt. intros i j x Hi Hj.
    apply list_lookup_fmap_Some in Hi as (mi & -> & Hi).
    apply list_lookup_fmap_Some in Hj as (mj & E & Hj).
    apply Hfk in Hi, Hj. lia.
  - by apply Hr.
  - by apply Hr.
  - apply list_elem_of_lookup in H as [k Hk]. rewrite (Hfk _ _ Hk). lia.
  - apply list_elem_of_lookup in H as [k Hk]. rewrite (Hfk _ _ Hk).
    apply lookup_lt_Some in Hk. lia.
Qed.

(** [C9_factory_ids_fresh] on a run that mixes the five constructions. *)
Lemma C9_factory_ids_fresh_witness :
  let cs := [CreateMapPoint0; NewMapPoint0; CreateFrame 0%Q;
             CreateMapPoint (1%Q, 2%Q, 3%Q) (0%Q, 0%Q, 1%Q) (4%Q, 5%Q) [7] None;
             CreateFrame 1%Q] in
  MapPoint.id_ <$> made_by_factory (run cs) = [0; 1] ∧
  NoDup (MapPoint.id_ <$> made_by_factory (run cs)) ∧
  NoDup (Frame.id_ <$> all_frames (run cs)).
Proof.
  intros cs. split; [reflexivity |].
  assert (H1 : Z.of_nat (length (made_by_factory (run cs))) ≤ 2 ^ 64)
    by (vm_compute; discriminate).
  assert (H2 : Z.of_nat (length (all_frames (run cs))) ≤ 2 ^ 64)
    by (vm_compute; discriminate).
  destruct (C9_factory_ids_fresh cs H1 H2) as (_ & _ & Hn & Hn' & _).
  split; assumption.
Defined.

(** ** The pending input of the backend *)

Lemma insert_range_union `{Countable K} {V : Type} (l : list (K * V)) (m : gmap K V) :
  Backend.insert_range m l = m ∪ list_to_map l.
Proof.
  revert m. induction l as [|[k v] l IH]; intros m; simpl.
  - by rewrite (right_id_L ∅ (∪)).
  - unfold Backend.insert_range in *. simpl. rewrite IH. apply map_eq. intros i.
    destruct (m !! k) as [w|] eqn:Hk; rewrite !lookup_union.
    + destruct (decide (k = i)) as [->|Hne].
      * by rewrite Hk, !union_Some_l.
      * by rewrite lookup_insert_ne.
    + destruct (decide (k = i)) as [->|Hne].
      * rewrite !lookup_insert_eq, Hk. by destruct (list_to_map l !! i).
      * by rewrite !lookup_insert_ne.
Qed.

Lemma insert_range_copy `{Countable K} {V : Type} (m : gmap K V) :
  Backend.insert_range ∅ (map_to_list m) = m.
Proof. by rewrite insert_range_union, (left_id_L ∅ (∪)), list_to_map_to_list. Qed.

(** C8: after a call of [ProcessNewKeyframeAsync] the pending keyframe and
    the two pending maps are the arguments of that call, whatever was
    pending before; two successive calls leave the backend as the second
    call alone does. *)
Theorem C8_pending_input_replaced (b : Backend.t) (kf1 kf2 : ptr)
    (old1 old2 : gmap Z Z) (new1 new2 : gmap loc Z) :
  let b2 := Backend.ProcessNewKeyframeAsync
              (Backend.ProcessNewKeyframeAsync b kf1 old1 new1) kf2 old2 new2 in
  Backend.keyframeCurr_ b2 = kf2 ∧
  Backend.oldMptIdKptIdxMap_ b2 = old2 ∧
  Backend.newMptKptIdxMap_ b2 = new2 ∧
  b2 = Backend.ProcessNewKeyframeAsync b kf2 old2 new2 ∧
  Backend.keyframeCurr_ (Backend.ProcessNewKeyframeAsync b kf1 old1 new1) = kf1 ∧
  Backend.oldMptIdKptIdxMap_ (Backend.ProcessNewKeyframeAsync b kf1 old1 new1) = old1 ∧
  Backend.newMptKptIdxMap_ (Backend.ProcessNewKeyframeAsync b kf1 old1 new1) = new1.
Proof.
  simpl. rewrite !insert_range_copy. repeat split; reflexivity.
Qed.

(** ** The candidate keyframes of the fuse step *)

Lemma expand_neighbors_fixed (mm : MapManager.t) (kfId : Z) (kf : loc)
    (acc : gset loc) (ids : list Z) :
  MapManager.GetKeyframe mm kfId = Some kf → kf ∈ acc →
  Backend.expand_neighbors mm kfId acc ids = acc.
Proof.
  intros Hk Hin. unfold Backend.expand_neighbors.
  induction ids as [|i ids IH]; simpl; [done |].
  assert (E : {[kf]} ∪ acc = acc).
  { apply subseteq_union_1_L. by apply singleton_subseteq_l. }
  rewrite Hk in IH |- *. rewrite E. exact IH.
Qed.

Lemma collect_step_hit (mm : MapManager.t) (h : Heap) (acc : gset loc) (id : Z)
    (kf : loc) (f : Frame.t) :
  MapManager.GetKeyframe mm id = Some kf → frames h !! kf = Some f →
  Backend.collect_step mm h acc id = Ok ({[kf]} ∪ acc).
Proof.
  intros Hk Hf. unfold Backend.collect_step. rewrite Hk, (deref_live _ _ _ Hf).
  simpl. f_equal. apply (expand_neighbors_fixed mm id kf); [done |].
  apply elem_of_union. left. by apply elem_of_singleton.
Qed.

Lemma collect_step_miss (mm : MapManager.t) (h : Heap) (acc : gset loc) (id : Z) :
  MapManager.GetKeyframe mm id = None → Backend.collect_step mm h acc id = Ok acc.
Proof. intros Hk. unfold Backend.collect_step. by rewrite Hk. Qed.

(** What the loop of lines 83 to 96 computes when the keyframes it
    resolves are alive: the keyframes the covisible ids of the current
    keyframe resolve to, and nothing else; the inner loop adds no
    keyframe. *)
Lemma collect_one_hop (mm : MapManager.t) (h : Heap) (ids : list Z) (acc : gset loc) :
  (∀ id kf, id ∈ ids → MapManager.GetKeyframe mm id = Some kf →
            is_Some (frames h !! kf)) →
  ∃ r, foldlM (Backend.collect_step mm h) acc ids = Ok r ∧
       ∀ kf, kf ∈ r ↔ kf ∈ acc ∨ ∃ id, id ∈ ids ∧ MapManager.GetKeyframe mm id = Some kf.
Proof.
  revert acc. induction ids as [|id ids IH]; intros acc Hlive.
  - exists acc. split; [done |]. intros kf. split; [by left |].
    intros [? | (id & Hid & _)]; [done |]. by apply elem_of_nil in Hid.
  - rewrite foldlM_cons.
    destruct (MapManager.GetKeyframe mm id) as [kf|] eqn:Hk.
    + destruct (Hlive id kf) as [f Hf]; [by left | done |].
      rewrite (collect_step_hit _ _ _ _ _ _ Hk Hf). simpl.
      destruct (IH ({[kf]} ∪ acc)) as (r & Hr & Hiff).
      { intros id' kf' Hin. apply Hlive. by right. }
      exists r. split; [done |]. intros kf'. rewrite Hiff. split.
      * intros [[->%elem_of_singleton | ?]%elem_of_union | (id' & Hin & Hg)].
        -- right. exists id. split; [by left | done].
        -- by left.
        -- right. exists id'. split; [by right | done].
      * intros [? | (id' & [-> | Hin]%elem_of_cons & Hg)].
        -- left. apply elem_of_union. by right.
        -- left. rewrite Hk in Hg. injection Hg as ->.
           apply elem_of_union. left. by apply elem_of_singleton.
        -- right. by exists id'.
    + rewrite (collect_step_miss _ _ _ _ Hk). simpl.
      destruct (IH acc) as (r & Hr & Hiff).
      { intros id' kf' Hin. apply Hlive. by right. }
      exists r. split; [done |]. intros kf'. rewrite Hiff. split.
      * intros [? | (id' & Hin & Hg)]; [by left |].
        right. exists id'. split; [by right | done].
      * intros [? | (id' & [-> | Hin]%elem_of_cons & Hg)]; [by left | congruence |].
        right. by exists id'.
Qed.

(** C1: the code at a chain of three keyframes. The candidate set holds
    keyframe 1 only; the set of the claim also holds keyframe 2, reached
    through [neighborKfId], which the source never looks up. *)
Theorem C1_two_hop_not_expanded :
  Backend.covisibleKfs_of (Scene.backend0 (Some 1%positive)) Scene.chain_map
    Scene.chain_heap = Ok {[2%positive]} ∧
  Backend.covisibleKfs_two_hop (Scene.backend0 (Some 1%positive)) Scene.chain_map
    Scene.chain_heap = Ok {[2%positive; 3%positive]} ∧
  MapManager.GetKeyframe Scene.chain_map 2 = Some 3%positive.
Proof. repeat split; vm_compute; reflexivity. Qed.

(** ** Lookup misses while the edges are built *)

(** An observation by a keyframe the Map Manager does not hold is not
    skipped: the keypoint is read through the null pointer first. *)
Lemma add_edge_miss `{g2o.Solver} (mm : MapManager.t) (h : Heap) (mpt : loc)
    (mptVertex : Z) (acc : Backend.t * Z * Z) (obs : Z * Z) :
  MapManager.GetKeyframe mm obs.1 = None →
  Backend.add_edge mm h mpt mptVertex acc obs = Fault.
Proof. intros Hk. unfold Backend.add_edge. rewrite Hk. reflexivity. Qed.

(** The other lookups of the round do skip what they miss. *)
Lemma add_keyframe_vertices_miss (mm : MapManager.t) (h : Heap) (acc : Backend.t * Z)
    (kfId : Z) :
  MapManager.GetKeyframe mm kfId = None →
  Backend.add_keyframe_vertices mm h acc kfId = Ok acc.
Proof. intros Hk. unfold Backend.add_keyframe_vertices. by rewrite Hk. Qed.

Lemma add_mappoint_vertex_miss (mm : MapManager.t) (h : Heap) (acc : Backend.t * Z)
    (mptId : Z) :
  MapManager.GetMappoint mm mptId = None →
  Backend.add_mappoint_vertex mm h acc mptId = Ok acc.
Proof.
  intros Hk. unfold Backend.add_mappoint_vertex. rewrite Hk.
  by destruct (Backend.mptIdToMptThenVertex_ acc.1 !! mptId).
Qed.

(** C2: the code on a mappoint that records an observation by keyframe 7,
    which the Map Manager does not hold. Building the edge of that
    observation faults, and so does the whole of [OptimizeLocalMap]; without
    the stale observation the same round completes. *)
Theorem C2_lookup_miss_is_dereferenced :
  MapManager.GetKeyframe Scene.lone_map 7 = None ∧
  @Backend.add_edge Scene.solver Scene.lone_map Scene.stale_heap 10%positive 2
    (Scene.backend0 (Some 1%positive), 2, 1) (7, 0) = Fault ∧
  @Backend.OptimizeLocalMap Scene.frame_ops Scene.solver
    (Scene.backend0 (Some 1%positive)) Scene.lone_map Scene.stale_heap = Fault ∧
  (∃ r, @Backend.OptimizeLocalMap Scene.frame_ops Scene.solver
          (Scene.backend0 (Some 1%positive)) Scene.lone_map Scene.lone_heap = Ok r).
Proof.
  split; [reflexivity |]. split; [reflexivity |]. split; [vm_compute; reflexivity |].
  eexists. vm_compute. reflexivity.
Qed.

(** ** The frontend handoff *)

(** A loop that rewrites, for each element of a sequence, the object at
    the location the element designates. *)
Lemma update_loop {A X : Type} (key : X → loc) (g : X → A → A) (P : X → Prop)
    (step : gmap loc A → X → result (gmap loc A)) :
  (∀ m x a, P x → m !! key x = Some a → step m x = Ok (<[key x := g x a]> m)) →
  ∀ (l : list X) (m : gmap loc A),
    NoDup (key <$> l) →
    (∀ x, x ∈ l → P x ∧ is_Some (m !! key x)) →
    ∃ m', foldlM step m l = Ok m' ∧
          (∀ k, k ∉ key <$> l → m' !! k = m !! k) ∧
          (∀ x, x ∈ l → ∃ a, m !! key x = Some a ∧ m' !! key x = Some (g x a)).
Proof.
  intros Hstep l. induction l as [|x l IH]; intros m Hnd Hall.
  - exists m. split; [done |]. split; [done |]. intros x Hx. by apply elem_of_nil in Hx.
  - rewrite fmap_cons in Hnd. apply NoDup_cons in Hnd as [Hnin Hnd].
    destruct (Hall x) as [HP [a Ha]]; [by left |].
    rewrite foldlM_cons, (Hstep m x a HP Ha). simpl.
    destruct (IH (<[key x := g x a]> m) Hnd) as (m' & Hm' & Hout & Hin).
    { intros y Hy. destruct (Hall y) as [HPy Hsy]; [by right |]. split; [done |].
      destruct (decide (key x = key y)) as [E|E].
      - rewrite E, lookup_insert_eq. by eexists.
      - by rewrite lookup_insert_ne. }
    exists m'. split; [done |]. split.
    + intros k Hk. apply not_elem_of_cons in Hk as [Hne Hk].
      rewrite (Hout k Hk). by rewrite lookup_insert_ne.
    + intros y [-> | Hy]%elem_of_cons.
      * exists a. split; [done |]. rewrite (Hout _ Hnin). apply lookup_insert_eq.
      * destruct (Hin y Hy) as (a' & Ha' & Hm'y).
        assert (key x ≠ key y).
        { intros E. apply Hnin. rewrite E. by apply list_elem_of_fmap_2. }
        rewrite lookup_insert_ne in Ha' by done. by exists a'.
Qed.

Lemma is_pose_estimate (o : g2o.SparseOptimizer) (v : Z) :
  is_pose o v = true → ∃ est, g2o.pose_estimate o v = Ok est.
Proof.
  unfold is_pose, g2o.pose_estimate.
  destruct (g2o.vertices o !! v) as [[e fx | e mg]|]; try done. by exists e.
Qed.

Lemma is_point_estimate (o : g2o.SparseOptimizer) (v : Z) :
  is_point o v = true → ∃ est, g2o.mappoint_estimate o v = Ok est.
Proof.
  unfold is_point, g2o.mappoint_estimate.
  destruct (g2o.vertices o !! v) as [[e fx | e mg]|]; try done. by exists e.
Qed.

Lemma write_pose_loop (o : g2o.SparseOptimizer) (kfs : list (Z * (loc * Z)))
    (fr : gmap loc Frame.t) :
  NoDup (kfs.*2.*1) →
  (∀ x, x ∈ kfs → is_Some (fr !! x.2.1) ∧ is_pose o x.2.2 = true) →
  ∃ fr', foldlM (Backend.write_pose o) fr kfs = Ok fr' ∧
    (∀ k, k ∉ kfs.*2.*1 → fr' !! k = fr !! k) ∧
    (∀ x, x ∈ kfs → ∃ f est, fr !! x.2.1 = Some f ∧
                     g2o.pose_estimate o x.2.2 = Ok est ∧
                     fr' !! x.2.1 = Some (Frame.SetTcw est f)).
Proof.
  intros Hnd Hall. rewrite <- list_fmap_compose in Hnd.
  destruct (update_loop (λ x : Z * (loc * Z), x.2.1)
              (λ x f, match g2o.pose_estimate o x.2.2 with
                      | Ok est => Frame.SetTcw est f
                      | Fault => f
                      end)
              (λ x, is_pose o x.2.2 = true) (Backend.write_pose o))
    with (l := kfs) (m := fr) as (fr' & Hfr' & Hout & Hin).
  - intros m x a HP Ha. unfold Backend.write_pose.
    destruct (is_pose_estimate _ _ HP) as [est ->].
    by rewrite (deref_live _ _ _ Ha).
  - exact Hnd.
  - intros x Hx. destruct (Hall x Hx). by split.
  - exists fr'. split; [done |]. split.
    + intros k Hk. apply Hout. rewrite <- list_fmap_compose in Hk. exact Hk.
    + intros x Hx. destruct (Hin x Hx) as (f & Hf & Hf').
      destruct (Hall x Hx) as [_ HP].
      destruct (is_pose_estimate _ _ HP) as [est Hest]. rewrite Hest in Hf'.
      by exists f, est.
Qed.

Lemma write_position_loop (o : g2o.SparseOptimizer) (mpts : list (Z * (loc * Z)))
    (mp : gmap loc Mappoint.t) :
  NoDup (mpts.*2.*1) →
  (∀ x, x ∈ mpts → is_Some (mp !! x.2.1) ∧ is_point o x.2.2 = true) →
  ∃ mp', foldlM (Backend.write_position o) mp mpts = Ok mp' ∧
    (∀ k, k ∉ mpts.*2.*1 → mp' !! k = mp !! k) ∧
    (∀ x, x ∈ mpts → ∃ m est, mp !! x.2.1 = Some m ∧
                      g2o.mappoint_estimate o x.2.2 = Ok est ∧
                      mp' !! x.2.1 =
                        Some (if Mappoint.outlier_ m then m
                              else Mappoint.SetPosition est m)).
Proof.
  intros Hnd Hall. rewrite <- list_fmap_compose in Hnd.
  destruct (update_loop (λ x : Z * (loc * Z), x.2.1)
              (λ x m, if Mappoint.outlier_ m then m
                      else match g2o.mappoint_estimate o x.2.2 with
                           | Ok est => Mappoint.SetPosition est m
                           | Fault => m
                           end)
              (λ x, is_point o x.2.2 = true) (Backend.write_position o))
    with (l := mpts) (m := mp) as (mp' & Hmp' & Hout & Hin).
  - intros m x a HP Ha. unfold Backend.write_position.
    rewrite (deref_live _ _ _ Ha). simpl.
    destruct (Mappoint.outlier_ a).
    + by rewrite insert_id.
    + by destruct (is_point_estimate _ _ HP) as [est ->].
  - exact Hnd.
  - intros x Hx. destruct (Hall x Hx). by split.
  - exists mp'. split; [done |]. split.
    + intros k Hk. apply Hout. rewrite <- list_fmap_compose in Hk. exact Hk.
    + intros x Hx. destruct (Hin x Hx) as (m & Hm & Hm').
      destruct (Hall x Hx) as [_ HP].
      destruct (is_point_estimate _ _ HP) as [est Hest]. rewrite Hest in Hm'.
      by exists m, est.
Qed.

(** The loop of lines 351 to 358 keeps the entries whose mappoint is not
    an outlier. *)
Lemma track_loop (h : Heap) (mpts : list (Z * (loc * Z))) :
  NoDup (mpts.*1) →
  (∀ x, x ∈ mpts → is_Some (mappoints h !! x.2.1)) →
  ∃ tm, foldlM (Backend.track_step h) ∅ mpts = Ok tm ∧
    ∀ id mpt, tm !! id = Some mpt ↔
      ∃ v m, (id, (mpt, v)) ∈ mpts ∧ mappoints h !! mpt = Some m ∧
             Mappoint.outlier_ m = false.
Proof.
  induction mpts as [|[id0 [mpt0 v0]] mpts IH] using rev_ind; intros Hnd Hlive.
  - exists ∅. split; [done |]. intros id mpt. rewrite lookup_empty. split; [done |].
    intros (v & m & Hin & _). by apply elem_of_nil in Hin.
  - rewrite fmap_app in Hnd. apply NoDup_app in Hnd as (Hnd & Hnin & _).
    destruct IH as (tm & Htm & Hiff); [done | |].
    { intros x Hx. apply Hlive. apply elem_of_app. by left. }
    destruct (Hlive (id0, (mpt0, v0))) as [m0 Hm0].
    { apply elem_of_app. right. by apply list_elem_of_singleton. }
    rewrite foldlM_app, Htm. simpl. unfold Backend.track_step. simpl in *.
    rewrite Hm0. simpl.
    eexists. split; [reflexivity |]. intros id mpt.
    destruct (Mappoint.outlier_ m0) eqn:Hout.
    + rewrite Hiff. split.
      * intros (v & m & Hin & Hm & Ho). exists v, m. split; [|done].
        apply elem_of_app. by left.
      * intros (v & m & [Hin | Hin%list_elem_of_singleton]%elem_of_app & Hm & Ho).
        -- by exists v, m.
        -- injection Hin as -> -> ->. congruence.
    + destruct (decide (id = id0)) as [-> | Hne].
      * rewrite lookup_insert_eq. split.
        -- intros [= <-]. exists v0, m0. split; [|done].
           apply elem_of_app. right. by apply list_elem_of_singleton.
        -- intros (v & m & [Hin | Hin%list_elem_of_singleton]%elem_of_app & Hm & Ho).
           ++ exfalso. apply (Hnin id0).
              ** apply list_elem_of_fmap. by exists (id0, (mpt, v)).
              ** by apply list_elem_of_singleton.
           ++ by injection Hin as -> ->.
      * rewrite lookup_insert_ne by done. rewrite Hiff. split.
        -- intros (v & m & Hin & Hm & Ho). exists v, m. split; [|done].
           apply elem_of_app. by left.
        -- intros (v & m & [Hin | Hin%list_elem_of_singleton]%elem_of_app & Hm & Ho).
           ++ by exists v, m.
           ++ injection Hin as -> -> ->. done.
Qed.

Lemma entries_ready_list {A : Type} (kind : Z → bool) (heap : gmap loc A)
    (m : gmap Z (loc * Z)) :
  entries_ready kind heap m →
  NoDup ((map_to_list m).*2.*1) ∧
  ∀ x, x ∈ map_to_list m → is_Some (heap !! x.2.1) ∧ kind x.2.2 = true.
Proof.
  intros [Hall Hnd]. split; [done |]. intros [id [l v]] Hx.
  apply elem_of_map_to_list in Hx. exact (Hall id (l, v) Hx).
Qed.

Lemma entry_loc_elem (m : gmap Z (loc * Z)) (id : Z) (l : loc) (v : Z) :
  m !! id = Some (l, v) → l ∈ (map_to_list m).*2.*1.
Proof.
  intros H. apply list_elem_of_fmap. exists (l, v). split; [done |].
  apply list_elem_of_fmap. exists (id, (l, v)). split; [done |].
  by apply elem_of_map_to_list.
Qed.

Lemma loc_elem_entry (m : gmap Z (loc * Z)) (l : loc) :
  l ∈ (map_to_list m).*2.*1 → ∃ id v, m !! id = Some (l, v).
Proof.
  intros H. apply list_elem_of_fmap in H as ([l' v] & -> & H).
  apply list_elem_of_fmap in H as ([id [l'' v']] & E & H). simpl in E.
  injection E as <- <-. apply elem_of_map_to_list in H. by exists id, v.
Qed.

(** The two write-back loops of lines 366 to 379, on the maps of a round. *)
Lemma write_back (b : Backend.t) (h : Heap) :
  entries_ready (is_pose (Backend.optimizer_ b)) (frames h)
    (Backend.kfIdToCovKfThenVertex_ b) →
  entries_ready (is_point (Backend.optimizer_ b)) (mappoints h)
    (Backend.mptIdToMptThenVertex_ b) →
  ∃ fr mp,
    foldlM (Backend.write_pose (Backend.optimizer_ b)) (frames h)
      (map_to_list (Backend.kfIdToCovKfThenVertex_ b)) = Ok fr ∧
    foldlM (Backend.write_position (Backend.optimizer_ b)) (mappoints h)
      (map_to_list (Backend.mptIdToMptThenVertex_ b)) = Ok mp ∧
    (∀ l, (¬ ∃ id v, Backend.kfIdToCovKfThenVertex_ b !! id = Some (l, v)) →
          fr !! l = frames h !! l) ∧
    (∀ id kf v, Backend.kfIdToCovKfThenVertex_ b !! id = Some (kf, v) →
       ∃ f est, frames h !! kf = Some f ∧
                g2o.pose_estimate (Backend.optimizer_ b) v = Ok est ∧
                fr !! kf = Some (Frame.SetTcw est f)) ∧
    (∀ l, (¬ ∃ id v, Backend.mptIdToMptThenVertex_ b !! id = Some (l, v)) →
          mp !! l = mappoints h !! l) ∧
    (∀ id mpt v, Backend.mptIdToMptThenVertex_ b !! id = Some (mpt, v) →
       ∃ m est, mappoints h !! mpt = Some m ∧
                g2o.mappoint_estimate (Backend.optimizer_ b) v = Ok est ∧
                mp !! mpt = Some (if Mappoint.outlier_ m then m
                                  else Mappoint.SetPosition est m)).
Proof.
  intros [Hnd1 Hall1]%entries_ready_list [Hnd2 Hall2]%entries_ready_list.
  destruct (write_pose_loop _ _ _ Hnd1 Hall1) as (fr & Hfr & Hout1 & Hin1).
  destruct (write_position_loop _ _ _ Hnd2 Hall2) as (mp & Hmp & Hout2 & Hin2).
  exists fr, mp. repeat split; try done.
  - intros l Hl. apply Hout1. intros Hin. apply Hl. by apply loc_elem_entry.
  - intros id kf v Hk. apply (Hin1 (id, (kf, v))). by apply elem_of_map_to_list.
  - intros l Hl. apply Hout2. intros Hin. apply Hl. by apply loc_elem_entry.
  - intros id mpt v Hk. apply (Hin2 (id, (mpt, v))). by apply elem_of_map_to_list.
Qed.

Lemma must_reset_total (b : Backend.t) (h : Heap) (refKeyframe : ptr) :
  ref_ready b h refKeyframe → ∃ r, Backend.must_reset b h refKeyframe = Ok r.
Proof.
  destruct refKeyframe as [r|]; simpl; [|by eexists].
  intros [[fr Hfr] Hc]. destruct (Backend.keyframeCurr_ b) as [c|]; [|done].
  destruct Hc as [fc Hfc]. rewrite Hfr. simpl. rewrite Hfc. simpl. by eexists.
Qed.

Lemma must_reset_differs (b : Backend.t) (h : Heap) (refKeyframe : ptr) :
  refKeyframe = None ∨
  (∃ r fr c fc, refKeyframe = Some r ∧ frames h !! r = Some fr ∧
                Backend.keyframeCurr_ b = Some c ∧ frames h !! c = Some fc ∧
                Frame.GetId fr ≠ Frame.GetId fc) →
  Backend.must_reset b h refKeyframe = Ok true.
Proof.
  intros [-> | (r & fr & c & fc & -> & Hfr & Hc & Hfc & Hne)]; [done |].
  unfold Backend.must_reset. rewrite Hc, (deref_live _ _ _ Hfr), (deref_live _ _ _ Hfc).
  simpl. by rewrite bool_decide_eq_false_2.
Qed.

Lemma must_reset_same (b : Backend.t) (h : Heap) (r c : loc) (fr fc : Frame.t) :
  frames h !! r = Some fr → Backend.keyframeCurr_ b = Some c →
  frames h !! c = Some fc → Frame.GetId fr = Frame.GetId fc →
  Backend.must_reset b h (Some r) = Ok false.
Proof.
  intros Hfr Hc Hfc He.
  unfold Backend.must_reset. rewrite Hc, (deref_live _ _ _ Hfr), (deref_live _ _ _ Hfc).
  simpl. by rewrite bool_decide_eq_true_2.
Qed.

(** Lines 349 to 363 on the map of the round. *)
Lemma reset_tracking_map (b : Backend.t) (mm : MapManager.t) (h : Heap) :
  entries_ready (is_point (Backend.optimizer_ b)) (mappoints h)
    (Backend.mptIdToMptThenVertex_ b) →
  ∃ survivors : gmap Z loc,
    (∀ id mpt, survivors !! id = Some mpt ↔
       ∃ v m, Backend.mptIdToMptThenVertex_ b !! id = Some (mpt, v) ∧
              mappoints h !! mpt = Some m ∧ Mappoint.outlier_ m = false) ∧
    Backend.reset_tracking b mm h (map_to_list (Backend.mptIdToMptThenVertex_ b)) =
      Ok (Backend.keyframeCurr_ b,
          if bool_decide (size survivors < 100)%nat
          then MapManager.GetAllMappoints mm else survivors).
Proof.
  intros [_ Hall]%entries_ready_list.
  destruct (track_loop h (map_to_list (Backend.mptIdToMptThenVertex_ b)))
    as (tm & Htm & Hiff).
  - apply NoDup_fst_map_to_list.
  - intros x Hx. by destruct (Hall x Hx).
  - exists tm. split.
    + intros id mpt. rewrite Hiff. split.
      * intros (v & m & Hin%elem_of_map_to_list & Hm & Ho). by exists v, m.
      * intros (v & m & Hin%elem_of_map_to_list & Hm & Ho). by exists v, m.
    + unfold Backend.reset_tracking. by rewrite Htm.
Qed.

(** C3, as stated, fails: mappoint 5 has a vertex whose estimate is
    (9, 9, 9), it is flagged outlier, and after the handoff its position is
    still (3, 4, 1). *)
Lemma C3_outlier_position_not_written :
  ∃ front h' m,
    Backend.UpdateFrontendTrackingMap Scene.handoff_backend Scene.handoff_map
      Scene.handoff_heap None ∅ = Ok (front, h') ∧
    Backend.mptIdToMptThenVertex_ Scene.handoff_backend !! 5 = Some (10%positive, 2) ∧
    g2o.mappoint_estimate (Backend.optimizer_ Scene.handoff_backend) 2 =
      Ok (9%Q, 9%Q, 9%Q) ∧
    mappoints h' !! 10%positive = Some m ∧
    Mappoint.GetPosition m = (3%Q, 4%Q, 1%Q) ∧
    Mappoint.GetPosition m ≠ (9%Q, 9%Q, 9%Q).
Proof.
  eexists _, _, _. split; [vm_compute; reflexivity |].
  split; [reflexivity |]. split; [reflexivity |].
  split; [vm_compute; reflexivity |]. split; [reflexivity | discriminate].
Qed.

(** C3, amended: whichever branch of the test of [refKeyframe] is taken,
    after the handoff the pose of every keyframe entered in
    [kfIdToCovKfThenVertex_] is the estimate of its vertex, and the
    position of every mappoint entered in [mptIdToMptThenVertex_] whose
    outlier flag is not set is the estimate of its vertex; a mappoint whose
    outlier flag is set is left as it was. A keyframe that only has a fixed
    pose vertex ([kfIdToFixedKfThenVertex_]) is not written: it is left as
    it was, whatever the estimate of that vertex. *)
Theorem C3_estimates_written_back (b : Backend.t) (mm : MapManager.t) (h : Heap)
    (refKeyframe : ptr) (trackingMap : gmap Z loc)
    (Href : ref_ready b h refKeyframe)
    (Hkf : entries_ready (is_pose (Backend.optimizer_ b)) (frames h)
             (Backend.kfIdToCovKfThenVertex_ b))
    (Hmp : entries_ready (is_point (Backend.optimizer_ b)) (mappoints h)
             (Backend.mptIdToMptThenVertex_ b)) :
  ∃ front h',
    Backend.UpdateFrontendTrackingMap b mm h refKeyframe trackingMap = Ok (front, h') ∧
    (∀ id kf v, Backend.kfIdToCovKfThenVertex_ b !! id = Some (kf, v) →
       ∃ f, frames h' !! kf = Some f ∧
            g2o.pose_estimate (Backend.optimizer_ b) v = Ok (Frame.GetTcw f)) ∧
    (∀ id mpt v, Backend.mptIdToMptThenVertex_ b !! id = Some (mpt, v) →
       ∃ m, mappoints h' !! mpt = Some m ∧
            if Mappoint.outlier_ m then mappoints h !! mpt = Some m
            else g2o.mappoint_estimate (Backend.optimizer_ b) v =
                   Ok (Mappoint.GetPosition m)) ∧
    (∀ id kf v, Backend.kfIdToFixedKfThenVertex_ b !! id = Some (kf, v) →
       (¬ ∃ id' v', Backend.kfIdToCovKfThenVertex_ b !! id' = Some (kf, v')) →
       frames h' !! kf = frames h !! kf).
Proof.
  destruct (must_reset_total b h refKeyframe Href) as [reset Hreset].
  destruct (reset_tracking_map b mm h Hmp) as (S & _ & HS).
  destruct (write_back b h Hkf Hmp) as (fr & mp & Hfr & Hmp' & Hout1 & Hin1 & _ & Hin2).
  assert (Hfront : ∃ front,
    (if reset then Backend.reset_tracking b mm h
                     (map_to_list (Backend.mptIdToMptThenVertex_ b))
     else Ok (refKeyframe, trackingMap)) = Ok front).
  { destruct reset; by eexists. }
  destruct Hfront as [front Hfront].
  exists front, (mkHeap fr mp). split.
  - unfold Backend.UpdateFrontendTrackingMap, Backend.handoff.
    rewrite Hreset. simpl. rewrite Hfront. simpl. rewrite Hfr. simpl.
    rewrite Hmp'. reflexivity.
  - split; [|split].
    + intros id kf v Hk. destruct (Hin1 id kf v Hk) as (f & est & Hf & Hest & Hf').
      exists (Frame.SetTcw est f). split; [done |]. exact Hest.
    + intros id mpt v Hk. destruct (Hin2 id mpt v Hk) as (m & est & Hm & Hest & Hm').
      simpl. destruct (Mappoint.outlier_ m) eqn:Ho.
      * exists m. rewrite Ho. by split.
      * exists (Mappoint.SetPosition est m). simpl. rewrite Ho. by split.
    + intros id kf v _ Hnot. simpl. by rewrite (Hout1 kf Hnot).
Qed.

(** The maps of [Scene.handoff_backend] are ready. *)
Lemma handoff_scene_ready :
  entries_ready (is_pose (Backend.optimizer_ Scene.handoff_backend))
    (frames Scene.handoff_heap) (Backend.kfIdToCovKfThenVertex_ Scene.handoff_backend) ∧
  entries_ready (is_point (Backend.optimizer_ Scene.handoff_backend))
    (mappoints Scene.handoff_heap) (Backend.mptIdToMptThenVertex_ Scene.handoff_backend).
Proof.
  split; apply (bool_decide_unpack _); vm_compute; exact I.
Defined.

(** The maps of [Scene.handoff_fixed_backend] are ready. *)
Lemma handoff_fixed_scene_ready :
  entries_ready (is_pose (Backend.optimizer_ Scene.handoff_fixed_backend))
    (frames Scene.handoff_heap)
    (Backend.kfIdToCovKfThenVertex_ Scene.handoff_fixed_backend) ∧
  entries_ready (is_point (Backend.optimizer_ Scene.handoff_fixed_backend))
    (mappoints Scene.handoff_heap)
    (Backend.mptIdToMptThenVertex_ Scene.handoff_fixed_backend).
Proof.
  split; apply (bool_decide_unpack _); vm_compute; exact I.
Defined.

(** On [Scene.handoff_fixed_backend] the fixed vertex of keyframe 1 holds
    [Scene.poseA]; after the handoff the keyframe is still at
    [Scene.pose0]. *)
Example fixed_keyframe_not_written :
  ∃ front h' f,
    Backend.UpdateFrontendTrackingMap Scene.handoff_fixed_backend Scene.handoff_map
      Scene.handoff_heap (Some 2%positive) ∅ = Ok (front, h') ∧
    Backend.kfIdToFixedKfThenVertex_ Scene.handoff_fixed_backend !! 1 =
      Some (2%positive, 4) ∧
    g2o.pose_estimate (Backend.optimizer_ Scene.handoff_fixed_backend) 4 =
      Ok Scene.poseA ∧
    frames h' !! 2%positive = Some f ∧
    Frame.GetTcw f = Scene.pose0 ∧
    Scene.pose0 ≠ Scene.poseA.
Proof.
  eexists _, _, _. split; [vm_compute; reflexivity |].
  split; [reflexivity |]. split; [reflexivity |].
  split; [vm_compute; reflexivity |]. split; [reflexivity | discriminate].
Qed.

(** [C3_estimates_written_back] on [Scene.handoff_fixed_backend], which has
    an optimised keyframe, an outlier mappoint, a mappoint that is no
    outlier and a fixed keyframe, with an older reference keyframe. *)
Lemma C3_estimates_written_back_witness :
  ∃ front h',
    Backend.UpdateFrontendTrackingMap Scene.handoff_fixed_backend Scene.handoff_map
      Scene.handoff_heap (Some 2%positive) ∅ = Ok (front, h') ∧
    (∀ id kf v,
       Backend.kfIdToCovKfThenVertex_ Scene.handoff_fixed_backend !! id = Some (kf, v) →
       ∃ f, frames h' !! kf = Some f ∧
            g2o.pose_estimate (Backend.optimizer_ Scene.handoff_fixed_backend) v =
              Ok (Frame.GetTcw f)) ∧
    (∀ id mpt v,
       Backend.mptIdToMptThenVertex_ Scene.handoff_fixed_backend !! id = Some (mpt, v) →
       ∃ m, mappoints h' !! mpt = Some m ∧
            if Mappoint.outlier_ m then mappoints Scene.handoff_heap !! mpt = Some m
            else g2o.mappoint_estimate
                   (Backend.optimizer_ Scene.handoff_fixed_backend) v =
                   Ok (Mappoint.GetPosition m)) ∧
    (∀ id kf v,
       Backend.kfIdToFixedKfThenVertex_ Scene.handoff_fixed_backend !! id =
         Some (kf, v) →
       (¬ ∃ id' v',
            Backend.kfIdToCovKfThenVertex_ Scene.handoff_fixed_backend !! id' =
              Some (kf, v')) →
       frames h' !! kf = frames Scene.handoff_heap !! kf).
Proof.
  apply C3_estimates_written_back.
  - simpl. split; apply (bool_decide_unpack _); vm_compute; exact I.
  - apply handoff_fixed_scene_ready.
  - apply handoff_fixed_scene_ready.
Defined.

(** C4: when [refKeyframe] is null or carries another id than the
    keyframe just processed, the handoff sets [refKeyframe] to that
    keyframe and [trackingMap] to the map of the mappoints entered in
    [mptIdToMptThenVertex_] whose outlier flag is not set, or, when fewer
    than 100 of them remain, to the snapshot of all the mappoints of the Map
    Manager; in particular when every one of them is flagged outlier. *)
Theorem C4_tracking_map_rebuilt (b : Backend.t) (mm : MapManager.t) (h : Heap)
    (refKeyframe : ptr) (trackingMap : gmap Z loc)
    (Hdiff : refKeyframe = None ∨
             ∃ r fr c fc, refKeyframe = Some r ∧ frames h !! r = Some fr ∧
                          Backend.keyframeCurr_ b = Some c ∧ frames h !! c = Some fc ∧
                          Frame.GetId fr ≠ Frame.GetId fc)
    (Hkf : entries_ready (is_pose (Backend.optimizer_ b)) (frames h)
             (Backend.kfIdToCovKfThenVertex_ b))
    (Hmp : entries_ready (is_point (Backend.optimizer_ b)) (mappoints h)
             (Backend.mptIdToMptThenVertex_ b)) :
  ∃ (survivors tm : gmap Z loc) (h' : Heap),
    Backend.UpdateFrontendTrackingMap b mm h refKeyframe trackingMap =
      Ok (Backend.keyframeCurr_ b, tm, h') ∧
    (∀ id mpt, survivors !! id = Some mpt ↔
       ∃ v m, Backend.mptIdToMptThenVertex_ b !! id = Some (mpt, v) ∧
              mappoints h !! mpt = Some m ∧ Mappoint.outlier_ m = false) ∧
    ((size survivors < 100)%nat → tm = MapManager.GetAllMappoints mm) ∧
    ((100 ≤ size survivors)%nat → tm = survivors) ∧
    ((∀ id mpt v m, Backend.mptIdToMptThenVertex_ b !! id = Some (mpt, v) →
                    mappoints h !! mpt = Some m → Mappoint.outlier_ m = true) →
     tm = MapManager.GetAllMappoints mm).
Proof.
  pose proof (must_reset_differs b h refKeyframe Hdiff) as Hreset.
  destruct (reset_tracking_map b mm h Hmp) as (S & HS & Htrack).
  destruct (write_back b h Hkf Hmp) as (fr & mp & Hfr & Hmp' & _).
  exists S, (if bool_decide (size S < 100)%nat
             then MapManager.GetAllMappoints mm else S), (mkHeap fr mp).
  split.
  - unfold Backend.UpdateFrontendTrackingMap, Backend.handoff.
    rewrite Hreset. simpl. rewrite Htrack. simpl. rewrite Hfr. simpl.
    rewrite Hmp'. reflexivity.
  - split; [exact HS |]. split; [|split].
    + intros Hlt. by rewrite bool_decide_eq_true_2.
    + intros Hge. rewrite bool_decide_eq_false_2; [done | lia].
    + intros Hall. assert (S = ∅) as ->.
      { apply map_empty. intros id. destruct (S !! id) as [mpt|] eqn:E; [|done].
        apply HS in E as (v & m & Hk & Hm & Ho).
        rewrite (Hall id mpt v m Hk Hm) in Ho. discriminate. }
      rewrite map_size_empty. by rewrite bool_decide_eq_true_2 by lia.
Qed.

(** [C4_tracking_map_rebuilt] on [Scene.handoff_backend], with an older
    reference keyframe. *)
Lemma C4_tracking_map_rebuilt_witness :
  ∃ (survivors tm : gmap Z loc) (h' : Heap),
    Backend.UpdateFrontendTrackingMap Scene.handoff_backend Scene.handoff_map
      Scene.handoff_heap (Some 2%positive) ∅ =
      Ok (Backend.keyframeCurr_ Scene.handoff_backend, tm, h') ∧
    (∀ id mpt, survivors !! id = Some mpt ↔
       ∃ v m, Backend.mptIdToMptThenVertex_ Scene.handoff_backend !! id = Some (mpt, v) ∧
              mappoints Scene.handoff_heap !! mpt = Some m ∧
              Mappoint.outlier_ m = false) ∧
    ((size survivors < 100)%nat → tm = MapManager.GetAllMappoints Scene.handoff_map) ∧
    ((100 ≤ size survivors)%nat → tm = survivors) ∧
    ((∀ id mpt v m,
        Backend.mptIdToMptThenVertex_ Scene.handoff_backend !! id = Some (mpt, v) →
        mappoints Scene.handoff_heap !! mpt = Some m → Mappoint.outlier_ m = true) →
     tm = MapManager.GetAllMappoints Scene.handoff_map).
Proof.
  apply C4_tracking_map_rebuilt.
  - right. eexists 2%positive, _, 1%positive, _.
    split; [reflexivity |]. split; [vm_compute; reflexivity |].
    split; [reflexivity |]. split; [vm_compute; reflexivity |]. discriminate.
  - apply handoff_scene_ready.
  - apply handoff_scene_ready.
Defined.

(** C10: when [refKeyframe] is present and carries the id of the keyframe
    just processed, the handoff returns [refKeyframe] and [trackingMap] as
    they were. In the heap, a keyframe entered in [kfIdToCovKfThenVertex_]
    changes at most in its pose, a mappoint entered in
    [mptIdToMptThenVertex_] whose outlier flag is not set changes at most in
    its position, and every other keyframe and mappoint is as before. *)
Theorem C10_same_reference_frame (b : Backend.t) (mm : MapManager.t) (h : Heap)
    (r c : loc) (fr fc : Frame.t) (trackingMap : gmap Z loc)
    (Hr : frames h !! r = Some fr)
    (Hc : Backend.keyframeCurr_ b = Some c)
    (Hfc : frames h !! c = Some fc)
    (Hid : Frame.GetId fr = Frame.GetId fc)
    (Hkf : entries_ready (is_pose (Backend.optimizer_ b)) (frames h)
             (Backend.kfIdToCovKfThenVertex_ b))
    (Hmp : entries_ready (is_point (Backend.optimizer_ b)) (mappoints h)
             (Backend.mptIdToMptThenVertex_ b)) :
  ∃ h',
    Backend.UpdateFrontendTrackingMap b mm h (Some r) trackingMap =
      Ok (Some r, trackingMap, h') ∧
    (∀ l, (¬ ∃ id v, Backend.kfIdToCovKfThenVertex_ b !! id = Some (l, v)) →
          frames h' !! l = frames h !! l) ∧
    (∀ id kf v, Backend.kfIdToCovKfThenVertex_ b !! id = Some (kf, v) →
       ∃ f est, frames h !! kf = Some f ∧
                frames h' !! kf = Some (Frame.SetTcw est f)) ∧
    (∀ l, (¬ ∃ id v, Backend.mptIdToMptThenVertex_ b !! id = Some (l, v)) →
          mappoints h' !! l = mappoints h !! l) ∧
    (∀ id mpt v, Backend.mptIdToMptThenVertex_ b !! id = Some (mpt, v) →
       ∃ m, mappoints h !! mpt = Some m ∧
            if Mappoint.outlier_ m then mappoints h' !! mpt = Some m
            else ∃ est, mappoints h' !! mpt = Some (Mappoint.SetPosition est m)).
Proof.
  pose proof (must_reset_same b h r c fr fc Hr Hc Hfc Hid) as Hreset.
  destruct (write_back b h Hkf Hmp)
    as (fr' & mp' & Hfr & Hmp' & Hout1 & Hin1 & Hout2 & Hin2).
  exists (mkHeap fr' mp'). split.
  - unfold Backend.UpdateFrontendTrackingMap, Backend.handoff.
    rewrite Hreset. simpl. rewrite Hfr. simpl. rewrite Hmp'. reflexivity.
  - split; [exact Hout1 |]. split; [|split; [exact Hout2 |]].
    + intros id kf v Hk. destruct (Hin1 id kf v Hk) as (f & est & Hf & _ & Hf').
      by exists f, est.
    + intros id mpt v Hk. destruct (Hin2 id mpt v Hk) as (m & est & Hm & _ & Hm').
      exists m. split; [done |]. simpl. destruct (Mappoint.outlier_ m); [done |].
      by exists est.
Qed.

(** [C10_same_reference_frame] on [Scene.handoff_backend], the reference
    keyframe being the current one. *)
Lemma C10_same_reference_frame_witness :
  ∃ h',
    Backend.UpdateFrontendTrackingMap Scene.handoff_backend Scene.handoff_map
      Scene.handoff_heap (Some 1%positive) {[6 := 11%positive]} =
      Ok (Some 1%positive, {[6 := 11%positive]}, h') ∧
    (∀ l, (¬ ∃ id v, Backend.kfIdToCovKfThenVertex_ Scene.handoff_backend !! id =
                       Some (l, v)) →
          frames h' !! l = frames Scene.handoff_heap !! l) ∧
    (∀ id kf v,
       Backend.kfIdToCovKfThenVertex_ Scene.handoff_backend !! id = Some (kf, v) →
       ∃ f est, frames Scene.handoff_heap !! kf = Some f ∧
                frames h' !! kf = Some (Frame.SetTcw est f)) ∧
    (∀ l, (¬ ∃ id v, Backend.mptIdToMptThenVertex_ Scene.handoff_backend !! id =
                       Some (l, v)) →
          mappoints h' !! l = mappoints Scene.handoff_heap !! l) ∧
    (∀ id mpt v,
       Backend.mptIdToMptThenVertex_ Scene.handoff_backend !! id = Some (mpt, v) →
       ∃ m, mappoints Scene.handoff_heap !! mpt = Some m ∧
            if Mappoint.outlier_ m then mappoints h' !! mpt = Some m
            else ∃ est, mappoints h' !! mpt = Some (Mappoint.SetPosition est m)).
Proof.
  apply (C10_same_reference_frame Scene.handoff_backend Scene.handoff_map
           Scene.handoff_heap 1%positive 1%positive
           (Scene.mkFrame 0 [] [5; 6] []) (Scene.mkFrame 0 [] [5; 6] [])
           {[6 := 11%positive]}).
  - vm_compute; reflexivity.
  - reflexivity.
  - vm_compute; reflexivity.
  - reflexivity.
  - apply handoff_scene_ready.
  - apply handoff_scene_ready.
Defined.

(** ** The two sweeps of the local bundle adjustment *)

Lemma frames_shrink_refl (fr : gmap loc Frame.t) : frames_shrink fr fr.
Proof. intros l f Hf. by exists f. Qed.

Lemma frames_shrink_trans (fr1 fr2 fr3 : gmap loc Frame.t) :
  frames_shrink fr1 fr2 → frames_shrink fr2 fr3 → frames_shrink fr1 fr3.
Proof.
  intros H12 H23 l f Hf. destruct (H12 l f Hf) as (f2 & Hf2 & Hs2).
  destruct (H23 l f2 Hf2) as (f3 & Hf3 & Hs3). exists f3. split; [done |].
  by transitivity (Frame.observedMappointIds_ f2).
Qed.

Lemma frames_shrink_remove (fr : gmap loc Frame.t) (kf : loc) (f : Frame.t) (id : Z) :
  fr !! kf = Some f →
  frames_shrink fr (<[kf := Frame.RemoveObservedMappoint id f]> fr).
Proof.
  intros Hf l g Hg. destruct (decide (kf = l)) as [<- | Hne].
  - rewrite lookup_insert_eq. eexists. split; [done |]. simpl.
    rewrite Hf in Hg. injection Hg as <-. apply subseteq_difference_l. done.
  - rewrite lookup_insert_ne by done. by exists g.
Qed.

Lemma mappoints_marked_refl (mp : gmap loc Mappoint.t) : mappoints_marked mp mp.
Proof. intros l m Hm. by exists m. Qed.

Lemma mappoints_marked_trans (mp1 mp2 mp3 : gmap loc Mappoint.t) :
  mappoints_marked mp1 mp2 → mappoints_marked mp2 mp3 → mappoints_marked mp1 mp3.
Proof.
  intros H12 H23 l m Hm. destruct (H12 l m Hm) as (m2 & Hm2 & Hi2 & Ho2).
  destruct (H23 l m2 Hm2) as (m3 & Hm3 & Hi3 & Ho3). exists m3.
  split; [done |]. split; [congruence | auto].
Qed.

Lemma mappoints_marked_set (mp : gmap loc Mappoint.t) (mpt : loc) (m : Mappoint.t) :
  mp !! mpt = Some m →
  mappoints_marked mp (<[mpt := Mappoint.set_optimized m]> mp).
Proof.
  intros Hm l g Hg. destruct (decide (mpt = l)) as [<- | Hne].
  - rewrite lookup_insert_eq. eexists. split; [done |].
    rewrite Hm in Hg. injection Hg as <-. by split.
  - rewrite lookup_insert_ne by done. by exists g.
Qed.

Section Sweeps.
Context `{g2o.Solver}.

Lemma computeError_vertices (o o' : g2o.SparseOptimizer) (ed : g2o.Edge) :
  g2o.vertices o = g2o.vertices o' → g2o.computeError o ed = g2o.computeError o' ed.
Proof. intros E. unfold g2o.computeError. by rewrite E. Qed.

Lemma computeError_ready (o : g2o.SparseOptimizer) (ed : g2o.Edge) :
  is_pose o (g2o.vertex0 ed) = true → is_point o (g2o.vertex1 ed) = true →
  ∃ c, g2o.computeError o ed =
         Ok (g2o.mkEdge (g2o.vertex0 ed) (g2o.vertex1 ed) (g2o.measurement ed)
               (g2o.level ed) (g2o.robustKernel ed) c).
Proof.
  unfold is_pose, is_point, g2o.computeError.
  destruct (g2o.vertices o !! g2o.vertex0 ed) as [[T fx | ? ?]|]; try done.
  destruct (g2o.vertices o !! g2o.vertex1 ed) as [[? ? | P mg]|]; try done.
  intros _ _. by eexists.
Qed.

Lemma edge_ready_vertices (o o' : g2o.SparseOptimizer) (h : Heap) (e : Z) (x : loc * loc) :
  g2o.vertices o' = g2o.vertices o → g2o.edges o' !! e = g2o.edges o !! e →
  edge_ready o h e x → edge_ready o' h e x.
Proof.
  intros Ev Ee. unfold edge_ready, is_pose, is_point. by rewrite Ev, Ee.
Qed.

Lemma edge_ready_heap (o : g2o.SparseOptimizer) (h h' : Heap) (e : Z) (x : loc * loc) :
  frames_shrink (frames h) (frames h') →
  mappoints_marked (mappoints h) (mappoints h') →
  edge_ready o h e x → edge_ready o h' e x.
Proof.
  intros Hf Hm (He & [f Hx1] & [m Hx2]). split; [done |]. split.
  - destruct (Hf _ _ Hx1) as (f' & -> & _). by eexists.
  - destruct (Hm _ _ Hx2) as (m' & -> & _). by eexists.
Qed.

(** One turn of the first sweep. *)
Lemma sweep1_step_ready (th : Q) (s : Backend.Sweep) (x : Z * (loc * loc)) :
  edge_ready (Backend.sw_optimizer s) (Backend.sw_heap s) x.1 x.2 →
  ∃ ed ec m f,
    g2o.edges (Backend.sw_optimizer s) !! x.1 = Some ed ∧
    g2o.computeError (Backend.sw_optimizer s) ed = Ok ec ∧
    mappoints (Backend.sw_heap s) !! x.2.2 = Some m ∧
    frames (Backend.sw_heap s) !! x.2.1 = Some f ∧
    Backend.sweep1_step th s x =
      Ok (Backend.mkSweep
            (g2o.addEdge x.1
               (g2o.setRobustKernel None
                  (if Qgtb (g2o.chi2 ec) th then g2o.setLevel 1 ec else ec))
               (Backend.sw_optimizer s))
            (if Qgtb (g2o.chi2 ec) th
             then mkHeap (<[x.2.1 := Frame.RemoveObservedMappoint (Mappoint.GetId m) f]>
                            (frames (Backend.sw_heap s)))
                         (mappoints (Backend.sw_heap s))
             else Backend.sw_heap s)
            (if Qgtb (g2o.chi2 ec) th then Backend.outlierCnt s + 1
             else Backend.outlierCnt s)).
Proof.
  intros (He & [f Hf] & [m Hm]).
  destruct (g2o.edges (Backend.sw_optimizer s) !! x.1) as [ed|] eqn:Hed; [|done].
  destruct He as [Hp Hq]. destruct (computeError_ready _ _ Hp Hq) as [c Hc].
  eexists ed, _, m, f. split; [done |]. split; [exact Hc |].
  split; [done |]. split; [done |].
  unfold Backend.sweep1_step, Backend.get_edge, Backend.remove_observation.
  rewrite Hed. simpl. rewrite Hc. simpl.
  destruct (Qgtb c th); simpl; [|done].
  rewrite Hm. simpl. rewrite Hf. reflexivity.
Qed.

(** The first sweep over a sequence of distinct edges. *)
Lemma sweep1_loop (th : Q) (es : list (Z * (loc * loc))) (s : Backend.Sweep) :
  NoDup (es.*1) →
  (∀ x, x ∈ es → edge_ready (Backend.sw_optimizer s) (Backend.sw_heap s) x.1 x.2) →
  ∃ s',
    foldlM (Backend.sweep1_step th) s es = Ok s' ∧
    g2o.vertices (Backend.sw_optimizer s') = g2o.vertices (Backend.sw_optimizer s) ∧
    mappoints (Backend.sw_heap s') = mappoints (Backend.sw_heap s) ∧
    frames_shrink (frames (Backend.sw_heap s)) (frames (Backend.sw_heap s')) ∧
    (∀ e, e ∉ es.*1 →
          g2o.edges (Backend.sw_optimizer s') !! e =
          g2o.edges (Backend.sw_optimizer s) !! e) ∧
    (∀ x, x ∈ es →
       ∃ ed ec m f',
         g2o.edges (Backend.sw_optimizer s) !! x.1 = Some ed ∧
         g2o.computeError (Backend.sw_optimizer s) ed = Ok ec ∧
         mappoints (Backend.sw_heap s) !! x.2.2 = Some m ∧
         frames (Backend.sw_heap s') !! x.2.1 = Some f' ∧
         g2o.edges (Backend.sw_optimizer s') !! x.1 =
           Some (g2o.setRobustKernel None
                   (if Qgtb (g2o.chi2 ec) th then g2o.setLevel 1 ec else ec)) ∧
         (Qgtb (g2o.chi2 ec) th = true →
          Mappoint.GetId m ∉ Frame.observedMappointIds_ f')).
Proof.
  revert s. induction es as [|x es IH]; intros s Hnd Hall.
  - exists s. repeat split; try done; try apply frames_shrink_refl.
    intros x Hx. by apply elem_of_nil in Hx.
  - rewrite fmap_cons in Hnd. apply NoDup_cons in Hnd as [Hnin Hnd].
    destruct (sweep1_step_ready th s x) as (ed & ec & m & f & Hed & Hec & Hm & Hf & Hstep).
    { apply Hall. by left. }
    rewrite foldlM_cons, Hstep. simpl.
    set (s1 := Backend.mkSweep _ _ _) in *.
    assert (Hv1 : g2o.vertices (Backend.sw_optimizer s1) =
                  g2o.vertices (Backend.sw_optimizer s)) by done.
    assert (Hm1 : mappoints (Backend.sw_heap s1) = mappoints (Backend.sw_heap s)).
    { subst s1. simpl. by destruct (Qgtb (g2o.chi2 ec) th). }
    assert (Hf1 : frames_shrink (frames (Backend.sw_heap s)) (frames (Backend.sw_heap s1))).
    { subst s1. simpl. destruct (Qgtb (g2o.chi2 ec) th); simpl.
      - by apply frames_shrink_remove.
      - apply frames_shrink_refl. }
    assert (He1 : ∀ e, e ≠ x.1 →
              g2o.edges (Backend.sw_optimizer s1) !! e =
              g2o.edges (Backend.sw_optimizer s) !! e).
    { intros e Hne. subst s1. simpl. by rewrite lookup_insert_ne. }
    destruct (IH s1 Hnd) as (s' & Hs' & Hv' & Hm' & Hf' & Hout & Hin).
    { intros y Hy.
      apply (edge_ready_heap _ (Backend.sw_heap s)); [done | |].
      { rewrite Hm1. apply mappoints_marked_refl. }
      apply (edge_ready_vertices (Backend.sw_optimizer s)); [done | |].
      - apply He1. intros E. apply Hnin. rewrite <- E. by apply list_elem_of_fmap_2.
      - apply Hall. by right. }
    exists s'. split; [done |]. split; [congruence |]. split; [congruence |].
    split; [by apply (frames_shrink_trans _ (frames (Backend.sw_heap s1))) |]. split.
    + intros e He. apply not_elem_of_cons in He as [Hne He].
      rewrite (Hout e He). by apply He1.
    + intros y [-> | Hy]%elem_of_cons.
      * destruct (Hf' x.2.1 (match Qgtb (g2o.chi2 ec) th with
                             | true => Frame.RemoveObservedMappoint (Mappoint.GetId m) f
                             | false => f
                             end)) as (f' & Hf'x & Hsub).
        { subst s1. simpl. destruct (Qgtb (g2o.chi2 ec) th); simpl; [|done].
          apply lookup_insert_eq. }
        exists ed, ec, m, f'. repeat split; try done.
        -- rewrite (Hout _ Hnin). subst s1. simpl. apply lookup_insert_eq.
        -- intros Hgt. rewrite Hgt in Hsub. simpl in Hsub.
           intros Hel. apply Hsub in Hel. apply elem_of_difference in Hel as [_ Hel].
           apply Hel. by apply elem_of_singleton.
      * destruct (Hin y Hy) as (ed' & ec' & m' & f' & Hed' & Hec' & Hmy & Hfy & Hedy & Hgt).
        exists ed', ec', m', f'.
        assert (Hne : y.1 ≠ x.1).
        { intros E. apply Hnin. rewrite <- E. by apply list_elem_of_fmap_2. }
        rewrite (He1 _ Hne) in Hed'. rewrite Hm1 in Hmy.
        rewrite (computeError_vertices _ _ _ Hv1) in Hec'.
        repeat split; done.
Qed.

Lemma is_pose_optimize (n : nat) (o : g2o.SparseOptimizer) (v : Z) :
  is_pose (g2o.optimize n o) v = is_pose o v.
Proof.
  unfold is_pose, g2o.optimize. simpl. rewrite map_lookup_imap.
  destruct (g2o.vertices o !! v) as [[e [|] | e m]|]; reflexivity.
Qed.

Lemma is_point_optimize (n : nat) (o : g2o.SparseOptimizer) (v : Z) :
  is_point (g2o.optimize n o) v = is_point o v.
Proof.
  unfold is_point, g2o.optimize. simpl. rewrite map_lookup_imap.
  destruct (g2o.vertices o !! v) as [[e [|] | e m]|]; reflexivity.
Qed.

Lemma edge_ready_optimize (n : nat) (o : g2o.SparseOptimizer) (h : Heap) (e : Z)
    (x : loc * loc) :
  edge_ready o h e x → edge_ready (g2o.optimize n o) h e x.
Proof.
  unfold edge_ready. simpl. intros [He Hx]. split; [|done].
  destruct (g2o.edges o !! e) as [ed|]; [|done].
  by rewrite is_pose_optimize, is_point_optimize.
Qed.

Lemma computeError_level (o : g2o.SparseOptimizer) (ed ec : g2o.Edge) :
  g2o.computeError o ed = Ok ec →
  g2o.level ec = g2o.level ed ∧ g2o.robustKernel ec = g2o.robustKernel ed ∧
  g2o.computeError o ec = Ok ec.
Proof.
  unfold g2o.computeError.
  destruct (g2o.vertices o !! g2o.vertex0 ed) as [[T fx | ? ?]|] eqn:E0; try done.
  destruct (g2o.vertices o !! g2o.vertex1 ed) as [[? ? | P mg]|] eqn:E1; try done.
  intros [= <-]. simpl. by rewrite E0, E1.
Qed.

(** C5, as stated, fails: edge 2 is excluded by the first sweep (its
    level becomes 1) and its robust kernel, set before, is cleared all the
    same. *)
Lemma C5_kernel_cleared_on_excluded_edge :
  ∃ s1 ed ed',
    @Backend.pass1 Scene.solver (Backend.chi2Threshold_ Scene.ba_backend)
      (map_to_list (Backend.edgeToKfThenMpt_ Scene.ba_backend))
      (Backend.optimizer_ Scene.ba_backend) Scene.ba_heap = Ok s1 ∧
    g2o.edges (Backend.optimizer_ Scene.ba_backend) !! 2 = Some ed ∧
    g2o.robustKernel ed = Some (g2o.RobustKernelHuber (2795532 # 1000000)%Q) ∧
    g2o.edges (Backend.sw_optimizer s1) !! 2 = Some ed' ∧
    g2o.level ed' = 1 ∧
    g2o.robustKernel ed' = None.
Proof.
  eexists _, _, _. split; [vm_compute; reflexivity |].
  split; [vm_compute; reflexivity |]. split; [reflexivity |].
  split; [vm_compute; reflexivity |]. split; reflexivity.
Qed.

(** C5, amended: the first sweep, run after the first 10 iterations,
    visits every edge. If the squared error of the edge exceeds
    [chi2Threshold_], the mappoint is removed from the observations of the
    keyframe and the level of the edge becomes 1; otherwise the level is
    unchanged. The robust kernel is cleared on every edge, excluded or
    not. *)
Theorem C5_first_sweep (b : Backend.t) (h : Heap)
    (Hready : map_Forall (edge_ready (Backend.optimizer_ b) h)
                (Backend.edgeToKfThenMpt_ b)) :
  ∃ s1,
    Backend.pass1 (Backend.chi2Threshold_ b)
      (map_to_list (Backend.edgeToKfThenMpt_ b)) (Backend.optimizer_ b) h = Ok s1 ∧
    ∀ e kf mpt, Backend.edgeToKfThenMpt_ b !! e = Some (kf, mpt) →
      ∃ ed ec ed' m f',
        g2o.edges (Backend.optimizer_ b) !! e = Some ed ∧
        g2o.computeError (g2o.optimize 10 (Backend.optimizer_ b)) ed = Ok ec ∧
        g2o.edges (Backend.sw_optimizer s1) !! e = Some ed' ∧
        mappoints h !! mpt = Some m ∧
        frames (Backend.sw_heap s1) !! kf = Some f' ∧
        g2o.robustKernel ed' = None ∧
        g2o.chi2 ed' = g2o.chi2 ec ∧
        (Qgtb (g2o.chi2 ec) (Backend.chi2Threshold_ b) = true →
         g2o.level ed' = 1 ∧ Mappoint.GetId m ∉ Frame.observedMappointIds_ f') ∧
        (Qgtb (g2o.chi2 ec) (Backend.chi2Threshold_ b) = false →
         g2o.level ed' = g2o.level ed).
Proof.
  unfold Backend.pass1.
  destruct (sweep1_loop (Backend.chi2Threshold_ b)
              (map_to_list (Backend.edgeToKfThenMpt_ b))
              (Backend.mkSweep (g2o.optimize 10 (Backend.optimizer_ b)) h 0))
    as (s1 & Hs1 & _ & _ & _ & _ & Hin).
  - apply NoDup_fst_map_to_list.
  - intros [e x] Hx. apply elem_of_map_to_list in Hx. simpl.
    apply edge_ready_optimize. exact (Hready e x Hx).
  - exists s1. split; [done |]. intros e kf mpt Hk.
    destruct (Hin (e, (kf, mpt))) as (ed & ec & m & f' & Hed & Hec & Hm & Hf' & Hed' & Hgt).
    { by apply elem_of_map_to_list. }
    simpl in *. destruct (computeError_level _ _ _ Hec) as (Hl & _ & _).
    exists ed, ec,
      (g2o.setRobustKernel None
         (if Qgtb (g2o.chi2 ec) (Backend.chi2Threshold_ b)
          then g2o.setLevel 1 ec else ec)), m, f'.
    do 6 (split; [done |]). split; [|split].
    + by destruct (Qgtb (g2o.chi2 ec) (Backend.chi2Threshold_ b)).
    + intros Hg. split; [by rewrite Hg | by apply Hgt].
    + intros Hg. by rewrite Hg.
Qed.

(** One turn of the second sweep. *)
Lemma sweep2_step_ready (th : Q) (s : Backend.Sweep) (x : Z * (loc * loc)) :
  edge_ready (Backend.sw_optimizer s) (Backend.sw_heap s) x.1 x.2 →
  ∃ ed ec m f,
    g2o.edges (Backend.sw_optimizer s) !! x.1 = Some ed ∧
    g2o.computeError (Backend.sw_optimizer s) ed = Ok ec ∧
    mappoints (Backend.sw_heap s) !! x.2.2 = Some m ∧
    frames (Backend.sw_heap s) !! x.2.1 = Some f ∧
    Backend.sweep2_step th s x =
      Ok (Backend.mkSweep
            (g2o.addEdge x.1 ec (Backend.sw_optimizer s))
            (mkHeap
               (if bool_decide (g2o.level ec = 0) && Qgtb (g2o.chi2 ec) th
                then <[x.2.1 := Frame.RemoveObservedMappoint (Mappoint.GetId m) f]>
                       (frames (Backend.sw_heap s))
                else frames (Backend.sw_heap s))
               (<[x.2.2 := Mappoint.set_optimized m]> (mappoints (Backend.sw_heap s))))
            (if bool_decide (g2o.level ec = 0) && Qgtb (g2o.chi2 ec) th
             then Backend.outlierCnt s + 1 else Backend.outlierCnt s)).
Proof.
  intros (He & [f Hf] & [m Hm]).
  destruct (g2o.edges (Backend.sw_optimizer s) !! x.1) as [ed|] eqn:Hed; [|done].
  destruct He as [Hp Hq]. destruct (computeError_ready _ _ Hp Hq) as [c Hc].
  eexists ed, _, m, f. split; [done |]. split; [exact Hc |].
  split; [done |]. split; [done |].
  unfold Backend.sweep2_step, Backend.get_edge, Backend.remove_observation.
  rewrite Hed. simpl. rewrite Hc. simpl.
  destruct (bool_decide (g2o.level ed = 0) && Qgtb c th); simpl.
  - rewrite Hm. simpl. rewrite Hf. simpl. rewrite Hm. reflexivity.
  - rewrite Hm. reflexivity.
Qed.

(** The second sweep over a sequence of distinct edges. *)
Lemma sweep2_loop (th : Q) (es : list (Z * (loc * loc))) (s : Backend.Sweep) :
  NoDup (es.*1) →
  (∀ x, x ∈ es → edge_ready (Backend.sw_optimizer s) (Backend.sw_heap s) x.1 x.2) →
  ∃ s',
    foldlM (Backend.sweep2_step th) s es = Ok s' ∧
    g2o.vertices (Backend.sw_optimizer s') = g2o.vertices (Backend.sw_optimizer s) ∧
    mappoints_marked (mappoints (Backend.sw_heap s)) (mappoints (Backend.sw_heap s')) ∧
    frames_shrink (frames (Backend.sw_heap s)) (frames (Backend.sw_heap s')) ∧
    (∀ e, e ∉ es.*1 →
          g2o.edges (Backend.sw_optimizer s') !! e =
          g2o.edges (Backend.sw_optimizer s) !! e) ∧
    (∀ x, x ∈ es →
       ∃ ed ec m' f',
         g2o.edges (Backend.sw_optimizer s) !! x.1 = Some ed ∧
         g2o.computeError (Backend.sw_optimizer s) ed = Ok ec ∧
         g2o.edges (Backend.sw_optimizer s') !! x.1 = Some ec ∧
         mappoints (Backend.sw_heap s') !! x.2.2 = Some m' ∧
         Mappoint.optimized_ m' = true ∧
         frames (Backend.sw_heap s') !! x.2.1 = Some f' ∧
         (g2o.level ec = 0 → Qgtb (g2o.chi2 ec) th = true →
          Mappoint.GetId m' ∉ Frame.observedMappointIds_ f')).
Proof.
  revert s. induction es as [|x es IH]; intros s Hnd Hall.
  - exists s. repeat split; try done;
      try apply frames_shrink_refl; try apply mappoints_marked_refl.
    intros x Hx. by apply elem_of_nil in Hx.
  - rewrite fmap_cons in Hnd. apply NoDup_cons in Hnd as [Hnin Hnd].
    destruct (sweep2_step_ready th s x) as (ed & ec & m & f & Hed & Hec & Hm & Hf & Hstep).
    { apply Hall. by left. }
    rewrite foldlM_cons, Hstep. simpl.
    set (cond := bool_decide (g2o.level ec = 0) && Qgtb (g2o.chi2 ec) th) in *.
    set (s1 := Backend.mkSweep _ _ _) in *.
    assert (Hv1 : g2o.vertices (Backend.sw_optimizer s1) =
                  g2o.vertices (Backend.sw_optimizer s)) by done.
    assert (Hm1 : mappoints_marked (mappoints (Backend.sw_heap s))
                    (mappoints (Backend.sw_heap s1))).
    { subst s1. simpl. by apply mappoints_marked_set. }
    assert (Hf1 : frames_shrink (frames (Backend.sw_heap s)) (frames (Backend.sw_heap s1))).
    { subst s1. simpl. destruct cond.
      - by apply frames_shrink_remove.
      - apply frames_shrink_refl. }
    assert (He1 : ∀ e, e ≠ x.1 →
              g2o.edges (Backend.sw_optimizer s1) !! e =
              g2o.edges (Backend.sw_optimizer s) !! e).
    { intros e Hne. subst s1. simpl. by rewrite lookup_insert_ne. }
    destruct (IH s1 Hnd) as (s' & Hs' & Hv' & Hm' & Hf' & Hout & Hin).
    { intros y Hy.
      apply (edge_ready_heap _ (Backend.sw_heap s)); [done | done |].
      apply (edge_ready_vertices (Backend.sw_optimizer s)); [done | |].
      - apply He1. intros E. apply Hnin. rewrite <- E. by apply list_elem_of_fmap_2.
      - apply Hall. by right. }
    exists s'. split; [done |]. split; [congruence |].
    split; [by apply (mappoints_marked_trans _ (mappoints (Backend.sw_heap s1))) |].
    split; [by apply (frames_shrink_trans _ (frames (Backend.sw_heap s1))) |]. split.
    + intros e He. apply not_elem_of_cons in He as [Hne He].
      rewrite (Hout e He). by apply He1.
    + intros y [-> | Hy]%elem_of_cons.
      * destruct (Hf' x.2.1 (if cond
                             then Frame.RemoveObservedMappoint (Mappoint.GetId m) f
                             else f)) as (f' & Hf'x & Hsub).
        { subst s1. simpl. destruct cond; [apply lookup_insert_eq | done]. }
        destruct (Hm' x.2.2 (Mappoint.set_optimized m)) as (m' & Hm'x & Hid & Hopt).
        { subst s1. simpl. apply lookup_insert_eq. }
        exists ed, ec, m', f'. split; [done |]. split; [done |]. split.
        { rewrite (Hout _ Hnin). subst s1. simpl. apply lookup_insert_eq. }
        split; [done |]. split; [by apply Hopt |]. split; [done |].
        intros Hl Hgt. assert (cond = true) as Hcond.
        { subst cond. by rewrite Hgt, bool_decide_eq_true_2. }
        rewrite Hcond in Hsub. simpl in Hsub.
        intros Hel. apply Hsub in Hel. apply elem_of_difference in Hel as [_ Hel].
        apply Hel. apply elem_of_singleton. unfold Mappoint.GetId. by rewrite Hid.
      * destruct (Hin y Hy) as (ed' & ec' & m' & f' & Hed' & Hec' & Hedy & Hmy & Hoy & Hfy & Hgt).
        exists ed', ec', m', f'.
        assert (Hne : y.1 ≠ x.1).
        { intros E. apply Hnin. rewrite <- E. by apply list_elem_of_fmap_2. }
        rewrite (He1 _ Hne) in Hed'.
        rewrite (computeError_vertices _ _ _ Hv1) in Hec'.
        repeat split; done.
Qed.

Lemma is_pose_vertices (o o' : g2o.SparseOptimizer) (v : Z) :
  g2o.vertices o = g2o.vertices o' → is_pose o v = is_pose o' v.
Proof. intros E. unfold is_pose. by rewrite E. Qed.

Lemma is_point_vertices (o o' : g2o.SparseOptimizer) (v : Z) :
  g2o.vertices o = g2o.vertices o' → is_point o v = is_point o' v.
Proof. intros E. unfold is_point. by rewrite E. Qed.

Lemma computeError_ends (o : g2o.SparseOptimizer) (ed ec : g2o.Edge) :
  g2o.computeError o ed = Ok ec →
  g2o.vertex0 ec = g2o.vertex0 ed ∧ g2o.vertex1 ec = g2o.vertex1 ed.
Proof.
  unfold g2o.computeError.
  destruct (g2o.vertices o !! g2o.vertex0 ed) as [[T fx | ? ?]|]; try done.
  destruct (g2o.vertices o !! g2o.vertex1 ed) as [[? ? | P mg]|]; try done.
  by intros [= <-].
Qed.

Lemma Qgtb_false (x y : Q) : Qgtb x y = false → (x <= y)%Q.
Proof.
  unfold Qgtb. intros E. apply negb_false_iff in E. by apply Qle_bool_iff.
Qed.

(** After the first pass the edges are ready for the second. *)
Lemma pass1_ready (b : Backend.t) (h : Heap) :
  map_Forall (edge_ready (Backend.optimizer_ b) h) (Backend.edgeToKfThenMpt_ b) →
  ∃ s1,
    Backend.pass1 (Backend.chi2Threshold_ b)
      (map_to_list (Backend.edgeToKfThenMpt_ b)) (Backend.optimizer_ b) h = Ok s1 ∧
    ∀ x, x ∈ map_to_list (Backend.edgeToKfThenMpt_ b) →
         edge_ready (Backend.sw_optimizer s1) (Backend.sw_heap s1) x.1 x.2.
Proof.
  intros Hready. unfold Backend.pass1.
  destruct (sweep1_loop (Backend.chi2Threshold_ b)
              (map_to_list (Backend.edgeToKfThenMpt_ b))
              (Backend.mkSweep (g2o.optimize 10 (Backend.optimizer_ b)) h 0))
    as (s1 & Hs1 & Hv & Hm & Hf & _ & Hin).
  - apply NoDup_fst_map_to_list.
  - intros [e x] Hx. apply elem_of_map_to_list in Hx. simpl.
    apply edge_ready_optimize. exact (Hready e x Hx).
  - exists s1. split; [done |]. intros [e x] Hx.
    destruct (Hin (e, x) Hx) as (ed & ec & m & f' & Hed & Hec & _ & _ & Hed' & _).
    apply elem_of_map_to_list in Hx. pose proof (Hready e x Hx) as (He & Hfx & Hmx).
    simpl in *. rewrite Hed in He. destruct He as [Hp Hq].
    destruct (computeError_ends _ _ _ Hec) as [E0 E1].
    split; [|split].
    + rewrite Hed'.
      rewrite (is_pose_vertices _ (g2o.optimize 10 (Backend.optimizer_ b))) by done.
      rewrite (is_point_vertices _ (g2o.optimize 10 (Backend.optimizer_ b))) by done.
      rewrite is_pose_optimize, is_point_optimize.
      destruct (Qgtb (g2o.chi2 ec) (Backend.chi2Threshold_ b)); simpl;
        by rewrite E0, E1.
    + destruct Hfx as [f Hfx]. destruct (Hf _ _ Hfx) as (f1 & -> & _). by eexists.
    + by rewrite Hm.
Qed.

(** C6: after the two passes, every edge that is still at level 0 and
    whose mappoint is still registered in its keyframe has a squared error,
    under the final estimates, of at most [chi2Threshold_]; and the mappoint
    of every edge of the round is marked [optimized_]. *)
Theorem C6_two_pass_retained (b : Backend.t) (h : Heap)
    (Hready : map_Forall (edge_ready (Backend.optimizer_ b) h)
                (Backend.edgeToKfThenMpt_ b)) :
  ∃ b' h',
    Backend.two_pass b h = Ok (b', h') ∧
    ∀ e kf mpt, Backend.edgeToKfThenMpt_ b !! e = Some (kf, mpt) →
      ∃ ed f m,
        g2o.edges (Backend.optimizer_ b') !! e = Some ed ∧
        g2o.computeError (Backend.optimizer_ b') ed = Ok ed ∧
        frames h' !! kf = Some f ∧
        mappoints h' !! mpt = Some m ∧
        Mappoint.optimized_ m = true ∧
        (g2o.level ed = 0 →
         Mappoint.GetId m ∈ Frame.observedMappointIds_ f →
         (g2o.chi2 ed <= Backend.chi2Threshold_ b)%Q).
Proof.
  destruct (pass1_ready b h Hready) as (s1 & Hs1 & Hready1).
  unfold Backend.two_pass. rewrite Hs1. simpl. unfold Backend.pass2.
  destruct (sweep2_loop (Backend.chi2Threshold_ b)
              (map_to_list (Backend.edgeToKfThenMpt_ b))
              (Backend.mkSweep (g2o.optimize 10 (Backend.sw_optimizer s1))
                 (Backend.sw_heap s1) (Backend.outlierCnt s1)))
    as (s2 & Hs2 & Hv & _ & _ & _ & Hin).
  - apply NoDup_fst_map_to_list.
  - intros x Hx. simpl. apply edge_ready_optimize. by apply Hready1.
  - rewrite Hs2. simpl. eexists _, _. split; [reflexivity |].
    intros e kf mpt Hk.
    destruct (Hin (e, (kf, mpt))) as (ed & ec & m' & f' & Hed & Hec & Hed' & Hm' & Ho & Hf' & Hgt).
    { by apply elem_of_map_to_list. }
    simpl in *. exists ec, f', m'. split; [done |]. split.
    { rewrite (computeError_vertices _ (g2o.optimize 10 (Backend.sw_optimizer s1)))
        by done.
      by destruct (computeError_level _ _ _ Hec) as (_ & _ & ?). }
    split; [done |]. split; [done |]. split; [done |].
    intros Hl Hobs. apply Qgtb_false.
    destruct (Qgtb (g2o.chi2 ec) (Backend.chi2Threshold_ b)) eqn:E; [|done].
    exfalso. by apply (Hgt Hl).
Qed.

End Sweeps.

(** The edges of [Scene.ba_backend] are ready. *)
Lemma ba_scene_ready :
  map_Forall (edge_ready (Backend.optimizer_ Scene.ba_backend) Scene.ba_heap)
    (Backend.edgeToKfThenMpt_ Scene.ba_backend).
Proof. apply (bool_decide_unpack _); vm_compute; exact I. Defined.

(** [C5_first_sweep] on the graph of [Scene.ba_backend]. *)
Lemma C5_first_sweep_witness :
  ∃ s1,
    @Backend.pass1 Scene.solver (Backend.chi2Threshold_ Scene.ba_backend)
      (map_to_list (Backend.edgeToKfThenMpt_ Scene.ba_backend))
      (Backend.optimizer_ Scene.ba_backend) Scene.ba_heap = Ok s1 ∧
    ∀ e kf mpt, Backend.edgeToKfThenMpt_ Scene.ba_backend !! e = Some (kf, mpt) →
      ∃ ed ec ed' m f',
        g2o.edges (Backend.optimizer_ Scene.ba_backend) !! e = Some ed ∧
        @g2o.computeError Scene.solver
          (@g2o.optimize Scene.solver 10 (Backend.optimizer_ Scene.ba_backend)) ed =
          Ok ec ∧
        g2o.edges (Backend.sw_optimizer s1) !! e = Some ed' ∧
        mappoints Scene.ba_heap !! mpt = Some m ∧
        frames (Backend.sw_heap s1) !! kf = Some f' ∧
        g2o.robustKernel ed' = None ∧
        g2o.chi2 ed' = g2o.chi2 ec ∧
        (Qgtb (g2o.chi2 ec) (Backend.chi2Threshold_ Scene.ba_backend) = true →
         g2o.level ed' = 1 ∧ Mappoint.GetId m ∉ Frame.observedMappointIds_ f') ∧
        (Qgtb (g2o.chi2 ec) (Backend.chi2Threshold_ Scene.ba_backend) = false →
         g2o.level ed' = g2o.level ed).
Proof. apply (@C5_first_sweep Scene.solver). apply ba_scene_ready. Defined.

(** [C6_two_pass_retained] on the graph of [Scene.ba_backend]. *)
Lemma C6_two_pass_retained_witness :
  ∃ b' h',
    @Backend.two_pass Scene.solver Scene.ba_backend Scene.ba_heap = Ok (b', h') ∧
    ∀ e kf mpt, Backend.edgeToKfThenMpt_ Scene.ba_backend !! e = Some (kf, mpt) →
      ∃ ed f m,
        g2o.edges (Backend.optimizer_ b') !! e = Some ed ∧
        @g2o.computeError Scene.solver (Backend.optimizer_ b') ed = Ok ed ∧
        frames h' !! kf = Some f ∧
        mappoints h' !! mpt = Some m ∧
        Mappoint.optimized_ m = true ∧
        (g2o.level ed = 0 →
         Mappoint.GetId m ∈ Frame.observedMappointIds_ f →
         (g2o.chi2 ed <= Backend.chi2Threshold_ Scene.ba_backend)%Q).
Proof. apply (@C6_two_pass_retained Scene.solver). apply ba_scene_ready. Defined.

(** ** The matching of new mappoints in the covisible keyframes *)

Lemma Qgeb_true (x y : Q) : Qgeb x y = true → (y <= x)%Q.
Proof. unfold Qgeb. apply Qle_bool_iff. Qed.

Lemma Qgeb_false (x y : Q) : Qgeb x y = false → (x < y)%Q.
Proof.
  unfold Qgeb. intros E. apply Qnot_le_lt. intros Hle.
  apply Qle_bool_iff in Hle. congruence.
Qed.

Section Offer.
Context `{Countable K} {V : Type}.
Implicit Types (cs : list (K * (V * Q))) (c : K * (V * Q)).

Lemma lookup_snoc_last cs c : (cs ++ [c]) !! length cs = Some c.
Proof. rewrite lookup_app_r by lia. by rewrite Nat.sub_diag. Qed.

Lemma first_smallest_snoc_other cs c (k : K) (v : V) (d : Q) :
  k ≠ c.1 → first_smallest (cs ++ [c]) k v d ↔ first_smallest cs k v d.
Proof.
  intros Hne. split.
  - intros (i & Hi & Hmin). apply lookup_snoc_inv in Hi as [Hi | [-> E]].
    + exists i. split; [done |]. intros j v' d' Hj. apply (Hmin j v' d').
      by apply lookup_app_l_Some.
    + subst c. by destruct Hne.
  - intros (i & Hi & Hmin). exists i. split; [by apply lookup_app_l_Some |].
    intros j v' d' Hj. apply lookup_snoc_inv in Hj as [Hj | [-> E]].
    + by apply (Hmin j v' d').
    + subst c. by destruct Hne.
Qed.

(** What the map holds after a sequence of candidates: for each key the
    first of its candidates of smallest distance, and nothing for a key
    without candidate. *)
Lemma offer_fold cs :
  (∀ k v d, foldl offer (∅ : gmap K (V * Q)) cs !! k = Some (v, d) ↔
            first_smallest cs k v d) ∧
  (∀ k, foldl offer (∅ : gmap K (V * Q)) cs !! k = None →
        ∀ j v d, cs !! j ≠ Some (k, (v, d))).
Proof.
  induction cs as [|[k0 [v0 d0]] cs [IH1 IH2]] using rev_ind.
  - split.
    + intros k v d. simpl. rewrite lookup_empty. split; [done |].
      intros (i & Hi & _). by rewrite lookup_nil in Hi.
    + intros k _ j v d. by rewrite lookup_nil.
  - rewrite foldl_app. simpl. set (M := foldl offer ∅ cs) in *.
    unfold offer at 1 2. unfold Backend.keep_best. simpl.
    destruct (M !! k0) as [[v1 d1]|] eqn:E0.
    + pose proof E0 as Hfs. apply IH1 in Hfs as (i1 & Hi1 & Hmin1).
      pose proof (lookup_lt_Some _ _ _ Hi1) as Hlt1. simpl.
      destruct (Qgeb d0 d1) eqn:Eg.
      * apply Qgeb_true in Eg. split.
        -- intros k v d. rewrite IH1. split.
           ++ intros (i & Hi & Hmin). exists i. split; [by apply lookup_app_l_Some |].
              intros j v' d' Hj. apply lookup_snoc_inv in Hj as [Hj | [-> E]].
              { by apply (Hmin j v' d'). }
              injection E as -> -> ->.
              assert (M !! k0 = Some (v, d)) as Hk.
              { apply IH1. exists i. by split. }
              rewrite E0 in Hk. injection Hk as -> ->.
              apply lookup_lt_Some in Hi. split; [done | lia].
           ++ intros (i & Hi & Hmin). apply lookup_snoc_inv in Hi as [Hi | [-> E]].
              ** exists i. split; [done |]. intros j v' d' Hj. apply (Hmin j v' d').
                 by apply lookup_app_l_Some.
              ** injection E as -> -> ->. exfalso.
                 destruct (Hmin i1 v1 d1) as [_ Hlt]; [by apply lookup_app_l_Some |].
                 specialize (Hlt Hlt1). lra.
        -- intros k Hk j v d Hj. apply lookup_snoc_inv in Hj as [Hj | [-> E]].
           { by apply (IH2 k Hk j v d). }
           injection E as -> -> ->. congruence.
      * apply Qgeb_false in Eg. split.
        -- intros k v d. destruct (decide (k = k0)) as [-> | Hne].
           ++ rewrite lookup_insert_eq. split.
              ** intros [= <- <-]. exists (length cs). split; [apply lookup_snoc_last |].
                 intros j v' d' Hj. apply lookup_snoc_inv in Hj as [Hj | [-> E]].
                 { destruct (Hmin1 j v' d' Hj) as [Hle _]. split; [lra | intros; lra]. }
                 injection E as -> ->. split; [lra | lia].
              ** intros (i & Hi & Hmin). apply lookup_snoc_inv in Hi as [Hi | [-> E]].
                 { exfalso. destruct (Hmin (length cs) v0 d0) as [Hle _];
                     [apply lookup_snoc_last |].
                   destruct (Hmin1 i v d Hi) as [Hle1 _]. lra. }
                 by injection E as -> ->.
           ++ rewrite lookup_insert_ne by done. rewrite IH1.
              symmetry. by apply first_smallest_snoc_other.
        -- intros k Hk j v d Hj. destruct (decide (k = k0)) as [-> | Hne].
           { by rewrite lookup_insert_eq in Hk. }
           rewrite lookup_insert_ne in Hk by done.
           apply lookup_snoc_inv in Hj as [Hj | [-> E]].
           { by apply (IH2 k Hk j v d). }
           injection E as -> -> ->. done.
    + pose proof (IH2 k0 E0) as Hnone. split.
      * intros k v d. destruct (decide (k = k0)) as [-> | Hne].
        -- rewrite lookup_insert_eq. split.
           ++ intros [= <- <-]. exists (length cs). split; [apply lookup_snoc_last |].
              intros j v' d' Hj. apply lookup_snoc_inv in Hj as [Hj | [-> E]].
              { by destruct (Hnone j v' d'). }
              injection E as -> ->. split; [lra | lia].
           ++ intros (i & Hi & Hmin). apply lookup_snoc_inv in Hi as [Hi | [-> E]].
              { by destruct (Hnone i v d). }
              by injection E as -> ->.
        -- rewrite lookup_insert_ne by done. rewrite IH1.
           symmetry. by apply first_smallest_snoc_other.
      * intros k Hk j v d Hj. destruct (decide (k = k0)) as [-> | Hne].
        { by rewrite lookup_insert_eq in Hk. }
        rewrite lookup_insert_ne in Hk by done.
        apply lookup_snoc_inv in Hj as [Hj | [-> E]].
        { by apply (IH2 k Hk j v d). }
        injection E as -> -> ->. done.
Qed.

End Offer.

Section Matching.
Context `{FrameOps}.

Lemma match_one_offer (th : Q) (h : Heap) (kf mpt : loc) (f : Frame.t)
    (m : Mappoint.t) (st : Backend.Matching) :
  frames h !! kf = Some f → mappoints h !! mpt = Some m →
  Backend.match_one th f mpt m st =
    Backend.mkMatching
      (foldl offer (Backend.oldMptIdToNewMptIdAndDistance st) (old_candidate th h kf mpt))
      (foldl offer (Backend.kptIdxToMptAndDistance st) (kpt_candidate th h kf mpt))
      (Backend.observationsToAdd st).
Proof.
  intros Hf Hm.
  unfold Backend.match_one, old_candidate, kpt_candidate, accepted_match.
  rewrite Hf, Hm. destruct st as [old kpt obs]. simpl.
  destruct (GetMatchedKeypoint f m) as [[[k d] mo]|]; [|done].
  destruct (Qgtb d th); [done |].
  by destruct (IsKeypointMatchWithMappoint f k).
Qed.

Lemma match_step_live (th : Q) (h : Heap) (kf mpt : loc) (f : Frame.t)
    (m : Mappoint.t) (st : Backend.Matching) :
  frames h !! kf = Some f → mappoints h !! mpt = Some m →
  Backend.match_step th h kf st mpt = Ok (Backend.match_one th f mpt m st).
Proof.
  intros Hf Hm. unfold Backend.match_step.
  by rewrite (deref_live _ _ _ Hf), (deref_live _ _ _ Hm).
Qed.

(** The loop over the new mappoints, for one keyframe. *)
Lemma match_inner (th : Q) (h : Heap) (kf : loc) (mpts : list loc)
    (st : Backend.Matching) :
  is_Some (frames h !! kf) →
  Forall (λ mpt, is_Some (mappoints h !! mpt)) mpts →
  foldlM (Backend.match_step th h kf) st mpts =
    Ok (Backend.mkMatching
          (foldl offer (Backend.oldMptIdToNewMptIdAndDistance st)
             (mpts ≫= old_candidate th h kf))
          (foldl offer (Backend.kptIdxToMptAndDistance st)
             (kpt_candidates th h kf mpts))
          (Backend.observationsToAdd st)).
Proof.
  intros [f Hf] Hall. revert st.
  induction Hall as [|mpt mpts [m Hm] Hall IH]; intros st.
  - by destruct st.
  - unfold kpt_candidates in *. rewrite !bind_cons, !foldl_app.
    rewrite foldlM_cons, (match_step_live th h kf mpt f m st Hf Hm), bind_ret.
    by rewrite (match_one_offer th h kf mpt f m st Hf Hm), IH.
Qed.

Lemma match_keyframe_live (th : Q) (h : Heap) (kf : loc) (mpts : list loc)
    (st : Backend.Matching) :
  is_Some (frames h !! kf) →
  Forall (λ mpt, is_Some (mappoints h !! mpt)) mpts →
  Backend.match_keyframe th h mpts st kf =
    Ok (Backend.mkMatching
          (foldl offer (Backend.oldMptIdToNewMptIdAndDistance st)
             (mpts ≫= old_candidate th h kf))
          (foldl offer ∅ (kpt_candidates th h kf mpts))
          (Backend.observationsToAdd st ++
           Backend.record_observations kf
             (foldl offer ∅ (kpt_candidates th h kf mpts)))).
Proof.
  intros Hkf Hmpts. unfold Backend.match_keyframe.
  by rewrite (match_inner th h kf mpts _ Hkf Hmpts).
Qed.

(** The loop over the covisible keyframes. *)
Lemma match_outer (th : Q) (h : Heap) (kfs mpts : list loc) (st : Backend.Matching) :
  Forall (λ kf, is_Some (frames h !! kf)) kfs →
  Forall (λ mpt, is_Some (mappoints h !! mpt)) mpts →
  ∃ st',
    foldlM (Backend.match_keyframe th h mpts) st kfs = Ok st' ∧
    Backend.oldMptIdToNewMptIdAndDistance st' =
      foldl offer (Backend.oldMptIdToNewMptIdAndDistance st)
        (old_candidates th h kfs mpts) ∧
    Backend.observationsToAdd st' =
      Backend.observationsToAdd st ++
      (kfs ≫= λ kf, Backend.record_observations kf
                      (foldl offer ∅ (kpt_candidates th h kf mpts))).
Proof.
  intros Hkfs Hmpts. revert st.
  induction Hkfs as [|kf kfs Hkf Hkfs IH]; intros st.
  - exists st. split; [done |]. split; [done |]. simpl. by rewrite app_nil_r.
  - rewrite foldlM_cons, (match_keyframe_live th h kf mpts st Hkf Hmpts), bind_ret.
    destruct (IH (Backend.mkMatching
                    (foldl offer (Backend.oldMptIdToNewMptIdAndDistance st)
                       (mpts ≫= old_candidate th h kf))
                    (foldl offer ∅ (kpt_candidates th h kf mpts))
                    (Backend.observationsToAdd st ++
                     Backend.record_observations kf
                       (foldl offer ∅ (kpt_candidates th h kf mpts)))))
      as (st' & Hst' & Hold & Hobs).
    exists st'. split; [done |]. split.
    + rewrite Hold. unfold old_candidates. by rewrite bind_cons, foldl_app.
    + rewrite Hobs. cbn [Backend.observationsToAdd].
      by rewrite bind_cons, <- app_assoc.
Qed.

(** C7: the replacement recorded for an old mappoint is, of all the
    candidates met for it over all the covisible keyframes and all the new
    mappoints, the first one of smallest distance; the observation recorded
    for a keyframe at a keypoint without mappoint is, of the candidates met
    for that keypoint in that keyframe, the first one of smallest distance.
    A later candidate at an equal distance never replaces an earlier one. *)
Theorem C7_first_smallest_candidate_kept (th : Q) (h : Heap) (kfs mpts : list loc)
    (Hkfs : Forall (λ kf, is_Some (frames h !! kf)) kfs)
    (Hmpts : Forall (λ mpt, is_Some (mappoints h !! mpt)) mpts) :
  ∃ st,
    Backend.match_new_mappoints th h kfs mpts = Ok st ∧
    (∀ oldMptId newMptId d,
       Backend.oldMptIdToNewMptIdAndDistance st !! oldMptId = Some (newMptId, d) ↔
       first_smallest (old_candidates th h kfs mpts) oldMptId newMptId d) ∧
    (∀ kf mpt kptIdx,
       (kf, mpt, kptIdx) ∈ Backend.observationsToAdd st ↔
       kf ∈ kfs ∧ ∃ d, first_smallest (kpt_candidates th h kf mpts) kptIdx mpt d).
Proof.
  destruct (match_outer th h kfs mpts (Backend.mkMatching ∅ ∅ []) Hkfs Hmpts)
    as (st & Hst & Hold & Hobs).
  exists st. split; [exact Hst |]. split.
  - intros o n d. rewrite Hold. simpl. apply offer_fold.
  - intros kf mpt k. rewrite Hobs. simpl. rewrite list_elem_of_bind. split.
    + intros (kf' & Hin & Hkf').
      unfold Backend.record_observations in Hin.
      apply list_elem_of_fmap in Hin as ([k' [mpt' d]] & E & Hin). simpl in E.
      injection E as -> -> ->. apply elem_of_map_to_list in Hin.
      split; [done |]. exists d. by apply offer_fold.
    + intros (Hkf & d & Hfs). exists kf. split; [|done].
      unfold Backend.record_observations. apply list_elem_of_fmap.
      exists (k, (mpt, d)). split; [done |]. apply elem_of_map_to_list.
      by apply offer_fold.
Qed.

End Matching.

(** The matching on two keyframes and five new mappoints: of the two
    candidates at distance 5 for the old mappoint 0 the first met, mappoint
    1000, is recorded, also after the second keyframe offered both again;
    keypoint 3 of each keyframe gets the mappoint at distance 6. *)
Example matching_run :
  ∃ st,
    @Backend.match_new_mappoints Scene.frame_ops 50%Q Scene.fuse_heap
      Scene.fuse_kfs Scene.fuse_mpts = Ok st ∧
    map_to_list (Backend.oldMptIdToNewMptIdAndDistance st) = [(0, (1000, 5%Q))] ∧
    Backend.observationsToAdd st =
      [(2%positive, 23%positive, 3); (3%positive, 23%positive, 3)].
Proof. eexists. split; [vm_compute; reflexivity |]. split; vm_compute; reflexivity. Qed.

(** [C7_first_smallest_candidate_kept] on the two keyframes and five
    mappoints of [Scene.fuse_heap]. *)
Lemma C7_first_smallest_candidate_kept_witness :
  ∃ st,
    @Backend.match_new_mappoints Scene.frame_ops 50%Q Scene.fuse_heap
      Scene.fuse_kfs Scene.fuse_mpts = Ok st ∧
    (∀ oldMptId newMptId d,
       Backend.oldMptIdToNewMptIdAndDistance st !! oldMptId = Some (newMptId, d) ↔
       first_smallest
         (@old_candidates Scene.frame_ops 50%Q Scene.fuse_heap Scene.fuse_kfs
            Scene.fuse_mpts) oldMptId newMptId d) ∧
    (∀ kf mpt kptIdx,
       (kf, mpt, kptIdx) ∈ Backend.observationsToAdd st ↔
       kf ∈ Scene.fuse_kfs ∧
       ∃ d, first_smallest
              (@kpt_candidates Scene.frame_ops 50%Q Scene.fuse_heap kf Scene.fuse_mpts)
              kptIdx mpt d).
Proof.
  apply (@C7_first_smallest_candidate_kept Scene.frame_ops).
  - apply (bool_decide_unpack _); vm_compute; exact I.
  - apply (bool_decide_unpack _); vm_compute; exact I.
Defined.

(** ** The graph [build_graph] hands to the two passes *)

Lemma foldlM_invariant {S A : Type} (f : S → A → result S) (P : S → Prop)
    (l : list A) :
  (∀ s a s', a ∈ l → P s → f s a = Ok s' → P s') →
  ∀ s s', P s → foldlM f s l = Ok s' → P s'.
Proof.
  induction l as [|a l IH]; intros Hstep s s' Hs Hrun.
  - by injection Hrun as <-.
  - rewrite foldlM_cons in Hrun. apply bind_Ok in Hrun as (s1 & H1 & Hrun).
    apply (IH (λ s0 a0 s0' Hin, Hstep s0 a0 s0' (list_elem_of_further _ _ _ Hin)) s1);
      [|done].
    apply (Hstep s a); [by left | done | done].
Qed.

Lemma is_pose_addVertex (o : g2o.SparseOptimizer) (v v' : Z) (x : g2o.Vertex) :
  g2o.vertices o !! v = None → is_pose o v' = true →
  is_pose (g2o.addVertex v x o) v' = true.
Proof.
  unfold is_pose. simpl. intros Hv Hp. destruct (decide (v = v')) as [<- | Hne].
  - by rewrite Hv in Hp.
  - by rewrite lookup_insert_ne.
Qed.

Lemma is_point_addVertex (o : g2o.SparseOptimizer) (v v' : Z) (x : g2o.Vertex) :
  g2o.vertices o !! v = None → is_point o v' = true →
  is_point (g2o.addVertex v x o) v' = true.
Proof.
  unfold is_point. simpl. intros Hv Hp. destruct (decide (v = v')) as [<- | Hne].
  - by rewrite Hv in Hp.
  - by rewrite lookup_insert_ne.
Qed.

Lemma edge_ready_addVertex (o : g2o.SparseOptimizer) (h : Heap) (v e : Z)
    (x : g2o.Vertex) (y : loc * loc) :
  g2o.vertices o !! v = None → edge_ready o h e y →
  edge_ready (g2o.addVertex v x o) h e y.
Proof.
  intros Hv [He Hy]. split; [|done]. simpl.
  destruct (g2o.edges o !! e) as [ed|]; [|done]. destruct He as [Hp Hq].
  split; [by apply is_pose_addVertex | by apply is_point_addVertex].
Qed.

Lemma graph_ok_fresh (h : Heap) (b : Backend.t) (vi : Z) :
  graph_ok h b vi → g2o.vertices (Backend.optimizer_ b) !! (vi + 1) = None.
Proof.
  intros [Hv _ _ _]. destruct (g2o.vertices (Backend.optimizer_ b) !! (vi + 1)) eqn:E;
    [|done].
  apply Hv in E. lia.
Qed.

(** Adding a vertex under the next id, with new entries for it. *)
Lemma graph_ok_addVertex (h : Heap) (b : Backend.t) (vi : Z) (x : g2o.Vertex)
    (cov mpts fixed : gmap Z (loc * Z)) :
  graph_ok h b vi →
  (∀ id y, cov !! id = Some y →
     Backend.kfIdToCovKfThenVertex_ b !! id = Some y ∨
     (is_Some (frames h !! y.1) ∧ y.2 = vi + 1 ∧ ∃ e fx, x = g2o.VertexPose e fx)) →
  (∀ id y, mpts !! id = Some y →
     Backend.mptIdToMptThenVertex_ b !! id = Some y ∨
     (is_Some (mappoints h !! y.1) ∧ y.2 = vi + 1 ∧ ∃ e mg, x = g2o.VertexMappoint e mg)) →
  graph_ok h
    (Backend.set_graph b cov mpts fixed (Backend.edgeToKfThenMpt_ b)
       (g2o.addVertex (vi + 1) x (Backend.optimizer_ b)))
    (vi + 1).
Proof.
  intros Hok Hcov Hmpts. pose proof (graph_ok_fresh h b vi Hok) as Hfresh.
  destruct Hok as [Hv Hc Hm He]. split; simpl.
  - intros v y Hy. destruct (decide (vi + 1 = v)) as [<- | Hne]; [lia |].
    rewrite lookup_insert_ne in Hy by done. apply Hv in Hy. lia.
  - intros id y Hy. destruct (Hcov id y Hy) as [Hold | (Hl & Hy2 & e & fx & ->)].
    + destruct (Hc id y Hold) as [Hl Hp]. split; [done |].
      by apply is_pose_addVertex.
    + split; [done |]. unfold is_pose. simpl. by rewrite Hy2, lookup_insert_eq.
  - intros id y Hy. destruct (Hmpts id y Hy) as [Hold | (Hl & Hy2 & e & mg & ->)].
    + destruct (Hm id y Hold) as [Hl Hp]. split; [done |].
      by apply is_point_addVertex.
    + split; [done |]. unfold is_point. simpl. by rewrite Hy2, lookup_insert_eq.
  - intros e y Hy. apply edge_ready_addVertex; [done |]. by apply (He e y).
Qed.

Lemma graph_ok_addEdge (h : Heap) (b : Backend.t) (vi e : Z) (ed : g2o.Edge)
    (kf mpt : loc) :
  graph_ok h b vi →
  is_pose (Backend.optimizer_ b) (g2o.vertex0 ed) = true →
  is_point (Backend.optimizer_ b) (g2o.vertex1 ed) = true →
  is_Some (frames h !! kf) → is_Some (mappoints h !! mpt) →
  graph_ok h
    (Backend.set_graph b (Backend.kfIdToCovKfThenVertex_ b)
       (Backend.mptIdToMptThenVertex_ b) (Backend.kfIdToFixedKfThenVertex_ b)
       (<[e := (kf, mpt)]> (Backend.edgeToKfThenMpt_ b))
       (g2o.addEdge e ed (Backend.optimizer_ b)))
    vi.
Proof.
  intros [Hv Hc Hm He] Hp Hq Hkf Hmpt. split; simpl; try done.
  intros e' y Hy. destruct (decide (e = e')) as [<- | Hne].
  - rewrite lookup_insert_eq in Hy. injection Hy as <-.
    unfold edge_ready. simpl. by rewrite lookup_insert_eq.
  - rewrite lookup_insert_ne in Hy by done.
    destruct (He e' y Hy) as [He' Hy']. split; [|done]. simpl.
    by rewrite lookup_insert_ne.
Qed.

Lemma add_mappoint_vertex_ok (mm : MapManager.t) (h : Heap) (acc acc' : Backend.t * Z)
    (mptId : Z) :
  graph_ok h acc.1 acc.2 →
  Backend.add_mappoint_vertex mm h acc mptId = Ok acc' →
  graph_ok h acc'.1 acc'.2.
Proof.
  intros Hok. unfold Backend.add_mappoint_vertex.
  destruct (Backend.mptIdToMptThenVertex_ acc.1 !! mptId) eqn:E; [by intros [= <-] |].
  destruct (MapManager.GetMappoint mm mptId) as [mpt|]; [|by intros [= <-]].
  intros Hrun. apply bind_Ok in Hrun as (m & Hm & Hrun).
  apply deref_Ok in Hm as (l & [= <-] & Hm).
  destruct (Mappoint.outlier_ m); [by injection Hrun as <- |].
  injection Hrun as <-. simpl. apply graph_ok_addVertex; [done | by left |].
  intros id y Hy. destruct (decide (mptId = id)) as [<- | Hne].
  - rewrite lookup_insert_eq in Hy. injection Hy as <-. right. simpl.
    split; [by eexists |]. split; [done |]. by eexists _, _.
  - rewrite lookup_insert_ne in Hy by done. by left.
Qed.

Lemma add_keyframe_vertices_ok (mm : MapManager.t) (h : Heap)
    (acc acc' : Backend.t * Z) (kfId : Z) :
  graph_ok h acc.1 acc.2 →
  Backend.add_keyframe_vertices mm h acc kfId = Ok acc' →
  graph_ok h acc'.1 acc'.2.
Proof.
  intros Hok. unfold Backend.add_keyframe_vertices.
  destruct (MapManager.GetKeyframe mm kfId) as [kf|]; [|by intros [= <-]].
  intros Hrun. apply bind_Ok in Hrun as (f & Hf & Hrun).
  apply deref_Ok in Hf as (l & [= <-] & Hf).
  revert Hrun. apply (foldlM_invariant _ (λ s, graph_ok h s.1 s.2)).
  - intros s a s' _. apply add_mappoint_vertex_ok.
  - simpl. apply graph_ok_addVertex; [done | | by left].
    intros id y Hy. destruct (decide (kfId = id)) as [<- | Hne].
    + rewrite lookup_insert_eq in Hy. injection Hy as <-. right. simpl.
      split; [by eexists |]. split; [done |]. by eexists _, _.
    + rewrite lookup_insert_ne in Hy by done. by left.
Qed.

Section Graph.
Context `{FrameOps} `{g2o.Solver}.

Lemma add_edge_ok (mm : MapManager.t) (h : Heap) (mpt : loc) (mptVertex : Z)
    (acc acc' : Backend.t * Z * Z) (obs : Z * Z) :
  graph_ok h acc.1.1 acc.1.2 →
  is_Some (mappoints h !! mpt) →
  is_point (Backend.optimizer_ acc.1.1) mptVertex = true →
  Backend.add_edge mm h mpt mptVertex acc obs = Ok acc' →
  graph_ok h acc'.1.1 acc'.1.2 ∧
  Backend.mptIdToMptThenVertex_ acc'.1.1 = Backend.mptIdToMptThenVertex_ acc.1.1.
Proof.
  intros Hok Hmpt Hq. unfold Backend.add_edge.
  intros Hrun. apply bind_Ok in Hrun as (f & Hf & Hrun).
  apply deref_Ok in Hf as (kf & Hk & Hf). rewrite Hk in Hrun.
  apply bind_Ok in Hrun as (kpt & _ & Hrun).
  destruct (Backend.kfIdToCovKfThenVertex_ acc.1.1 !! obs.1) as [kv|] eqn:Ecov;
    injection Hrun as <-; simpl.
  - split; [|done]. apply graph_ok_addEdge; [done | | done | by eexists | done].
    simpl. by destruct (ok_cov _ _ _ Hok _ _ Ecov).
  - split; [|done].
    pose proof (graph_ok_fresh _ _ _ Hok) as Hfresh.
    refine (graph_ok_addEdge h
              (Backend.set_graph acc.1.1 (Backend.kfIdToCovKfThenVertex_ acc.1.1)
                 (Backend.mptIdToMptThenVertex_ acc.1.1)
                 (<[obs.1 := (kf, acc.1.2 + 1)]> (Backend.kfIdToFixedKfThenVertex_ acc.1.1))
                 (Backend.edgeToKfThenMpt_ acc.1.1)
                 (g2o.addVertex (acc.1.2 + 1) (g2o.VertexPose (Frame.GetTcw f) true)
                    (Backend.optimizer_ acc.1.1)))
              (acc.1.2 + 1) (acc.2 + 1)
              (g2o.mkEdge (acc.1.2 + 1) mptVertex (Frame.pt kpt) 0
                 (Some (g2o.RobustKernelHuber g2o.deltaRGBD)) 0%Q)
              kf mpt _ _ _ _ _).
    + apply graph_ok_addVertex; [done | by left | by left].
    + simpl. unfold is_pose. simpl. by rewrite lookup_insert_eq.
    + simpl. by apply is_point_addVertex.
    + by eexists.
    + done.
Qed.

Lemma add_mappoint_edges_ok (mm : MapManager.t) (h : Heap)
    (acc acc' : Backend.t * Z * Z) (x : Z * (loc * Z)) :
  graph_ok h acc.1.1 acc.1.2 →
  Backend.mptIdToMptThenVertex_ acc.1.1 !! x.1 = Some x.2 →
  Backend.add_mappoint_edges mm h acc x = Ok acc' →
  graph_ok h acc'.1.1 acc'.1.2 ∧
  Backend.mptIdToMptThenVertex_ acc'.1.1 = Backend.mptIdToMptThenVertex_ acc.1.1.
Proof.
  intros Hok Hx. unfold Backend.add_mappoint_edges.
  intros Hrun. apply bind_Ok in Hrun as (m & Hm & Hrun).
  apply deref_Ok in Hm as (l & [= <-] & Hm).
  revert Hrun.
  apply (foldlM_invariant _
           (λ s, graph_ok h s.1.1 s.1.2 ∧
                 Backend.mptIdToMptThenVertex_ s.1.1 =
                 Backend.mptIdToMptThenVertex_ acc.1.1)); [|by split].
  intros s a s' _ [Hs Hsame] Hstep.
  assert (Hq : is_point (Backend.optimizer_ s.1.1) x.2.2 = true).
  { rewrite <- Hsame in Hx. by destruct (ok_mpt _ _ _ Hs _ _ Hx). }
  destruct (add_edge_ok mm h x.2.1 x.2.2 s s' a Hs (ex_intro _ m Hm) Hq Hstep)
    as [Hs' Hsame'].
  split; [done | congruence].
Qed.

(** The graph [build_graph] builds from a backend that was cleaned up is
    ready for the two passes. *)
Lemma build_graph_ready (b b1 : Backend.t) (mm : MapManager.t) (h : Heap) :
  Backend.build_graph (Backend.CleanUp b) mm h = Ok b1 →
  ∃ vertexIndex, graph_ok h b1 vertexIndex.
Proof.
  unfold Backend.build_graph. intros Hrun.
  apply bind_Ok in Hrun as (cur & _ & Hrun).
  apply bind_Ok in Hrun as (bv & Hbv & Hrun).
  apply bind_Ok in Hrun as (bve & Hbve & Hrun). injection Hrun as <-.
  assert (Hv : graph_ok h bv.1 bv.2).
  { revert Hbv. apply (foldlM_invariant _ (λ s, graph_ok h s.1 s.2)).
    - intros s a s' _. apply add_keyframe_vertices_ok.
    - split; simpl; apply map_Forall_empty. }
  exists bve.1.2.
  assert (He : graph_ok h bve.1.1 bve.1.2 ∧
               Backend.mptIdToMptThenVertex_ bve.1.1 =
               Backend.mptIdToMptThenVertex_ bv.1); [|by destruct He].
  revert Hbve.
  apply (foldlM_invariant _
           (λ s, graph_ok h s.1.1 s.1.2 ∧
                 Backend.mptIdToMptThenVertex_ s.1.1 =
                 Backend.mptIdToMptThenVertex_ bv.1)); [|by split].
  intros s [id x] s' Hin [Hs Hsame] Hstep.
  apply elem_of_map_to_list in Hin.
  assert (Hx : Backend.mptIdToMptThenVertex_ s.1.1 !! (id, x).1 = Some (id, x).2).
  { simpl. by rewrite Hsame. }
  destruct (add_mappoint_edges_ok mm h s s' (id, x) Hs Hx Hstep) as [Hs' Hsame'].
  split; [done | congruence].
Qed.

End Graph.

(** [Scene.ba_backend] is the graph [build_graph] builds on [Scene.ba_heap]. *)
Example ba_backend_built :
  @Backend.build_graph Scene.frame_ops Scene.solver
    (Backend.CleanUp (Scene.backend0 (Some 1%positive))) Scene.ba_map Scene.ba_heap =
  Ok Scene.ba_backend.
Proof. vm_compute. reflexivity. Qed.

Lemma add_mappoint_vertex_from (mm : MapManager.t) (h : Heap)
    (acc acc' : Backend.t * Z) (mptId : Z) :
  graph_from mm acc.1 →
  Backend.add_mappoint_vertex mm h acc mptId = Ok acc' →
  graph_from mm acc'.1.
Proof.
  intros Hfrom. unfold Backend.add_mappoint_vertex.
  destruct (Backend.mptIdToMptThenVertex_ acc.1 !! mptId) eqn:E; [by intros [= <-] |].
  destruct (MapManager.GetMappoint mm mptId) as [mpt|] eqn:Eg; [|by intros [= <-]].
  intros Hrun. apply bind_Ok in Hrun as (m & Hm & Hrun).
  destruct (Mappoint.outlier_ m); [by injection Hrun as <- |].
  injection Hrun as <-. destruct Hfrom as [Hk Hp]. split; simpl; [done |].
  by apply map_Forall_insert_2.
Qed.

Lemma add_keyframe_vertices_from (mm : MapManager.t) (h : Heap)
    (acc acc' : Backend.t * Z) (kfId : Z) :
  graph_from mm acc.1 →
  Backend.add_keyframe_vertices mm h acc kfId = Ok acc' →
  graph_from mm acc'.1.
Proof.
  intros Hfrom. unfold Backend.add_keyframe_vertices.
  destruct (MapManager.GetKeyframe mm kfId) as [kf|] eqn:Eg; [|by intros [= <-]].
  intros Hrun. apply bind_Ok in Hrun as (f & Hf & Hrun).
  revert Hrun. apply (foldlM_invariant _ (λ s, graph_from mm s.1)).
  - intros s a s' _. apply add_mappoint_vertex_from.
  - destruct Hfrom as [Hk Hp]. split; simpl; [|done].
    by apply map_Forall_insert_2.
Qed.

Lemma entries_one_id (reg : gmap Z loc) (m : gmap Z (loc * Z)) :
  one_id_each reg →
  map_Forall (λ id x, reg !! id = Some x.1) m →
  NoDup ((map_to_list m).*2.*1).
Proof.
  intros Hinj Hfrom. rewrite <- list_fmap_compose.
  apply NoDup_fmap_2_strong; [|apply NoDup_map_to_list].
  intros [i [l v]] [j [l' v']] Hi Hj E. simpl in E. subst l'.
  apply elem_of_map_to_list in Hi, Hj.
  pose proof (Hfrom i _ Hi) as Ri. pose proof (Hfrom j _ Hj) as Rj. simpl in *.
  assert (i = j) as -> by (by apply (Hinj i j l)).
  rewrite Hi in Hj. by injection Hj as ->.
Qed.

Section Rounds.
Context `{FrameOps} `{g2o.Solver}.

Lemma add_edge_from (mm : MapManager.t) (h : Heap) (mpt : loc) (mptVertex : Z)
    (acc acc' : Backend.t * Z * Z) (obs : Z * Z) :
  graph_from mm acc.1.1 →
  Backend.add_edge mm h mpt mptVertex acc obs = Ok acc' →
  graph_from mm acc'.1.1.
Proof.
  intros [Hk Hp]. unfold Backend.add_edge.
  intros Hrun. apply bind_Ok in Hrun as (f & Hf & Hrun).
  apply bind_Ok in Hrun as (kpt & _ & Hrun).
  destruct (MapManager.GetKeyframe mm obs.1) as [kf|]; [|by injection Hrun as <-].
  destruct (Backend.kfIdToCovKfThenVertex_ acc.1.1 !! obs.1) as [kv|];
    injection Hrun as <-; by split.
Qed.

Lemma build_graph_from (b b1 : Backend.t) (mm : MapManager.t) (h : Heap) :
  Backend.build_graph (Backend.CleanUp b) mm h = Ok b1 → graph_from mm b1.
Proof.
  unfold Backend.build_graph. intros Hrun.
  apply bind_Ok in Hrun as (cur & _ & Hrun).
  apply bind_Ok in Hrun as (bv & Hbv & Hrun).
  apply bind_Ok in Hrun as (bve & Hbve & Hrun). injection Hrun as <-.
  assert (Hv : graph_from mm bv.1).
  { revert Hbv. apply (foldlM_invariant _ (λ s, graph_from mm s.1)).
    - intros s a s' _. apply add_keyframe_vertices_from.
    - split; simpl; apply map_Forall_empty. }
  revert Hbve. apply (foldlM_invariant _ (λ s, graph_from mm s.1.1)); [|done].
  intros s x s' _ Hs. unfold Backend.add_mappoint_edges.
  intros Hrun. apply bind_Ok in Hrun as (m & _ & Hrun). revert Hrun.
  apply (foldlM_invariant _ (λ s, graph_from mm s.1.1)); [|done].
  intros s0 a s0' _. apply add_edge_from.
Qed.

(** The two passes complete on a graph whose edges are ready; they leave
    the maps of the round and the kinds of the vertices as they were, and
    every keyframe and mappoint alive. *)
Lemma two_pass_keeps (b : Backend.t) (h : Heap) :
  map_Forall (edge_ready (Backend.optimizer_ b) h) (Backend.edgeToKfThenMpt_ b) →
  ∃ b' h',
    Backend.two_pass b h = Ok (b', h') ∧
    Backend.kfIdToCovKfThenVertex_ b' = Backend.kfIdToCovKfThenVertex_ b ∧
    Backend.mptIdToMptThenVertex_ b' = Backend.mptIdToMptThenVertex_ b ∧
    (∀ v, is_pose (Backend.optimizer_ b') v = is_pose (Backend.optimizer_ b) v) ∧
    (∀ v, is_point (Backend.optimizer_ b') v = is_point (Backend.optimizer_ b) v) ∧
    frames_shrink (frames h) (frames h') ∧
    mappoints_marked (mappoints h) (mappoints h').
Proof.
  intros Hready.
  destruct (sweep1_loop (Backend.chi2Threshold_ b)
              (map_to_list (Backend.edgeToKfThenMpt_ b))
              (Backend.mkSweep (g2o.optimize 10 (Backend.optimizer_ b)) h 0))
    as (s1 & Hs1 & Hv1 & Hm1 & Hf1 & _ & _).
  { apply NoDup_fst_map_to_list. }
  { intros [e x] Hx. apply elem_of_map_to_list in Hx. simpl.
    apply edge_ready_optimize. exact (Hready e x Hx). }
  destruct (pass1_ready b h Hready) as (s1' & Hs1' & Hready1).
  unfold Backend.pass1 in Hs1'. rewrite Hs1 in Hs1'. injection Hs1' as <-.
  destruct (sweep2_loop (Backend.chi2Threshold_ b)
              (map_to_list (Backend.edgeToKfThenMpt_ b))
              (Backend.mkSweep (g2o.optimize 10 (Backend.sw_optimizer s1))
                 (Backend.sw_heap s1) (Backend.outlierCnt s1)))
    as (s2 & Hs2 & Hv2 & Hm2 & Hf2 & _ & _).
  { apply NoDup_fst_map_to_list. }
  { intros x Hx. simpl. apply edge_ready_optimize. by apply Hready1. }
  exists (Backend.set_graph b (Backend.kfIdToCovKfThenVertex_ b)
            (Backend.mptIdToMptThenVertex_ b) (Backend.kfIdToFixedKfThenVertex_ b)
            (Backend.edgeToKfThenMpt_ b) (Backend.sw_optimizer s2)),
         (Backend.sw_heap s2).
  simpl in *. split.
  { unfold Backend.two_pass, Backend.pass1, Backend.pass2.
    rewrite Hs1. simpl. by rewrite Hs2. }
  split; [done |]. split; [done |]. split; [|split; [|split]].
  - intros v.
    rewrite (is_pose_vertices _ (g2o.optimize 10 (Backend.sw_optimizer s1))) by done.
    rewrite is_pose_optimize.
    rewrite (is_pose_vertices _ (g2o.optimize 10 (Backend.optimizer_ b))) by done.
    apply is_pose_optimize.
  - intros v.
    rewrite (is_point_vertices _ (g2o.optimize 10 (Backend.sw_optimizer s1))) by done.
    rewrite is_point_optimize.
    rewrite (is_point_vertices _ (g2o.optimize 10 (Backend.optimizer_ b))) by done.
    apply is_point_optimize.
  - by apply (frames_shrink_trans _ (frames (Backend.sw_heap s1))).
  - by rewrite <- Hm1.
Qed.

(** A whole round: once the graph is built from a backend that was
    cleaned up, [OptimizeLocalMap] completes, and what it leaves is ready
    for the handoff when the Map Manager holds no entity under two ids. *)
Lemma OptimizeLocalMap_then_handoff (b b1 : Backend.t) (mm : MapManager.t) (h : Heap) :
  one_id_each (MapManager.keyframes_ mm) →
  one_id_each (MapManager.mappoints_ mm) →
  Backend.build_graph (Backend.CleanUp b) mm h = Ok b1 →
  ∃ b' h',
    Backend.OptimizeLocalMap (Backend.CleanUp b) mm h = Ok (b', h') ∧
    entries_ready (is_pose (Backend.optimizer_ b')) (frames h')
      (Backend.kfIdToCovKfThenVertex_ b') ∧
    entries_ready (is_point (Backend.optimizer_ b')) (mappoints h')
      (Backend.mptIdToMptThenVertex_ b').
Proof.
  intros Hkf Hmp Hbuild.
  destruct (build_graph_ready _ _ _ _ Hbuild) as [vi [_ Hc Hm He]].
  destruct (build_graph_from _ _ _ _ Hbuild) as [Fk Fm].
  destruct (two_pass_keeps b1 h He) as (b' & h' & Hrun & Ec & Em & Hp & Hq & Hfs & Hms).
  exists b', h'. split.
  { unfold Backend.OptimizeLocalMap. by rewrite Hbuild. }
  rewrite Ec, Em. split; split.
  - intros id x Hx. destruct (Hc id x Hx) as [[f Hf] Hx2]. split.
    + destruct (Hfs _ _ Hf) as (f' & -> & _). by eexists.
    + by rewrite Hp.
  - by apply (entries_one_id (MapManager.keyframes_ mm)).
  - intros id x Hx. destruct (Hm id x Hx) as [[m Hm'] Hx2]. split.
    + destruct (Hms _ _ Hm') as (m' & -> & _). by eexists.
    + by rewrite Hq.
  - by apply (entries_one_id (MapManager.mappoints_ mm)).
Qed.

End Rounds.

(* ================================================================== *)
(** * Further properties of the code *)
(* ================================================================== *)

(** ** [mappoint.cpp]: the counter and the bookkeeping of a [MapPoint] *)

Lemma made_by_factory_length (cs : list construction) :
  length (made_by_factory (run cs)) = length (filter (λ c, is_factory_call c = true) cs).
Proof.
  induction cs as [|c cs IH] using rev_ind; [done |].
  rewrite run_snoc, filter_app, length_app, <- IH.
  destruct c; simpl; rewrite ?length_app; simpl; lia.
Qed.

(** X1: after any run, [MapPoint::factory_id_] is the number of calls of
    [createMapPoint] made so far, modulo 2^64; the two constructors called
    directly never advance it. *)
Theorem X1_counter_counts_factory_calls (cs : list construction) :
  mappoint_factory_id_ (run cs) =
    wrap64 (Z.of_nat (length (filter (λ c, is_factory_call c = true) cs))) ∧
  ∀ id position norm pixel_pos frame descriptor,
    mappoint_factory_id_ (run (cs ++ [NewMapPoint0])) = mappoint_factory_id_ (run cs) ∧
    mappoint_factory_id_
      (run (cs ++ [NewMapPoint6 id position norm pixel_pos frame descriptor])) =
    mappoint_factory_id_ (run cs).
Proof.
  split.
  - rewrite <- made_by_factory_length. apply (ok_mappoint_counter _ (counters_ok_run cs)).
  - intros. by rewrite !run_snoc.
Qed.

(** X2: every [MapPoint], however it was constructed, has as many
    observing frames as observed pixels, [visible_times_] and
    [matched_times_] equal to that number, and [good_] false. *)
Theorem X2_bookkeeping_agrees (cs : list construction) :
  Forall bookkeeping_agrees (all_mappoints (run cs)).
Proof.
  induction cs as [|c cs IH] using rev_ind; [by apply Forall_nil |].
  rewrite run_snoc.
  destruct c; simpl; try done; apply Forall_app; (split; [done |]);
    apply Forall_singleton; by repeat split.
Qed.

(** ** [frame.h]: observations and covisibility links of a [Frame] *)

(** X3: the ids being [size_t], [AddObservedMappoint] makes
    [IsObservedMappoint] true for every id that converts to the same
    [size_t] as the id added, and changes it for no other id: after adding
    -1 the id 2^64 - 1 is observed. Adding an id twice is adding it once;
    the pose and the covisibility links are untouched. *)
Theorem X3_observed_mappoint_added (id id' : Z) (f : Frame.t) :
  Frame.IsObservedMappoint id' (Frame.AddObservedMappoint id f) =
    bool_decide (wrap64 id' = wrap64 id) || Frame.IsObservedMappoint id' f ∧
  Frame.IsObservedMappoint (2 ^ 64 - 1) (Frame.AddObservedMappoint (-1) f) = true ∧
  Frame.AddObservedMappoint id (Frame.AddObservedMappoint id f) =
    Frame.AddObservedMappoint id f ∧
  Frame.GetTcw (Frame.AddObservedMappoint id f) = Frame.GetTcw f ∧
  Frame.GetCovisibleKeyframes (Frame.AddObservedMappoint id f) =
    Frame.GetCovisibleKeyframes f.
Proof.
  assert (Hadd : ∀ a b, Frame.IsObservedMappoint b (Frame.AddObservedMappoint a f) =
                        bool_decide (wrap64 b = wrap64 a) || Frame.IsObservedMappoint b f).
  { intros a b. unfold Frame.IsObservedMappoint, Frame.AddObservedMappoint. simpl.
    rewrite <- bool_decide_or. apply bool_decide_ext.
    by rewrite elem_of_union, elem_of_singleton. }
  split; [apply Hadd |]. split; [|split; [|done]].
  - rewrite Hadd. by rewrite bool_decide_eq_true_2.
  - unfold Frame.AddObservedMappoint. simpl. f_equal.
    apply set_eq. intros x. rewrite !elem_of_union. tauto.
Qed.

(** X4: the key being a [size_t] and the weight an [int],
    [AddCovisibleKeyframe] sets the weight of the link under the converted
    key to the converted weight, replacing the one it had, and changes no
    other link: the weight 2^31 is stored as -2^31, and whatever is stored
    is in the range of [int]. The observations are untouched. *)
Theorem X4_covisible_keyframe_added (id id' weight weight' : Z) (f : Frame.t) :
  Frame.GetCovisibleKeyframes (Frame.AddCovisibleKeyframe id weight f) !! id' =
    (if decide (wrap64 id = id') then Some (wrap_int32 weight)
     else Frame.GetCovisibleKeyframes f !! id') ∧
  - 2 ^ 31 ≤ wrap_int32 weight < 2 ^ 31 ∧
  Frame.GetCovisibleKeyframes (Frame.AddCovisibleKeyframe id (2 ^ 31) f) !! wrap64 id =
    Some (- 2 ^ 31) ∧
  Frame.AddCovisibleKeyframe id weight (Frame.AddCovisibleKeyframe id weight' f) =
    Frame.AddCovisibleKeyframe id weight f ∧
  Frame.GetObservedMappointIds (Frame.AddCovisibleKeyframe id weight f) =
    Frame.GetObservedMappointIds f.
Proof.
  split; [|split; [|split; [|split; [|done]]]].
  - unfold Frame.GetCovisibleKeyframes, Frame.AddCovisibleKeyframe. simpl.
    apply lookup_insert.
  - unfold wrap_int32.
    pose proof (Z.mod_pos_bound (weight + 2 ^ 31) (2 ^ 32) ltac:(lia)). lia.
  - unfold Frame.GetCovisibleKeyframes, Frame.AddCovisibleKeyframe. simpl.
    by rewrite lookup_insert_eq.
  - unfold Frame.AddCovisibleKeyframe. simpl. by rewrite insert_insert_eq.
Qed.

(** ** The fuse step: candidate keyframes and what the matching records *)

Lemma erase_current_elem (c kf : loc) (S : gset loc) :
  kf ∈ Backend.erase_current (Some c) S ↔ kf ∈ S ∧ kf ≠ c.
Proof.
  unfold Backend.erase_current. destruct (decide (c ∈ S)) as [Hin | Hnin].
  - rewrite elem_of_difference, elem_of_singleton. tauto.
  - split; [|tauto]. intros Hkf. split; [done |]. intros ->. done.
Qed.

(** X5: when the current keyframe and the keyframes its covisible ids
    resolve to are alive, the candidate set of the fuse step is exactly the
    set of the keyframes those ids resolve to, the current keyframe
    excepted; an id the Map Manager does not hold adds nothing. *)
Theorem X5_candidates_are_one_hop (b : Backend.t) (mm : MapManager.t) (h : Heap)
    (c : loc) (fc : Frame.t)
    (Hc : Backend.keyframeCurr_ b = Some c)
    (Hfc : frames h !! c = Some fc)
    (Hlive : ∀ id kf, id ∈ Frame.GetAllCovisibleKfIds fc →
                      MapManager.GetKeyframe mm id = Some kf →
                      is_Some (frames h !! kf)) :
  ∃ covisibleKfs,
    Backend.covisibleKfs_of b mm h = Ok covisibleKfs ∧
    (c ∉ covisibleKfs) ∧
    ∀ kf, kf ∈ covisibleKfs ↔
          kf ≠ c ∧ ∃ id, id ∈ Frame.GetAllCovisibleKfIds fc ∧
                         MapManager.GetKeyframe mm id = Some kf.
Proof.
  destruct (collect_one_hop mm h (elements (Frame.GetAllCovisibleKfIds fc)) ∅)
    as (r & Hr & Hiff).
  { intros id kf Hid. apply Hlive. by apply elem_of_elements. }
  exists (Backend.erase_current (Some c) r). split; [|split].
  - unfold Backend.covisibleKfs_of. rewrite Hc, (deref_live _ _ _ Hfc), bind_ret.
    by rewrite Hr.
  - rewrite erase_current_elem. tauto.
  - intros kf. rewrite erase_current_elem, Hiff. split.
    + intros [[Hin | (id & Hid & Hk)] Hne]; [by apply not_elem_of_empty in Hin |].
      split; [done |]. exists id. split; [by apply elem_of_elements | done].
    + intros [Hne (id & Hid & Hk)]. split; [|done]. right. exists id.
      split; [by apply elem_of_elements | done].
Qed.

(** [X5_candidates_are_one_hop] on the chain of three keyframes. *)
Lemma X5_candidates_are_one_hop_witness :
  ∃ covisibleKfs,
    Backend.covisibleKfs_of (Scene.backend0 (Some 1%positive)) Scene.chain_map
      Scene.chain_heap = Ok covisibleKfs ∧
    (1%positive ∉ covisibleKfs) ∧
    ∀ kf, kf ∈ covisibleKfs ↔
          kf ≠ 1%positive ∧
          ∃ id, id ∈ Frame.GetAllCovisibleKfIds (Scene.mkFrame 0 [] [] [(1, 20)]) ∧
                MapManager.GetKeyframe Scene.chain_map id = Some kf.
Proof.
  apply (X5_candidates_are_one_hop (Scene.backend0 (Some 1%positive)) Scene.chain_map
           Scene.chain_heap 1%positive (Scene.mkFrame 0 [] [] [(1, 20)])).
  - reflexivity.
  - vm_compute. reflexivity.
  - intros id kf Hid Hk.
    assert (id = 1) as ->.
    { unfold Frame.GetAllCovisibleKfIds in Hid. simpl in Hid.
      rewrite dom_insert_L, dom_empty_L in Hid.
      apply elem_of_union in Hid as [Hid | Hid].
      - by apply elem_of_singleton in Hid.
      - by apply not_elem_of_empty in Hid. }
    vm_compute in Hk. injection Hk as <-. eexists. vm_compute. reflexivity.
Defined.

Section FuseRecords.
Context `{FrameOps}.

Lemma old_candidate_elem (th : Q) (h : Heap) (kf mpt : loc) (o n : Z) (d : Q) :
  (o, (n, d)) ∈ old_candidate th h kf mpt →
  ∃ f m k mo, frames h !! kf = Some f ∧ mappoints h !! mpt = Some m ∧
              GetMatchedKeypoint f m = Some (k, d, mo) ∧ Qgtb d th = false ∧
              IsKeypointMatchWithMappoint f k = Some o ∧ n = Mappoint.GetId m.
Proof.
  unfold old_candidate, accepted_match.
  destruct (frames h !! kf) as [f|]; [|by intros ?%elem_of_nil].
  destruct (mappoints h !! mpt) as [m|]; [|by intros ?%elem_of_nil].
  destruct (GetMatchedKeypoint f m) as [[[k d'] mo]|] eqn:Eg; [|by intros ?%elem_of_nil].
  destruct (Qgtb d' th) eqn:Et; [by intros ?%elem_of_nil |].
  destruct (IsKeypointMatchWithMappoint f k) as [o'|] eqn:Ei; [|by intros ?%elem_of_nil].
  intros [= -> -> ->]%list_elem_of_singleton. by exists f, m, k, mo.
Qed.

Lemma kpt_candidate_elem (th : Q) (h : Heap) (kf mpt mpt' : loc) (k : Z) (d : Q) :
  (k, (mpt', d)) ∈ kpt_candidate th h kf mpt →
  mpt' = mpt ∧
  ∃ f m mo, frames h !! kf = Some f ∧ mappoints h !! mpt = Some m ∧
            GetMatchedKeypoint f m = Some (k, d, mo) ∧ Qgtb d th = false ∧
            IsKeypointMatchWithMappoint f k = None.
Proof.
  unfold kpt_candidate, accepted_match.
  destruct (frames h !! kf) as [f|]; [|by intros ?%elem_of_nil].
  destruct (mappoints h !! mpt) as [m|]; [|by intros ?%elem_of_nil].
  destruct (GetMatchedKeypoint f m) as [[[k' d'] mo]|] eqn:Eg; [|by intros ?%elem_of_nil].
  destruct (Qgtb d' th) eqn:Et; [by intros ?%elem_of_nil |].
  destruct (IsKeypointMatchWithMappoint f k') as [o'|] eqn:Ei; [by intros ?%elem_of_nil |].
  intros [= -> -> ->]%list_elem_of_singleton. split; [done |]. by exists f, m, mo.
Qed.

Lemma first_smallest_elem {K V : Type} (cs : list (K * (V * Q))) (k : K) (v : V) (d : Q) :
  first_smallest cs k v d → (k, (v, d)) ∈ cs.
Proof. intros (i & Hi & _). by apply list_elem_of_lookup_2 in Hi. Qed.

(** What the matching leaves, with the maps of keypoints it built for
    each keyframe. *)
Lemma matching_records (th : Q) (h : Heap) (kfs mpts : list loc) :
  Forall (λ kf, is_Some (frames h !! kf)) kfs →
  Forall (λ mpt, is_Some (mappoints h !! mpt)) mpts →
  ∃ st,
    Backend.match_new_mappoints th h kfs mpts = Ok st ∧
    (∀ o n d, Backend.oldMptIdToNewMptIdAndDistance st !! o = Some (n, d) →
       ∃ kf mpt, kf ∈ kfs ∧ mpt ∈ mpts ∧ (o, (n, d)) ∈ old_candidate th h kf mpt) ∧
    (∀ kf mpt k, (kf, mpt, k) ∈ Backend.observationsToAdd st ↔
       kf ∈ kfs ∧ ∃ d, foldl offer ∅ (kpt_candidates th h kf mpts) !! k = Some (mpt, d)).
Proof.
  intros Hkfs Hmpts.
  destruct (match_outer th h kfs mpts (Backend.mkMatching ∅ ∅ []) Hkfs Hmpts)
    as (st & Hst & Hold & Hobs).
  exists st. split; [exact Hst |]. split.
  - intros o n d Hk. rewrite Hold in Hk. simpl in Hk.
    apply offer_fold, first_smallest_elem in Hk. unfold old_candidates in Hk.
    apply list_elem_of_bind in Hk as (kf & Hk & Hkf).
    apply list_elem_of_bind in Hk as (mpt & Hk & Hmpt). by exists kf, mpt.
  - intros kf mpt k. rewrite Hobs. simpl. rewrite list_elem_of_bind. split.
    + intros (kf' & Hin & Hkf').
      unfold Backend.record_observations in Hin.
      apply list_elem_of_fmap in Hin as ([k' [mpt' d]] & E & Hin). simpl in E.
      injection E as -> -> ->. apply elem_of_map_to_list in Hin.
      split; [done |]. by exists d.
    + intros (Hkf & d & Hfs). exists kf. split; [|done].
      unfold Backend.record_observations. apply list_elem_of_fmap.
      exists (k, (mpt, d)). split; [done |]. by apply elem_of_map_to_list.
Qed.

(** X6: whatever the matching records comes from a match that
    [GetMatchedKeypoint] found within [reMatchDescriptorDistance_], between
    one of the covisible keyframes and one of the new mappoints: a
    replacement only at a keypoint that has a mappoint, the old one, and an
    observation only at a keypoint that has none. *)
Theorem X6_records_are_matches (th : Q) (h : Heap) (kfs mpts : list loc)
    (Hkfs : Forall (λ kf, is_Some (frames h !! kf)) kfs)
    (Hmpts : Forall (λ mpt, is_Some (mappoints h !! mpt)) mpts) :
  ∃ st,
    Backend.match_new_mappoints th h kfs mpts = Ok st ∧
    (∀ o n d, Backend.oldMptIdToNewMptIdAndDistance st !! o = Some (n, d) →
       (d <= th)%Q ∧
       ∃ kf mpt f m k mo,
         kf ∈ kfs ∧ mpt ∈ mpts ∧ frames h !! kf = Some f ∧
         mappoints h !! mpt = Some m ∧ n = Mappoint.GetId m ∧
         GetMatchedKeypoint f m = Some (k, d, mo) ∧
         IsKeypointMatchWithMappoint f k = Some o) ∧
    (∀ kf mpt k, (kf, mpt, k) ∈ Backend.observationsToAdd st →
       kf ∈ kfs ∧ mpt ∈ mpts ∧
       ∃ f m d mo,
         frames h !! kf = Some f ∧ mappoints h !! mpt = Some m ∧
         GetMatchedKeypoint f m = Some (k, d, mo) ∧ (d <= th)%Q ∧
         IsKeypointMatchWithMappoint f k = None).
Proof.
  destruct (matching_records th h kfs mpts Hkfs Hmpts) as (st & Hst & Hold & Hobs).
  exists st. split; [exact Hst |]. split.
  - intros o n d Hk. destruct (Hold o n d Hk) as (kf & mpt & Hkf & Hmpt & Hin).
    apply old_candidate_elem in Hin as (f & m & k & mo & Hf & Hm & Hg & Ht & Hi & Hn).
    split; [by apply Qgtb_false |]. by exists kf, mpt, f, m, k, mo.
  - intros kf mpt k Hin. apply Hobs in Hin as (Hkf & d & Hk).
    apply offer_fold, first_smallest_elem in Hk. unfold kpt_candidates in Hk.
    apply list_elem_of_bind in Hk as (mpt0 & Hk & Hmpt).
    apply kpt_candidate_elem in Hk as (-> & f & m & mo & Hf & Hm & Hg & Ht & Hi).
    split; [done |]. split; [done |]. exists f, m, d, mo.
    repeat split; try done. by apply Qgtb_false.
Qed.

(** X7: the matching gives a keypoint of a keyframe at most one new
    mappoint, and a new mappoint at most one keypoint of a keyframe. *)
Theorem X7_observations_one_to_one (th : Q) (h : Heap) (kfs mpts : list loc)
    (Hkfs : Forall (λ kf, is_Some (frames h !! kf)) kfs)
    (Hmpts : Forall (λ mpt, is_Some (mappoints h !! mpt)) mpts) :
  ∃ st,
    Backend.match_new_mappoints th h kfs mpts = Ok st ∧
    (∀ kf mpt mpt' k,
       (kf, mpt, k) ∈ Backend.observationsToAdd st →
       (kf, mpt', k) ∈ Backend.observationsToAdd st → mpt = mpt') ∧
    (∀ kf mpt k k',
       (kf, mpt, k) ∈ Backend.observationsToAdd st →
       (kf, mpt, k') ∈ Backend.observationsToAdd st → k = k').
Proof.
  destruct (matching_records th h kfs mpts Hkfs Hmpts) as (st & Hst & _ & Hobs).
  exists st. split; [exact Hst |]. split.
  - intros kf mpt mpt' k [_ [d Hk]]%Hobs [_ [d' Hk']]%Hobs. congruence.
  - intros kf mpt k k' [_ [d Hk]]%Hobs [_ [d' Hk']]%Hobs.
    apply offer_fold, first_smallest_elem in Hk, Hk'. unfold kpt_candidates in *.
    apply list_elem_of_bind in Hk as (mpt0 & Hk & _).
    apply list_elem_of_bind in Hk' as (mpt1 & Hk' & _).
    apply kpt_candidate_elem in Hk as (-> & f & m & mo & Hf & Hm & Hg & _).
    apply kpt_candidate_elem in Hk' as (-> & f' & m' & mo' & Hf' & Hm' & Hg' & _).
    congruence.
Qed.

(** X8: without new mappoints the matching records nothing, and it reads
    no keyframe: it completes even on keyframes that are not alive. *)
Theorem X8_no_new_mappoint_no_record (th : Q) (h : Heap) (kfs : list loc) :
  Backend.match_new_mappoints th h kfs [] = Ok (Backend.mkMatching ∅ ∅ []) ∧
  ∀ mpts, Backend.match_new_mappoints th h [] mpts = Ok (Backend.mkMatching ∅ ∅ []).
Proof.
  split; [|done]. unfold Backend.match_new_mappoints.
  induction kfs as [|kf kfs IH]; [done |].
  rewrite foldlM_cons. unfold Backend.match_keyframe at 1. simpl.
  unfold Backend.record_observations. rewrite map_to_list_empty. simpl. exact IH.
Qed.

End FuseRecords.

(** ** What [build_graph] puts in the graph *)

Lemma lookup_addVertex_old (o : g2o.SparseOptimizer) (v v' : Z) (x y : g2o.Vertex) :
  g2o.vertices o !! v = None → g2o.vertices o !! v' = Some y →
  g2o.vertices (g2o.addVertex v x o) !! v' = Some y.
Proof.
  intros Hv Hv'. simpl. rewrite lookup_insert_ne; [done |]. intros ->. congruence.
Qed.

(** The phase of the vertices: no edge and no fixed vertex yet. *)
Lemma add_mappoint_vertex_init (mm : MapManager.t) (h : Heap)
    (acc acc' : Backend.t * Z) (mptId : Z) :
  graph_ok h acc.1 acc.2 → graph_vertices h acc.1 →
  Backend.kfIdToFixedKfThenVertex_ acc.1 = ∅ ∧ Backend.edgeToKfThenMpt_ acc.1 = ∅ →
  Backend.add_mappoint_vertex mm h acc mptId = Ok acc' →
  graph_vertices h acc'.1 ∧
  Backend.kfIdToFixedKfThenVertex_ acc'.1 = ∅ ∧ Backend.edgeToKfThenMpt_ acc'.1 = ∅.
Proof.
  intros Hok Hinit Hempty. unfold Backend.add_mappoint_vertex.
  destruct (Backend.mptIdToMptThenVertex_ acc.1 !! mptId) eqn:E; [by intros [= <-] |].
  destruct (MapManager.GetMappoint mm mptId) as [mpt|]; [|by intros [= <-]].
  intros Hrun. apply bind_Ok in Hrun as (m & Hm & Hrun).
  apply deref_Ok in Hm as (l & [= <-] & Hm).
  destruct (Mappoint.outlier_ m) eqn:Ho; [by injection Hrun as <- |].
  injection Hrun as <-. simpl. split; [|done].
  pose proof (graph_ok_fresh _ _ _ Hok) as Hfresh.
  destruct Hinit as [Hc Hp Hf]. destruct Hempty as [Ef Ee]. split; simpl.
  - intros id y Hy. destruct (Hc id y Hy) as (f & Hfy & Hv). exists f.
    split; [done |]. by rewrite lookup_insert_ne by congruence.
  - intros id y Hy. destruct (decide (mptId = id)) as [<- | Hne].
    + rewrite lookup_insert_eq in Hy. injection Hy as <-. simpl. exists m.
      split; [done |]. split; [done |]. by rewrite lookup_insert_eq.
    + rewrite lookup_insert_ne in Hy by done.
      destruct (Hp id y Hy) as (m' & Hm' & Ho' & Hv). exists m'.
      split; [done |]. split; [done |].
      by rewrite lookup_insert_ne by congruence.
  - rewrite Ef. apply map_Forall_empty.
Qed.

Lemma add_keyframe_vertices_init (mm : MapManager.t) (h : Heap)
    (acc acc' : Backend.t * Z) (kfId : Z) :
  graph_ok h acc.1 acc.2 → graph_vertices h acc.1 →
  Backend.kfIdToFixedKfThenVertex_ acc.1 = ∅ ∧ Backend.edgeToKfThenMpt_ acc.1 = ∅ →
  Backend.add_keyframe_vertices mm h acc kfId = Ok acc' →
  graph_ok h acc'.1 acc'.2 ∧ graph_vertices h acc'.1 ∧
  Backend.kfIdToFixedKfThenVertex_ acc'.1 = ∅ ∧ Backend.edgeToKfThenMpt_ acc'.1 = ∅.
Proof.
  intros Hok Hinit Hempty Hrun.
  split; [by apply (add_keyframe_vertices_ok mm h acc acc' kfId) |].
  revert Hrun. unfold Backend.add_keyframe_vertices.
  destruct (MapManager.GetKeyframe mm kfId) as [kf|]; [|by intros [= <-]].
  intros Hrun. apply bind_Ok in Hrun as (f & Hf & Hrun).
  apply deref_Ok in Hf as (l & [= <-] & Hf).
  pose proof (graph_ok_fresh _ _ _ Hok) as Hfresh.
  assert (Hall :
    graph_ok h acc'.1 acc'.2 ∧ graph_vertices h acc'.1 ∧
    Backend.kfIdToFixedKfThenVertex_ acc'.1 = ∅ ∧ Backend.edgeToKfThenMpt_ acc'.1 = ∅);
    [|by destruct Hall].
  revert Hrun.
  apply (foldlM_invariant _
           (λ s, graph_ok h s.1 s.2 ∧ graph_vertices h s.1 ∧
                 Backend.kfIdToFixedKfThenVertex_ s.1 = ∅ ∧
                 Backend.edgeToKfThenMpt_ s.1 = ∅)).
  - intros s a s' _ (Hs & Hi & He) Hstep.
    split; [by apply (add_mappoint_vertex_ok mm h s s' a) |].
    by apply (add_mappoint_vertex_init mm h s s' a).
  - split; [|split; [|done]].
    + simpl. apply graph_ok_addVertex; [done | | by left].
      intros id y Hy. destruct (decide (kfId = id)) as [<- | Hne].
      * rewrite lookup_insert_eq in Hy. injection Hy as <-. right. simpl.
        split; [by eexists |]. split; [done |]. by eexists _, _.
      * rewrite lookup_insert_ne in Hy by done. by left.
    + destruct Hinit as [Hc Hp Hfx]. destruct Hempty as [Ef Ee]. split; simpl.
      * intros id y Hy. destruct (decide (kfId = id)) as [<- | Hne].
        -- rewrite lookup_insert_eq in Hy. injection Hy as <-. simpl. exists f.
           split; [done |]. by rewrite lookup_insert_eq.
        -- rewrite lookup_insert_ne in Hy by done.
           destruct (Hc id y Hy) as (f' & Hf' & Hv). exists f'.
           split; [done |]. by rewrite lookup_insert_ne by congruence.
      * intros id y Hy. destruct (Hp id y Hy) as (m' & Hm' & Ho' & Hv). exists m'.
        split; [done |]. split; [done |].
        by rewrite lookup_insert_ne by congruence.
      * rewrite Ef. apply map_Forall_empty.
Qed.

Section GraphContent.
Context `{FrameOps} `{g2o.Solver}.

Lemma edge_built_kept (mm : MapManager.t) (h : Heap) (b b' : Backend.t) (e : Z)
    (x : loc * loc) :
  g2o.edges (Backend.optimizer_ b') !! e = g2o.edges (Backend.optimizer_ b) !! e →
  (∀ v y, g2o.vertices (Backend.optimizer_ b) !! v = Some y →
          g2o.vertices (Backend.optimizer_ b') !! v = Some y) →
  Backend.mptIdToMptThenVertex_ b' = Backend.mptIdToMptThenVertex_ b →
  Backend.kfIdToCovKfThenVertex_ b' = Backend.kfIdToCovKfThenVertex_ b →
  edge_built mm h b e x → edge_built mm h b' e x.
Proof.
  intros Ee Hv Em Ec (ed & kfId & kptIdx & f & m & kp & He & Hl & Hr & Hk & Hf & Hm &
                      Ho & Hkp & Hz & Hv1 & Hv0).
  exists ed, kfId, kptIdx, f, m, kp. rewrite Ee, Em, Ec.
  do 10 (split; [done |]). destruct Hv0 as [Hv0 | [Hn Hv0]]; [by left |].
  right. split; [done |]. by apply Hv.
Qed.

(** The phase of the edges: one observation of a mappoint with a vertex. *)
Lemma add_edge_init (mm : MapManager.t) (h : Heap) (id : Z) (mpt : loc) (mptVertex : Z)
    (m : Mappoint.t) (acc acc' : Backend.t * Z * Z) (obs : Z * Z) :
  graph_ok h acc.1.1 acc.1.2 → graph_from mm acc.1.1 → graph_vertices h acc.1.1 →
  map_Forall (edge_built mm h acc.1.1) (Backend.edgeToKfThenMpt_ acc.1.1) →
  Backend.mptIdToMptThenVertex_ acc.1.1 !! id = Some (mpt, mptVertex) →
  mappoints h !! mpt = Some m →
  Mappoint.GetObservedByKeyframesMap m !! obs.1 = Some obs.2 →
  Backend.add_edge mm h mpt mptVertex acc obs = Ok acc' →
  graph_vertices h acc'.1.1 ∧
  map_Forall (edge_built mm h acc'.1.1) (Backend.edgeToKfThenMpt_ acc'.1.1).
Proof.
  intros Hok Hfrom [Hc Hp Hfx] Hedges Hid Hm Hobs. unfold Backend.add_edge.
  intros Hrun. apply bind_Ok in Hrun as (f & Hf & Hrun).
  apply deref_Ok in Hf as (kf & Hk & Hf). rewrite Hk in Hrun.
  apply bind_Ok in Hrun as (kpt & Hkpt & Hrun).
  pose proof (graph_ok_fresh _ _ _ Hok) as Hfresh.
  destruct (Backend.kfIdToCovKfThenVertex_ acc.1.1 !! obs.1) as [kv|] eqn:Ecov;
    injection Hrun as <-; simpl.
  - assert (kv.1 = kf) as Ekv.
    { pose proof (from_keyframes _ _ Hfrom _ _ Ecov) as Hkv. simpl in Hkv. congruence. }
    split; [by split |].
    intros e x Hx. destruct (decide (acc.2 + 1 = e)) as [<- | Hne].
    + rewrite lookup_insert_eq in Hx. injection Hx as <-.
      eexists _, obs.1, obs.2, f, m, kpt. simpl.
      split; [apply lookup_insert_eq |]. do 8 (split; [done |]).
      split; [by exists id |]. left. rewrite Ecov. destruct kv. simpl in *. by subst.
    + rewrite lookup_insert_ne in Hx by done.
      apply (edge_built_kept mm h acc.1.1); try done.
      * simpl. by rewrite lookup_insert_ne.
      * by apply Hedges.
  - split.
    + split; simpl.
      * intros i y Hy. destruct (Hc i y Hy) as (f' & Hf' & Hv). exists f'.
        split; [done |]. by rewrite lookup_insert_ne by congruence.
      * intros i y Hy. destruct (Hp i y Hy) as (m' & Hm' & Ho' & Hv). exists m'.
        split; [done |]. split; [done |]. by rewrite lookup_insert_ne by congruence.
      * intros i y Hy. destruct (decide (obs.1 = i)) as [<- | Hne].
        -- rewrite lookup_insert_eq in Hy. injection Hy as <-. simpl.
           split; [done |]. exists f. split; [done |]. by rewrite lookup_insert_eq.
        -- rewrite lookup_insert_ne in Hy by done.
           destruct (Hfx i y Hy) as (Hn & f' & Hf' & Hv). split; [done |]. exists f'.
           split; [done |]. by rewrite lookup_insert_ne by congruence.
    + intros e x Hx. destruct (decide (acc.2 + 1 = e)) as [<- | Hne].
      * rewrite lookup_insert_eq in Hx. injection Hx as <-.
        eexists _, obs.1, obs.2, f, m, kpt. simpl.
        split; [apply lookup_insert_eq |]. do 8 (split; [done |]).
        split; [by exists id |]. right. split; [done |]. apply lookup_insert_eq.
      * rewrite lookup_insert_ne in Hx by done.
        apply (edge_built_kept mm h acc.1.1); try done.
        -- simpl. by rewrite lookup_insert_ne.
        -- intros v y Hy. simpl. by rewrite lookup_insert_ne by congruence.
        -- by apply Hedges.
Qed.

Lemma add_edge_maps (mm : MapManager.t) (h : Heap) (mpt : loc) (mptVertex : Z)
    (acc acc' : Backend.t * Z * Z) (obs : Z * Z) :
  Backend.add_edge mm h mpt mptVertex acc obs = Ok acc' →
  Backend.kfIdToCovKfThenVertex_ acc'.1.1 = Backend.kfIdToCovKfThenVertex_ acc.1.1 ∧
  Backend.mptIdToMptThenVertex_ acc'.1.1 = Backend.mptIdToMptThenVertex_ acc.1.1.
Proof.
  unfold Backend.add_edge.
  intros Hrun. apply bind_Ok in Hrun as (f & Hf & Hrun).
  apply bind_Ok in Hrun as (kpt & _ & Hrun).
  destruct (MapManager.GetKeyframe mm obs.1) as [kf|]; [|by injection Hrun as <-].
  destruct (Backend.kfIdToCovKfThenVertex_ acc.1.1 !! obs.1) as [kv|];
    by injection Hrun as <-.
Qed.

Lemma add_mappoint_edges_maps (mm : MapManager.t) (h : Heap)
    (acc acc' : Backend.t * Z * Z) (x : Z * (loc * Z)) :
  Backend.add_mappoint_edges mm h acc x = Ok acc' →
  Backend.kfIdToCovKfThenVertex_ acc'.1.1 = Backend.kfIdToCovKfThenVertex_ acc.1.1 ∧
  Backend.mptIdToMptThenVertex_ acc'.1.1 = Backend.mptIdToMptThenVertex_ acc.1.1.
Proof.
  unfold Backend.add_mappoint_edges.
  intros Hrun. apply bind_Ok in Hrun as (m & _ & Hrun). revert Hrun.
  apply (foldlM_invariant _
           (λ s, Backend.kfIdToCovKfThenVertex_ s.1.1 =
                 Backend.kfIdToCovKfThenVertex_ acc.1.1 ∧
                 Backend.mptIdToMptThenVertex_ s.1.1 =
                 Backend.mptIdToMptThenVertex_ acc.1.1)); [|done].
  intros s a s' _ [E1 E2] Hstep. apply add_edge_maps in Hstep as [E1' E2'].
  split; congruence.
Qed.

Lemma add_mappoint_edges_init (mm : MapManager.t) (h : Heap)
    (acc acc' : Backend.t * Z * Z) (x : Z * (loc * Z)) :
  graph_built mm h acc →
  Backend.mptIdToMptThenVertex_ acc.1.1 !! x.1 = Some x.2 →
  Backend.add_mappoint_edges mm h acc x = Ok acc' →
  graph_built mm h acc'.
Proof.
  intros Hacc Hx. unfold Backend.add_mappoint_edges.
  intros Hrun. apply bind_Ok in Hrun as (m & Hm & Hrun).
  apply deref_Ok in Hm as (l & [= <-] & Hm).
  assert (Hall : graph_built mm h acc' ∧
                 Backend.mptIdToMptThenVertex_ acc'.1.1 =
                 Backend.mptIdToMptThenVertex_ acc.1.1); [|by destruct Hall].
  revert Hrun.
  apply (foldlM_invariant _
           (λ s, graph_built mm h s ∧
                 Backend.mptIdToMptThenVertex_ s.1.1 =
                 Backend.mptIdToMptThenVertex_ acc.1.1)); [|by split].
  intros s [kfId kptIdx] s' Hin [(Hok & Hfrom & Hv & He) Hsame] Hstep.
  apply elem_of_map_to_list in Hin.
  assert (Hentry : Backend.mptIdToMptThenVertex_ s.1.1 !! x.1 = Some (x.2.1, x.2.2)).
  { rewrite Hsame, Hx. by destruct x as [? []]. }
  assert (Hq : is_point (Backend.optimizer_ s.1.1) x.2.2 = true).
  { by destruct (ok_mpt _ _ _ Hok _ _ Hentry). }
  destruct (add_edge_ok mm h x.2.1 x.2.2 s s' (kfId, kptIdx) Hok
              (ex_intro _ m Hm) Hq Hstep) as [Hok' Hsame'].
  destruct (add_edge_init mm h x.1 x.2.1 x.2.2 m s s' (kfId, kptIdx)
              Hok Hfrom Hv He Hentry Hm Hin Hstep) as [Hv' He'].
  split; [|congruence]. split; [done |].
  split; [by apply (add_edge_from mm h x.2.1 x.2.2 s s' (kfId, kptIdx)) |]. by split.
Qed.

(** The graph [build_graph] builds from a backend that was cleaned up. *)
Lemma build_graph_content (b b1 : Backend.t) (mm : MapManager.t) (h : Heap) :
  Backend.build_graph (Backend.CleanUp b) mm h = Ok b1 →
  graph_from mm b1 ∧ graph_vertices h b1 ∧
  map_Forall (edge_built mm h b1) (Backend.edgeToKfThenMpt_ b1).
Proof.
  intros Hbuild. pose proof Hbuild as Hrun. unfold Backend.build_graph in Hrun.
  apply bind_Ok in Hrun as (cur & _ & Hrun).
  apply bind_Ok in Hrun as (bv & Hbv & Hrun).
  apply bind_Ok in Hrun as (bve & Hbve & Hrun). injection Hrun as <-.
  assert (Hv : graph_ok h bv.1 bv.2 ∧ graph_vertices h bv.1 ∧
               Backend.kfIdToFixedKfThenVertex_ bv.1 = ∅ ∧
               Backend.edgeToKfThenMpt_ bv.1 = ∅).
  { revert Hbv.
    apply (foldlM_invariant _
             (λ s, graph_ok h s.1 s.2 ∧ graph_vertices h s.1 ∧
                   Backend.kfIdToFixedKfThenVertex_ s.1 = ∅ ∧
                   Backend.edgeToKfThenMpt_ s.1 = ∅)).
    - intros s a s' _ (Hs & Hi & He). by apply add_keyframe_vertices_init.
    - split; [split; simpl; apply map_Forall_empty |].
      split; [split; simpl; apply map_Forall_empty | done]. }
  destruct Hv as (Hok & Hvert & Ef & Ee).
  assert (Hfrom : graph_from mm bv.1).
  { revert Hbv. apply (foldlM_invariant _ (λ s, graph_from mm s.1)).
    - intros s a s' _. apply add_keyframe_vertices_from.
    - split; simpl; apply map_Forall_empty. }
  assert (Hall : graph_built mm h bve ∧
                 Backend.mptIdToMptThenVertex_ bve.1.1 =
                 Backend.mptIdToMptThenVertex_ bv.1).
  { revert Hbve.
    apply (foldlM_invariant _
             (λ s, graph_built mm h s ∧
                   Backend.mptIdToMptThenVertex_ s.1.1 =
                   Backend.mptIdToMptThenVertex_ bv.1)).
    - intros s [id x] s' Hin [Hs Hsame] Hstep. apply elem_of_map_to_list in Hin.
      assert (Hx : Backend.mptIdToMptThenVertex_ s.1.1 !! (id, x).1 = Some (id, x).2).
      { simpl. by rewrite Hsame. }
      split; [by apply (add_mappoint_edges_init mm h s s' (id, x)) |].
      apply add_mappoint_edges_maps in Hstep as [_ E]. congruence.
    - split; [|done]. split; [done |]. split; [done |]. split; [done |].
      simpl. rewrite Ee. apply map_Forall_empty. }
  by destruct Hall as [(_ & ? & ? & ?) _].
Qed.

End GraphContent.

Lemma foldlM_establish {S A : Type} (f : S → A → result S) (P : S → Prop)
    (a : A) (l : list A) :
  (∀ s a' s', P s → f s a' = Ok s' → P s') →
  (∀ s s', f s a = Ok s' → P s') →
  a ∈ l → ∀ s s', foldlM f s l = Ok s' → P s'.
Proof.
  intros Hkeep Hmake. induction l as [|a0 l IH]; intros Hin s s' Hrun.
  - by apply elem_of_nil in Hin.
  - rewrite foldlM_cons in Hrun. apply bind_Ok in Hrun as (s1 & H1 & Hrun).
    apply elem_of_cons in Hin as [<- | Hin].
    + revert Hrun. apply (foldlM_invariant f P); [|by apply (Hmake s)].
      intros s0 a0 s0' _. apply Hkeep.
    + by apply (IH Hin s1).
Qed.

Lemma add_mappoint_vertex_cov (mm : MapManager.t) (h : Heap)
    (acc acc' : Backend.t * Z) (mptId : Z) :
  Backend.add_mappoint_vertex mm h acc mptId = Ok acc' →
  Backend.kfIdToCovKfThenVertex_ acc'.1 = Backend.kfIdToCovKfThenVertex_ acc.1.
Proof.
  unfold Backend.add_mappoint_vertex.
  destruct (Backend.mptIdToMptThenVertex_ acc.1 !! mptId); [by intros [= <-] |].
  destruct (MapManager.GetMappoint mm mptId) as [mpt|]; [|by intros [= <-]].
  intros Hrun. apply bind_Ok in Hrun as (m & _ & Hrun).
  destruct (Mappoint.outlier_ m); by injection Hrun as <-.
Qed.

Lemma add_keyframe_vertices_cov (mm : MapManager.t) (h : Heap)
    (acc acc' : Backend.t * Z) (kfId id : Z) :
  Backend.add_keyframe_vertices mm h acc kfId = Ok acc' →
  (is_Some (Backend.kfIdToCovKfThenVertex_ acc.1 !! id) ∨
   (id = kfId ∧ is_Some (MapManager.GetKeyframe mm kfId))) →
  is_Some (Backend.kfIdToCovKfThenVertex_ acc'.1 !! id).
Proof.
  unfold Backend.add_keyframe_vertices.
  destruct (MapManager.GetKeyframe mm kfId) as [kf|].
  - intros Hrun Hid. apply bind_Ok in Hrun as (f & _ & Hrun). revert Hrun.
    apply (foldlM_invariant _
             (λ s, is_Some (Backend.kfIdToCovKfThenVertex_ s.1 !! id))).
    + intros s a s' _ Hs Hstep. by rewrite (add_mappoint_vertex_cov _ _ _ _ _ Hstep).
    + simpl. destruct (decide (kfId = id)) as [<- | Hne].
      * rewrite lookup_insert_eq. by eexists.
      * rewrite lookup_insert_ne by done. by destruct Hid as [? | [? _]].
  - intros [= <-] [? | [_ Hk]]; [done |]. by destruct Hk.
Qed.

Section GraphFacts.
Context `{FrameOps} `{g2o.Solver}.

(** X9: in the graph [build_graph] builds, each covisible keyframe that
    the Map Manager holds has a pose vertex at its current pose, fixed
    exactly when its id is 0; each mappoint with a vertex is held by the Map
    Manager, is no outlier, and its vertex is marginalized, at its current
    position; a keyframe with a fixed vertex has no optimised one, and the
    fixed vertex is at its current pose. *)
Theorem X9_vertices_of_the_round (b b1 : Backend.t) (mm : MapManager.t) (h : Heap)
    (Hbuild : Backend.build_graph (Backend.CleanUp b) mm h = Ok b1) :
  (∀ id kf v, Backend.kfIdToCovKfThenVertex_ b1 !! id = Some (kf, v) →
     MapManager.GetKeyframe mm id = Some kf ∧
     ∃ f, frames h !! kf = Some f ∧
          g2o.vertices (Backend.optimizer_ b1) !! v =
            Some (g2o.VertexPose (Frame.GetTcw f) (bool_decide (Frame.GetId f = 0)))) ∧
  (∀ id mpt v, Backend.mptIdToMptThenVertex_ b1 !! id = Some (mpt, v) →
     MapManager.GetMappoint mm id = Some mpt ∧
     ∃ m, mappoints h !! mpt = Some m ∧ Mappoint.outlier_ m = false ∧
          g2o.vertices (Backend.optimizer_ b1) !! v =
            Some (g2o.VertexMappoint (Mappoint.GetPosition m) true)) ∧
  (∀ id kf v, Backend.kfIdToFixedKfThenVertex_ b1 !! id = Some (kf, v) →
     Backend.kfIdToCovKfThenVertex_ b1 !! id = None ∧
     ∃ f, frames h !! kf = Some f ∧
          g2o.vertices (Backend.optimizer_ b1) !! v =
            Some (g2o.VertexPose (Frame.GetTcw f) true)).
Proof.
  destruct (build_graph_content b b1 mm h Hbuild) as ([Fk Fm] & [Hc Hp Hfx] & _).
  split; [|split].
  - intros id kf v Hk. split; [exact (Fk id _ Hk) | exact (Hc id _ Hk)].
  - intros id mpt v Hk. split; [exact (Fm id _ Hk) | exact (Hp id _ Hk)].
  - intros id kf v Hk. exact (Hfx id _ Hk).
Qed.


(** X11: when [build_graph] completes and the Map Manager holds the
    current keyframe under its id, the current keyframe has an optimised
    pose vertex, whatever its active covisible keyframes are. *)
Theorem X11_current_keyframe_has_vertex (b b1 : Backend.t) (mm : MapManager.t)
    (h : Heap) (c kf : loc) (fc : Frame.t)
    (Hbuild : Backend.build_graph (Backend.CleanUp b) mm h = Ok b1)
    (Hc : Backend.keyframeCurr_ b = Some c)
    (Hfc : frames h !! c = Some fc)
    (Hk : MapManager.GetKeyframe mm (Frame.GetId fc) = Some kf) :
  ∃ v, Backend.kfIdToCovKfThenVertex_ b1 !! Frame.GetId fc = Some (kf, v).
Proof.
  destruct (build_graph_content b b1 mm h Hbuild) as ([Fk _] & _ & _).
  assert (Hsome : is_Some (Backend.kfIdToCovKfThenVertex_ b1 !! Frame.GetId fc)).
  { unfold Backend.build_graph in Hbuild. simpl in Hbuild. rewrite Hc in Hbuild.
    rewrite (deref_live _ _ _ Hfc), bind_ret in Hbuild.
    apply bind_Ok in Hbuild as (bv & Hbv & Hrun).
    apply bind_Ok in Hrun as (bve & Hbve & Hrun). injection Hrun as <-.
    assert (Hv : is_Some (Backend.kfIdToCovKfThenVertex_ bv.1 !! Frame.GetId fc)).
    { revert Hbv.
      apply (foldlM_establish _
               (λ s, is_Some (Backend.kfIdToCovKfThenVertex_ s.1 !! Frame.GetId fc))
               (Frame.GetId fc)).
      - intros s a s' Hs Hstep.
        apply (add_keyframe_vertices_cov mm h s s' a _ Hstep). by left.
      - intros s s' Hstep.
        apply (add_keyframe_vertices_cov mm h s s' _ _ Hstep). right.
        split; [done |]. rewrite Hk. by eexists.
      - apply elem_of_elements, elem_of_union. left. by apply elem_of_singleton. }
    revert Hbve.
    apply (foldlM_invariant _
             (λ s, is_Some (Backend.kfIdToCovKfThenVertex_ s.1.1 !! Frame.GetId fc)));
      [|done].
    intros s a s' _ Hs Hstep. apply add_mappoint_edges_maps in Hstep as [E _].
    by rewrite E. }
  destruct Hsome as [[kf' v] Hx]. pose proof (Fk _ _ Hx) as Hkf'. simpl in Hkf'.
  exists v. rewrite Hx. congruence.
Qed.

End GraphFacts.

(** [X9_vertices_of_the_round] on the round of [Scene.ba_heap]. *)
Lemma X9_vertices_of_the_round_witness :
  (∀ id kf v, Backend.kfIdToCovKfThenVertex_ Scene.ba_backend !! id = Some (kf, v) →
     MapManager.GetKeyframe Scene.ba_map id = Some kf ∧
     ∃ f, frames Scene.ba_heap !! kf = Some f ∧
          g2o.vertices (Backend.optimizer_ Scene.ba_backend) !! v =
            Some (g2o.VertexPose (Frame.GetTcw f) (bool_decide (Frame.GetId f = 0)))) ∧
  (∀ id mpt v, Backend.mptIdToMptThenVertex_ Scene.ba_backend !! id = Some (mpt, v) →
     MapManager.GetMappoint Scene.ba_map id = Some mpt ∧
     ∃ m, mappoints Scene.ba_heap !! mpt = Some m ∧ Mappoint.outlier_ m = false ∧
          g2o.vertices (Backend.optimizer_ Scene.ba_backend) !! v =
            Some (g2o.VertexMappoint (Mappoint.GetPosition m) true)) ∧
  (∀ id kf v, Backend.kfIdToFixedKfThenVertex_ Scene.ba_backend !! id = Some (kf, v) →
     Backend.kfIdToCovKfThenVertex_ Scene.ba_backend !! id = None ∧
     ∃ f, frames Scene.ba_heap !! kf = Some f ∧
          g2o.vertices (Backend.optimizer_ Scene.ba_backend) !! v =
            Some (g2o.VertexPose (Frame.GetTcw f) true)).
Proof.
  exact (@X9_vertices_of_the_round Scene.frame_ops Scene.solver
           (Scene.backend0 (Some 1%positive)) Scene.ba_backend Scene.ba_map
           Scene.ba_heap ba_backend_built).
Defined.


(** [X11_current_keyframe_has_vertex] on the round of [Scene.ba_heap]. *)
Lemma X11_current_keyframe_has_vertex_witness :
  ∃ v, Backend.kfIdToCovKfThenVertex_ Scene.ba_backend !! 0 = Some (1%positive, v).
Proof.
  apply (@X11_current_keyframe_has_vertex Scene.frame_ops Scene.solver
           (Scene.backend0 (Some 1%positive)) Scene.ba_backend Scene.ba_map
           Scene.ba_heap 1%positive 1%positive
           (Scene.mkFrame 0 [(3%Q, 4%Q); (11%Q, 1%Q)] [5; 6] [])).
  - exact ba_backend_built.
  - reflexivity.
  - vm_compute. reflexivity.
  - vm_compute. reflexivity.
Defined.

(** ** The fuse step as a whole *)

(** [X6_records_are_matches] on the two keyframes and five mappoints of
    [Scene.fuse_heap]. *)
Lemma X6_records_are_matches_witness :
  ∃ st,
    @Backend.match_new_mappoints Scene.frame_ops 50%Q Scene.fuse_heap
      Scene.fuse_kfs Scene.fuse_mpts = Ok st ∧
    (∀ o n d, Backend.oldMptIdToNewMptIdAndDistance st !! o = Some (n, d) →
       (d <= 50)%Q ∧
       ∃ kf mpt f m k mo,
         kf ∈ Scene.fuse_kfs ∧ mpt ∈ Scene.fuse_mpts ∧
         frames Scene.fuse_heap !! kf = Some f ∧
         mappoints Scene.fuse_heap !! mpt = Some m ∧ n = Mappoint.GetId m ∧
         @GetMatchedKeypoint Scene.frame_ops f m = Some (k, d, mo) ∧
         @IsKeypointMatchWithMappoint Scene.frame_ops f k = Some o) ∧
    (∀ kf mpt k, (kf, mpt, k) ∈ Backend.observationsToAdd st →
       kf ∈ Scene.fuse_kfs ∧ mpt ∈ Scene.fuse_mpts ∧
       ∃ f m d mo,
         frames Scene.fuse_heap !! kf = Some f ∧
         mappoints Scene.fuse_heap !! mpt = Some m ∧
         @GetMatchedKeypoint Scene.frame_ops f m = Some (k, d, mo) ∧ (d <= 50)%Q ∧
         @IsKeypointMatchWithMappoint Scene.frame_ops f k = None).
Proof.
  apply (@X6_records_are_matches Scene.frame_ops).
  - apply (bool_decide_unpack _); vm_compute; exact I.
  - apply (bool_decide_unpack _); vm_compute; exact I.
Defined.

(** [X7_observations_one_to_one] on the two keyframes and five mappoints
    of [Scene.fuse_heap]. *)
Lemma X7_observations_one_to_one_witness :
  ∃ st,
    @Backend.match_new_mappoints Scene.frame_ops 50%Q Scene.fuse_heap
      Scene.fuse_kfs Scene.fuse_mpts = Ok st ∧
    (∀ kf mpt mpt' k,
       (kf, mpt, k) ∈ Backend.observationsToAdd st →
       (kf, mpt', k) ∈ Backend.observationsToAdd st → mpt = mpt') ∧
    (∀ kf mpt k k',
       (kf, mpt, k) ∈ Backend.observationsToAdd st →
       (kf, mpt, k') ∈ Backend.observationsToAdd st → k = k').
Proof.
  apply (@X7_observations_one_to_one Scene.frame_ops).
  - apply (bool_decide_unpack _); vm_compute; exact I.
  - apply (bool_decide_unpack _); vm_compute; exact I.
Defined.

Section FuseRound.
Context `{FrameOps}.

(** X12: when the current keyframe, the keyframes its covisible ids
    resolve to and the new mappoints are alive, lines 81 to 143 of
    [AddNewMappointsToExistingKeyframe] complete, and what they record stays
    inside the round: an observation is added only to a keyframe that a
    covisible id of the current keyframe resolves to, never to the current
    keyframe, and only of a mappoint of [newMptKptIdxMap_]; an old mappoint
    is replaced only by the id of a mappoint of [newMptKptIdxMap_], matched
    within [reMatchDescriptorDistance_]. *)
Theorem X12_fuse_stays_in_the_round (b : Backend.t) (mm : MapManager.t) (h : Heap)
    (c : loc) (fc : Frame.t)
    (Hc : Backend.keyframeCurr_ b = Some c)
    (Hfc : frames h !! c = Some fc)
    (Hlive : ∀ id kf, id ∈ Frame.GetAllCovisibleKfIds fc →
                      MapManager.GetKeyframe mm id = Some kf →
                      is_Some (frames h !! kf))
    (Hnew : ∀ mpt, is_Some (Backend.newMptKptIdxMap_ b !! mpt) →
                   is_Some (mappoints h !! mpt)) :
  ∃ st,
    Backend.AddNewMappointsToExistingKeyframe_match b mm h = Ok st ∧
    (∀ kf mpt k, (kf, mpt, k) ∈ Backend.observationsToAdd st →
       kf ≠ c ∧
       (∃ id, id ∈ Frame.GetAllCovisibleKfIds fc ∧
              MapManager.GetKeyframe mm id = Some kf) ∧
       is_Some (Backend.newMptKptIdxMap_ b !! mpt)) ∧
    (∀ o n d, Backend.oldMptIdToNewMptIdAndDistance st !! o = Some (n, d) →
       (d <= Backend.reMatchDescriptorDistance_ b)%Q ∧
       ∃ mpt m, is_Some (Backend.newMptKptIdxMap_ b !! mpt) ∧
                mappoints h !! mpt = Some m ∧ n = Mappoint.GetId m).
Proof.
  destruct (collect_one_hop mm h (elements (Frame.GetAllCovisibleKfIds fc)) ∅)
    as (r & Hr & Hiff).
  { intros id kf Hid. apply Hlive. by apply elem_of_elements. }
  set (S := Backend.erase_current (Some c) r).
  assert (HS : ∀ kf, kf ∈ S →
            kf ≠ c ∧ ∃ id, id ∈ Frame.GetAllCovisibleKfIds fc ∧
                           MapManager.GetKeyframe mm id = Some kf).
  { intros kf [Hin Hne]%erase_current_elem. split; [done |].
    apply Hiff in Hin as [Hin | (id & Hid & Hk)]; [by apply not_elem_of_empty in Hin |].
    exists id. split; [by apply elem_of_elements | done]. }
  assert (Hdom : ∀ mpt, mpt ∈ (map_to_list (Backend.newMptKptIdxMap_ b)).*1 →
            is_Some (Backend.newMptKptIdxMap_ b !! mpt)).
  { intros mpt Hin. apply list_elem_of_fmap in Hin as ([mpt' k] & -> & Hin).
    apply elem_of_map_to_list in Hin. simpl. by eexists. }
  destruct (matching_records (Backend.reMatchDescriptorDistance_ b) h (elements S)
              ((map_to_list (Backend.newMptKptIdxMap_ b)).*1))
    as (st & Hst & Hold & Hobs).
  { apply Forall_forall. intros kf Hkf%elem_of_elements.
    destruct (HS kf Hkf) as (_ & id & Hid & Hk). by apply (Hlive id). }
  { apply Forall_forall. intros mpt Hin. by apply Hnew, Hdom. }
  exists st. split; [|split].
  - unfold Backend.AddNewMappointsToExistingKeyframe_match, Backend.covisibleKfs_of.
    rewrite Hc, (deref_live _ _ _ Hfc), bind_ret, Hr. exact Hst.
  - intros kf mpt k Hin. apply Hobs in Hin as (Hkf%elem_of_elements & d & Hk).
    destruct (HS kf Hkf) as [Hne Hid]. split; [done |]. split; [done |].
    apply offer_fold, first_smallest_elem in Hk. unfold kpt_candidates in Hk.
    apply list_elem_of_bind in Hk as (mpt0 & Hk & Hmpt).
    apply kpt_candidate_elem in Hk as (-> & _). by apply Hdom.
  - intros o n d Hk. destruct (Hold o n d Hk) as (kf & mpt & Hkf & Hmpt & Hin).
    apply old_candidate_elem in Hin as (f & m & k & mo & Hf & Hm & Hg & Ht & Hi & Hn).
    split; [by apply Qgtb_false |]. exists mpt, m. split; [by apply Hdom | done].
Qed.

End FuseRound.

(** [X12_fuse_stays_in_the_round] on the round of [Scene.fuse_round_heap]:
    the current keyframe is covisible with two keyframes the Map Manager
    holds and with one it does not hold. *)
Lemma X12_fuse_stays_in_the_round_witness :
  ∃ st,
    @Backend.AddNewMappointsToExistingKeyframe_match Scene.frame_ops
      Scene.fuse_round_backend Scene.fuse_round_map Scene.fuse_round_heap = Ok st ∧
    (∀ kf mpt k, (kf, mpt, k) ∈ Backend.observationsToAdd st →
       kf ≠ 1%positive ∧
       (∃ id, id ∈ Frame.GetAllCovisibleKfIds
                     (Scene.mkFrame 0 [] [] [(1, 20); (2, 20); (9, 15)]) ∧
              MapManager.GetKeyframe Scene.fuse_round_map id = Some kf) ∧
       is_Some (Backend.newMptKptIdxMap_ Scene.fuse_round_backend !! mpt)) ∧
    (∀ o n d, Backend.oldMptIdToNewMptIdAndDistance st !! o = Some (n, d) →
       (d <= Backend.reMatchDescriptorDistance_ Scene.fuse_round_backend)%Q ∧
       ∃ mpt m, is_Some (Backend.newMptKptIdxMap_ Scene.fuse_round_backend !! mpt) ∧
                mappoints Scene.fuse_round_heap !! mpt = Some m ∧
                n = Mappoint.GetId m).
Proof.
  apply (@X12_fuse_stays_in_the_round Scene.frame_ops Scene.fuse_round_backend
           Scene.fuse_round_map Scene.fuse_round_heap 1%positive
           (Scene.mkFrame 0 [] [] [(1, 20); (2, 20); (9, 15)])).
  - reflexivity.
  - vm_compute. reflexivity.
  - intros id kf Hid Hk.
    unfold MapManager.GetKeyframe in Hk. simpl in Hk.
    repeat (apply lookup_insert_Some in Hk as [[<- <-] | [_ Hk]];
            [eexists; vm_compute; reflexivity |]).
    by rewrite lookup_empty in Hk.
  - intros mpt [k Hk]. simpl in Hk.
    repeat (apply lookup_insert_Some in Hk as [[<- <-] | [_ Hk]];
            [eexists; vm_compute; reflexivity |]).
    by rewrite lookup_empty in Hk.
Defined.

(** ** The edges after the two passes *)

Lemma fst_map_to_list_lookup `{Countable K} {V : Type} (m : gmap K V) (k : K) :
  k ∈ (map_to_list m).*1 → is_Some (m !! k).
Proof.
  intros Hin. apply list_elem_of_fmap in Hin as ([k' v] & -> & Hin).
  apply elem_of_map_to_list in Hin. by eexists.
Qed.

Section Levels.
Context `{g2o.Solver}.

Lemma computeError_measurement (o : g2o.SparseOptimizer) (ed ec : g2o.Edge) :
  g2o.computeError o ed = Ok ec → g2o.measurement ec = g2o.measurement ed.
Proof.
  unfold g2o.computeError.
  destruct (g2o.vertices o !! g2o.vertex0 ed) as [[T fx | ? ?]|]; try done.
  destruct (g2o.vertices o !! g2o.vertex1 ed) as [[? ? | P mg]|]; try done.
  by intros [= <-].
Qed.

(** X13: after the two passes an edge of the round has no robust kernel,
    and its level is the one the first sweep left: 1 when its squared error
    after the first 10 iterations exceeded [chi2Threshold_], its former
    level otherwise. The second sweep excludes no edge, whatever the error
    it finds. The ends and the measurement of the edge are as before, and an
    edge that [edgeToKfThenMpt_] does not record is untouched. *)
Theorem X13_levels_set_by_first_sweep (b : Backend.t) (h : Heap)
    (Hready : map_Forall (edge_ready (Backend.optimizer_ b) h)
                (Backend.edgeToKfThenMpt_ b)) :
  ∃ b' h',
    Backend.two_pass b h = Ok (b', h') ∧
    (∀ e kf mpt, Backend.edgeToKfThenMpt_ b !! e = Some (kf, mpt) →
       ∃ ed ec ed',
         g2o.edges (Backend.optimizer_ b) !! e = Some ed ∧
         g2o.computeError (g2o.optimize 10 (Backend.optimizer_ b)) ed = Ok ec ∧
         g2o.edges (Backend.optimizer_ b') !! e = Some ed' ∧
         g2o.level ed' =
           (if Qgtb (g2o.chi2 ec) (Backend.chi2Threshold_ b) then 1
            else g2o.level ed) ∧
         g2o.robustKernel ed' = None ∧
         g2o.vertex0 ed' = g2o.vertex0 ed ∧
         g2o.vertex1 ed' = g2o.vertex1 ed ∧
         g2o.measurement ed' = g2o.measurement ed) ∧
    (∀ e, Backend.edgeToKfThenMpt_ b !! e = None →
          g2o.edges (Backend.optimizer_ b') !! e =
          g2o.edges (Backend.optimizer_ b) !! e).
Proof.
  destruct (sweep1_loop (Backend.chi2Threshold_ b)
              (map_to_list (Backend.edgeToKfThenMpt_ b))
              (Backend.mkSweep (g2o.optimize 10 (Backend.optimizer_ b)) h 0))
    as (s1 & Hs1 & _ & _ & _ & Hout1 & Hin1).
  { apply NoDup_fst_map_to_list. }
  { intros [e x] Hx. apply elem_of_map_to_list in Hx. simpl.
    apply edge_ready_optimize. exact (Hready e x Hx). }
  destruct (pass1_ready b h Hready) as (s1' & Hs1' & Hready1).
  unfold Backend.pass1 in Hs1'. rewrite Hs1 in Hs1'. injection Hs1' as <-.
  destruct (sweep2_loop (Backend.chi2Threshold_ b)
              (map_to_list (Backend.edgeToKfThenMpt_ b))
              (Backend.mkSweep (g2o.optimize 10 (Backend.sw_optimizer s1))
                 (Backend.sw_heap s1) (Backend.outlierCnt s1)))
    as (s2 & Hs2 & _ & _ & _ & Hout2 & Hin2).
  { apply NoDup_fst_map_to_list. }
  { intros x Hx. simpl. apply edge_ready_optimize. by apply Hready1. }
  eexists _, _. split; [|split].
  - unfold Backend.two_pass, Backend.pass1, Backend.pass2.
    rewrite Hs1. simpl. rewrite Hs2. reflexivity.
  - intros e kf mpt Hk. apply elem_of_map_to_list in Hk.
    destruct (Hin1 _ Hk) as (ed & ec & _ & _ & Hed & Hec & _ & _ & Hed1 & _).
    destruct (Hin2 _ Hk) as (ed1 & ec2 & _ & _ & Hed1' & Hec2 & Hed2 & _).
    simpl in *. rewrite Hed1 in Hed1'. injection Hed1' as <-.
    destruct (computeError_level _ _ _ Hec) as (Hl & Hr & _).
    destruct (computeError_ends _ _ _ Hec) as [E0 E1].
    pose proof (computeError_measurement _ _ _ Hec) as Em.
    destruct (computeError_level _ _ _ Hec2) as (Hl2 & Hr2 & _).
    destruct (computeError_ends _ _ _ Hec2) as [E02 E12].
    pose proof (computeError_measurement _ _ _ Hec2) as Em2.
    exists ed, ec, ec2. split; [done |]. split; [done |]. split; [done |].
    rewrite Hl2, Hr2, E02, E12, Em2.
    destruct (Qgtb (g2o.chi2 ec) (Backend.chi2Threshold_ b)); simpl;
      by rewrite ?Hl, E0, E1, Em.
  - intros e Hk. simpl.
    assert (Hnin : e ∉ (map_to_list (Backend.edgeToKfThenMpt_ b)).*1).
    { intros [x Hx]%fst_map_to_list_lookup. congruence. }
    rewrite (Hout2 e Hnin). simpl. by rewrite (Hout1 e Hnin).
Qed.

End Levels.

(** [X13_levels_set_by_first_sweep] on the graph of [Scene.ba_backend]. *)
Lemma X13_levels_set_by_first_sweep_witness :
  ∃ b' h',
    @Backend.two_pass Scene.solver Scene.ba_backend Scene.ba_heap = Ok (b', h') ∧
    (∀ e kf mpt, Backend.edgeToKfThenMpt_ Scene.ba_backend !! e = Some (kf, mpt) →
       ∃ ed ec ed',
         g2o.edges (Backend.optimizer_ Scene.ba_backend) !! e = Some ed ∧
         @g2o.computeError Scene.solver
           (@g2o.optimize Scene.solver 10 (Backend.optimizer_ Scene.ba_backend)) ed =
           Ok ec ∧
         g2o.edges (Backend.optimizer_ b') !! e = Some ed' ∧
         g2o.level ed' =
           (if Qgtb (g2o.chi2 ec) (Backend.chi2Threshold_ Scene.ba_backend) then 1
            else g2o.level ed) ∧
         g2o.robustKernel ed' = None ∧
         g2o.vertex0 ed' = g2o.vertex0 ed ∧
         g2o.vertex1 ed' = g2o.vertex1 ed ∧
         g2o.measurement ed' = g2o.measurement ed) ∧
    (∀ e, Backend.edgeToKfThenMpt_ Scene.ba_backend !! e = None →
          g2o.edges (Backend.optimizer_ b') !! e =
          g2o.edges (Backend.optimizer_ Scene.ba_backend) !! e).
Proof. apply (@X13_levels_set_by_first_sweep Scene.solver). apply ba_scene_ready. Defined.

(** ** A whole round, from the graph to the handoff *)

Lemma one_id_each_NoDup (m : gmap Z loc) :
  NoDup (map_to_list m).*2 → one_id_each m.
Proof.
  intros Hnd i j l Hi Hj.
  apply elem_of_map_to_list, list_elem_of_lookup_1 in Hi as [a Ha].
  apply elem_of_map_to_list, list_elem_of_lookup_1 in Hj as [c Hc].
  assert (a = c) as ->.
  { apply (NoDup_lookup _ a c l Hnd); rewrite list_lookup_fmap.
    - by rewrite Ha.
    - by rewrite Hc. }
  congruence.
Qed.

Lemma handoff_runs (b : Backend.t) (mm : MapManager.t) (h : Heap)
    (refKeyframe : ptr) (trackingMap : gmap Z loc) :
  ref_ready b h refKeyframe →
  entries_ready (is_pose (Backend.optimizer_ b)) (frames h)
    (Backend.kfIdToCovKfThenVertex_ b) →
  entries_ready (is_point (Backend.optimizer_ b)) (mappoints h)
    (Backend.mptIdToMptThenVertex_ b) →
  ∃ front fr mp,
    Backend.UpdateFrontendTrackingMap b mm h refKeyframe trackingMap =
      Ok (front, mkHeap fr mp) ∧
    foldlM (Backend.write_pose (Backend.optimizer_ b)) (frames h)
      (map_to_list (Backend.kfIdToCovKfThenVertex_ b)) = Ok fr ∧
    foldlM (Backend.write_position (Backend.optimizer_ b)) (mappoints h)
      (map_to_list (Backend.mptIdToMptThenVertex_ b)) = Ok mp.
Proof.
  intros Href Hkf Hmp.
  destruct (must_reset_total b h refKeyframe Href) as [reset Hreset].
  destruct (reset_tracking_map b mm h Hmp) as (S & _ & HS).
  destruct (write_back b h Hkf Hmp) as (fr & mp & Hfr & Hmp' & _).
  assert (Hfront : ∃ front,
    (if reset then Backend.reset_tracking b mm h
                     (map_to_list (Backend.mptIdToMptThenVertex_ b))
     else Ok (refKeyframe, trackingMap)) = Ok front).
  { destruct reset; by eexists. }
  destruct Hfront as [front Hfront].
  exists front, fr, mp. split; [|done].
  unfold Backend.UpdateFrontendTrackingMap, Backend.handoff.
  rewrite Hreset. simpl. rewrite Hfront. simpl. rewrite Hfr. simpl.
  rewrite Hmp'. reflexivity.
Qed.

Section Round.
Context `{FrameOps} `{g2o.Solver}.

Lemma optimize_fixed (n : nat) (o : g2o.SparseOptimizer) (v : Z) (e : SE3) :
  g2o.vertices o !! v = Some (g2o.VertexPose e true) →
  g2o.vertices (g2o.optimize n o) !! v = Some (g2o.VertexPose e true).
Proof. intros Hv. unfold g2o.optimize. simpl. by rewrite map_lookup_imap, Hv. Qed.

Lemma sweep1_step_vertices (th : Q) (s s' : Backend.Sweep) (x : Z * (loc * loc)) :
  Backend.sweep1_step th s x = Ok s' →
  g2o.vertices (Backend.sw_optimizer s') = g2o.vertices (Backend.sw_optimizer s).
Proof.
  unfold Backend.sweep1_step. intros Hrun.
  apply bind_Ok in Hrun as (e0 & _ & Hrun). apply bind_Ok in Hrun as (e & _ & Hrun).
  apply bind_Ok in Hrun as (r & _ & Hrun). by injection Hrun as <-.
Qed.

Lemma sweep2_step_vertices (th : Q) (s s' : Backend.Sweep) (x : Z * (loc * loc)) :
  Backend.sweep2_step th s x = Ok s' →
  g2o.vertices (Backend.sw_optimizer s') = g2o.vertices (Backend.sw_optimizer s).
Proof.
  unfold Backend.sweep2_step. intros Hrun.
  apply bind_Ok in Hrun as (e0 & _ & Hrun). apply bind_Ok in Hrun as (e & _ & Hrun).
  apply bind_Ok in Hrun as (r & _ & Hrun). apply bind_Ok in Hrun as (m & _ & Hrun).
  by injection Hrun as <-.
Qed.

(** The two passes do not move a fixed vertex, and they keep the current
    keyframe. *)
Lemma two_pass_fixed (b b' : Backend.t) (h h' : Heap) :
  Backend.two_pass b h = Ok (b', h') →
  Backend.keyframeCurr_ b' = Backend.keyframeCurr_ b ∧
  ∀ v e, g2o.vertices (Backend.optimizer_ b) !! v = Some (g2o.VertexPose e true) →
         g2o.vertices (Backend.optimizer_ b') !! v = Some (g2o.VertexPose e true).
Proof.
  unfold Backend.two_pass, Backend.pass1, Backend.pass2. intros Hrun.
  apply bind_Ok in Hrun as (s1 & Hs1 & Hrun). apply bind_Ok in Hrun as (s2 & Hs2 & Hrun).
  injection Hrun as <- <-. split; [done |]. intros v e Hv. simpl.
  assert (E1 : g2o.vertices (Backend.sw_optimizer s1) =
               g2o.vertices (g2o.optimize 10 (Backend.optimizer_ b))).
  { revert Hs1.
    apply (foldlM_invariant _
             (λ s, g2o.vertices (Backend.sw_optimizer s) =
                   g2o.vertices (g2o.optimize 10 (Backend.optimizer_ b)))); [|done].
    intros s a s' _ Hs Hstep. by rewrite (sweep1_step_vertices _ _ _ _ Hstep). }
  assert (E2 : g2o.vertices (Backend.sw_optimizer s2) =
               g2o.vertices (g2o.optimize 10 (Backend.sw_optimizer s1))).
  { revert Hs2.
    apply (foldlM_invariant _
             (λ s, g2o.vertices (Backend.sw_optimizer s) =
                   g2o.vertices (g2o.optimize 10 (Backend.sw_optimizer s1)))); [|done].
    intros s a s' _ Hs Hstep. by rewrite (sweep2_step_vertices _ _ _ _ Hstep). }
  rewrite E2. apply optimize_fixed. rewrite E1. by apply optimize_fixed.
Qed.

(** Once the graph is built, the two passes and the handoff complete. *)
Lemma round_runs (b b1 : Backend.t) (mm : MapManager.t) (h : Heap)
    (refKeyframe : ptr) (trackingMap : gmap Z loc) :
  one_id_each (MapManager.keyframes_ mm) →
  one_id_each (MapManager.mappoints_ mm) →
  Backend.build_graph (Backend.CleanUp b) mm h = Ok b1 →
  ref_ready b1 h refKeyframe →
  ∃ b' h' front fr mp,
    Backend.two_pass b1 h = Ok (b', h') ∧
    Backend.OptimizeLocalMap (Backend.CleanUp b) mm h = Ok (b', h') ∧
    Backend.UpdateFrontendTrackingMap b' mm h' refKeyframe trackingMap =
      Ok (front, mkHeap fr mp) ∧
    entries_ready (is_pose (Backend.optimizer_ b')) (frames h')
      (Backend.kfIdToCovKfThenVertex_ b') ∧
    entries_ready (is_point (Backend.optimizer_ b')) (mappoints h')
      (Backend.mptIdToMptThenVertex_ b') ∧
    foldlM (Backend.write_pose (Backend.optimizer_ b')) (frames h')
      (map_to_list (Backend.kfIdToCovKfThenVertex_ b')) = Ok fr ∧
    foldlM (Backend.write_position (Backend.optimizer_ b')) (mappoints h')
      (map_to_list (Backend.mptIdToMptThenVertex_ b')) = Ok mp ∧
    frames_shrink (frames h) (frames h') ∧
    mappoints_marked (mappoints h) (mappoints h').
Proof.
  intros Hkf Hmp Hbuild Href.
  destruct (OptimizeLocalMap_then_handoff b b1 mm h Hkf Hmp Hbuild)
    as (b' & h' & Hrun & Hr1 & Hr2).
  assert (Htwo : Backend.two_pass b1 h = Ok (b', h')).
  { unfold Backend.OptimizeLocalMap in Hrun. by rewrite Hbuild in Hrun. }
  destruct (build_graph_ready _ _ _ _ Hbuild) as [vi [_ _ _ He]].
  destruct (two_pass_keeps b1 h He) as (b2 & h2 & Htwo' & _ & _ & _ & _ & Hfs & Hms).
  rewrite Htwo in Htwo'. injection Htwo' as <- <-.
  destruct (two_pass_fixed _ _ _ _ Htwo) as [Hcur _].
  destruct (handoff_runs b' mm h' refKeyframe trackingMap) as (front & fr & mp & Hh & Hfr & Hmp');
    [|done|done|].
  { destruct refKeyframe as [r|]; [|done]. destruct Href as [[f Hf] Hc]. split.
    - destruct (Hfs _ _ Hf) as (f' & -> & _). by eexists.
    - rewrite Hcur. destruct (Backend.keyframeCurr_ b1) as [c|]; [|done].
      destruct Hc as [fc Hfc]. destruct (Hfs _ _ Hfc) as (f' & -> & _). by eexists. }
  by exists b', h', front, fr, mp.
Qed.

(** X14: once the graph of the round is built, [OptimizeLocalMap]
    completes: every null dereference and every missing vertex it can meet
    lies in the construction of the graph, none in the two passes. What it
    leaves is what the handoff reads: the current keyframe and the two maps
    of entities are those of the graph; provided the Map Manager holds no
    entity under two ids, every entry of the two maps designates a live
    entity and a vertex of its kind, and no entity is entered twice. The
    two passes free no keyframe and no mappoint, and leave every mappoint
    its id. *)
Theorem X14_optimisation_completes (b b1 : Backend.t) (mm : MapManager.t)
    (h : Heap)
    (Hkf : one_id_each (MapManager.keyframes_ mm))
    (Hmp : one_id_each (MapManager.mappoints_ mm))
    (Hbuild : Backend.build_graph (Backend.CleanUp b) mm h = Ok b1) :
  ∃ b' h',
    Backend.OptimizeLocalMap (Backend.CleanUp b) mm h = Ok (b', h') ∧
    Backend.keyframeCurr_ b' = Backend.keyframeCurr_ b1 ∧
    Backend.kfIdToCovKfThenVertex_ b' = Backend.kfIdToCovKfThenVertex_ b1 ∧
    Backend.mptIdToMptThenVertex_ b' = Backend.mptIdToMptThenVertex_ b1 ∧
    entries_ready (is_pose (Backend.optimizer_ b')) (frames h')
      (Backend.kfIdToCovKfThenVertex_ b') ∧
    entries_ready (is_point (Backend.optimizer_ b')) (mappoints h')
      (Backend.mptIdToMptThenVertex_ b') ∧
    (∀ l, is_Some (frames h !! l) → is_Some (frames h' !! l)) ∧
    (∀ l m, mappoints h !! l = Some m →
       ∃ m', mappoints h' !! l = Some m' ∧ Mappoint.id_ m' = Mappoint.id_ m).
Proof.
  destruct (OptimizeLocalMap_then_handoff b b1 mm h Hkf Hmp Hbuild)
    as (b' & h' & Hrun & Hr1 & Hr2).
  assert (Htwo : Backend.two_pass b1 h = Ok (b', h')).
  { unfold Backend.OptimizeLocalMap in Hrun. by rewrite Hbuild in Hrun. }
  destruct (build_graph_ready _ _ _ _ Hbuild) as [vi [_ _ _ He]].
  destruct (two_pass_keeps b1 h He) as (b2 & h2 & Htwo' & Ec & Em & _ & _ & Hfs & Hms).
  rewrite Htwo in Htwo'. injection Htwo' as <- <-.
  destruct (two_pass_fixed _ _ _ _ Htwo) as [Hcur _].
  exists b', h'. do 6 (split; [done |]). split.
  - intros l [f Hf]. destruct (Hfs _ _ Hf) as (f' & -> & _). by eexists.
  - intros l m Hm. destruct (Hms _ _ Hm) as (m' & Hm' & Hid & _). by exists m'.
Qed.

(** X15: a round does not move a keyframe whose id is 0. Its pose vertex
    is fixed when the graph is built, the two passes leave the estimate of a
    fixed vertex where it is, and the handoff writes that estimate back:
    after the round the pose of the keyframe is its pose before. *)
Theorem X15_first_keyframe_pose_kept (b b1 : Backend.t) (mm : MapManager.t)
    (h : Heap) (refKeyframe : ptr) (trackingMap : gmap Z loc)
    (id : Z) (kf : loc) (v : Z) (f : Frame.t)
    (Hkf : one_id_each (MapManager.keyframes_ mm))
    (Hmp : one_id_each (MapManager.mappoints_ mm))
    (Hbuild : Backend.build_graph (Backend.CleanUp b) mm h = Ok b1)
    (Href : ref_ready b1 h refKeyframe)
    (Hk : Backend.kfIdToCovKfThenVertex_ b1 !! id = Some (kf, v))
    (Hf : frames h !! kf = Some f)
    (Hzero : Frame.GetId f = 0) :
  ∃ b' h' front h'' f'',
    Backend.OptimizeLocalMap (Backend.CleanUp b) mm h = Ok (b', h') ∧
    Backend.UpdateFrontendTrackingMap b' mm h' refKeyframe trackingMap =
      Ok (front, h'') ∧
    frames h'' !! kf = Some f'' ∧
    Frame.GetTcw f'' = Frame.GetTcw f.
Proof.
  destruct (round_runs b b1 mm h refKeyframe trackingMap Hkf Hmp Hbuild Href)
    as (b' & h' & front & fr & mp & Htwo & Hrun & Hh & Hr1 & Hr2 & Hfr & _).
  destruct (write_back b' h' Hr1 Hr2) as (fr2 & mp2 & Hfr2 & _ & _ & Hin1 & _).
  rewrite Hfr in Hfr2. injection Hfr2 as <-.
  destruct (build_graph_content b b1 mm h Hbuild) as (_ & [Hc _ _] & _).
  destruct (Hc id _ Hk) as (f0 & Hf0 & Hv). simpl in Hf0, Hv.
  rewrite Hf in Hf0. injection Hf0 as <-.
  rewrite bool_decide_eq_true_2 in Hv by done.
  destruct (two_pass_fixed _ _ _ _ Htwo) as [_ Hfix]. apply Hfix in Hv.
  assert (Hk' : Backend.kfIdToCovKfThenVertex_ b' !! id = Some (kf, v)).
  { unfold Backend.two_pass in Htwo.
    apply bind_Ok in Htwo as (s1 & _ & Htwo). apply bind_Ok in Htwo as (s2 & _ & Htwo).
    by injection Htwo as <- <-. }
  destruct (Hin1 id kf v Hk') as (f' & est & Hf' & Hest & Hfr').
  unfold g2o.pose_estimate in Hest. rewrite Hv in Hest. injection Hest as <-.
  exists b', h', front, (mkHeap fr mp), (Frame.SetTcw (Frame.GetTcw f) f').
  by repeat split.
Qed.

End Round.

(** The Map Manager of [Scene.ba_map] holds no entity under two ids. *)
Lemma ba_map_one_id_each :
  one_id_each (MapManager.keyframes_ Scene.ba_map) ∧
  one_id_each (MapManager.mappoints_ Scene.ba_map).
Proof.
  split; apply one_id_each_NoDup; apply (bool_decide_unpack _); vm_compute; exact I.
Defined.

(** [X14_optimisation_completes] on the round of [Scene.ba_heap]. *)
Lemma X14_optimisation_completes_witness :
  ∃ b' h',
    @Backend.OptimizeLocalMap Scene.frame_ops Scene.solver
      (Backend.CleanUp (Scene.backend0 (Some 1%positive))) Scene.ba_map Scene.ba_heap =
      Ok (b', h') ∧
    Backend.keyframeCurr_ b' = Backend.keyframeCurr_ Scene.ba_backend ∧
    Backend.kfIdToCovKfThenVertex_ b' =
      Backend.kfIdToCovKfThenVertex_ Scene.ba_backend ∧
    Backend.mptIdToMptThenVertex_ b' = Backend.mptIdToMptThenVertex_ Scene.ba_backend ∧
    entries_ready (is_pose (Backend.optimizer_ b')) (frames h')
      (Backend.kfIdToCovKfThenVertex_ b') ∧
    entries_ready (is_point (Backend.optimizer_ b')) (mappoints h')
      (Backend.mptIdToMptThenVertex_ b') ∧
    (∀ l, is_Some (frames Scene.ba_heap !! l) → is_Some (frames h' !! l)) ∧
    (∀ l m, mappoints Scene.ba_heap !! l = Some m →
       ∃ m', mappoints h' !! l = Some m' ∧ Mappoint.id_ m' = Mappoint.id_ m).
Proof.
  apply (@X14_optimisation_completes Scene.frame_ops Scene.solver
           (Scene.backend0 (Some 1%positive)) Scene.ba_backend).
  - apply ba_map_one_id_each.
  - apply ba_map_one_id_each.
  - exact ba_backend_built.
Defined.

(** [X15_first_keyframe_pose_kept] on the round of [Scene.ba_heap], whose
    current keyframe has id 0 and is the reference keyframe of the
    frontend. *)
Lemma X15_first_keyframe_pose_kept_witness :
  ∃ b' h' front h'' f'',
    @Backend.OptimizeLocalMap Scene.frame_ops Scene.solver
      (Backend.CleanUp (Scene.backend0 (Some 1%positive))) Scene.ba_map Scene.ba_heap =
      Ok (b', h') ∧
    Backend.UpdateFrontendTrackingMap b' Scene.ba_map h' (Some 1%positive) ∅ =
      Ok (front, h'') ∧
    frames h'' !! 1%positive = Some f'' ∧
    Frame.GetTcw f'' =
      Frame.GetTcw (Scene.mkFrame 0 [(3%Q, 4%Q); (11%Q, 1%Q)] [5; 6] []).
Proof.
  apply (@X15_first_keyframe_pose_kept Scene.frame_ops Scene.solver
           (Scene.backend0 (Some 1%positive)) Scene.ba_backend Scene.ba_map
           Scene.ba_heap (Some 1%positive) ∅ 0 1%positive 1).
  - apply ba_map_one_id_each.
  - apply ba_map_one_id_each.
  - exact ba_backend_built.
  - simpl. split; apply (bool_decide_unpack _); vm_compute; exact I.
  - reflexivity.
  - vm_compute. reflexivity.
  - reflexivity.
Defined.

(** ** The vertices of the round: one for each entity *)

Lemma recorded_cov_le (h : Heap) (b : Backend.t) (vi id : Z) (x : loc * Z) :
  graph_ok h b vi → Backend.kfIdToCovKfThenVertex_ b !! id = Some x → x.2 ≤ vi.
Proof.
  intros [Hv Hc _ _] Hk. destruct (Hc id x Hk) as [_ Hp]. unfold is_pose in Hp.
  destruct (g2o.vertices (Backend.optimizer_ b) !! x.2) eqn:E; [|done].
  by apply (Hv _ _ E).
Qed.

Lemma recorded_mpt_le (h : Heap) (b : Backend.t) (vi id : Z) (x : loc * Z) :
  graph_ok h b vi → Backend.mptIdToMptThenVertex_ b !! id = Some x → x.2 ≤ vi.
Proof.
  intros [Hv _ Hm _] Hk. destruct (Hm id x Hk) as [_ Hp]. unfold is_point in Hp.
  destruct (g2o.vertices (Backend.optimizer_ b) !! x.2) eqn:E; [|done].
  by apply (Hv _ _ E).
Qed.

Lemma own_vertex_insert (m : gmap Z (loc * Z)) (id vi : Z) (x : loc * Z) :
  own_vertex m → (∀ id' y, m !! id' = Some y → y.2 ≤ vi) → x.2 = vi + 1 →
  own_vertex (<[id := x]> m).
Proof.
  intros Hown Hle Hx id1 id2 x1 x2 H1 H2 E.
  destruct (decide (id = id1)) as [<- | Hn1], (decide (id = id2)) as [<- | Hn2];
    [done | | |].
  - rewrite lookup_insert_eq in H1. injection H1 as <-.
    rewrite lookup_insert_ne in H2 by done. apply Hle in H2. lia.
  - rewrite lookup_insert_eq in H2. injection H2 as <-.
    rewrite lookup_insert_ne in H1 by done. apply Hle in H1. lia.
  - rewrite lookup_insert_ne in H1, H2 by done. by apply (Hown id1 id2 x1 x2).
Qed.

Lemma add_mappoint_vertex_own (mm : MapManager.t) (h : Heap)
    (acc acc' : Backend.t * Z) (mptId : Z) :
  graph_ok h acc.1 acc.2 →
  own_vertex (Backend.kfIdToCovKfThenVertex_ acc.1) ∧
  own_vertex (Backend.mptIdToMptThenVertex_ acc.1) →
  Backend.add_mappoint_vertex mm h acc mptId = Ok acc' →
  own_vertex (Backend.kfIdToCovKfThenVertex_ acc'.1) ∧
  own_vertex (Backend.mptIdToMptThenVertex_ acc'.1).
Proof.
  intros Hok [Hc Hm]. unfold Backend.add_mappoint_vertex.
  destruct (Backend.mptIdToMptThenVertex_ acc.1 !! mptId); [by intros [= <-] |].
  destruct (MapManager.GetMappoint mm mptId) as [mpt|]; [|by intros [= <-]].
  intros Hrun. apply bind_Ok in Hrun as (m & _ & Hrun).
  destruct (Mappoint.outlier_ m); injection Hrun as <-; [done |]. simpl.
  split; [done |]. apply (own_vertex_insert _ _ acc.2); [done | | done].
  intros id' y. apply (recorded_mpt_le h _ _ _ _ Hok).
Qed.

Lemma add_keyframe_vertices_own (mm : MapManager.t) (h : Heap)
    (acc acc' : Backend.t * Z) (kfId : Z) :
  graph_ok h acc.1 acc.2 →
  own_vertex (Backend.kfIdToCovKfThenVertex_ acc.1) ∧
  own_vertex (Backend.mptIdToMptThenVertex_ acc.1) →
  Backend.add_keyframe_vertices mm h acc kfId = Ok acc' →
  own_vertex (Backend.kfIdToCovKfThenVertex_ acc'.1) ∧
  own_vertex (Backend.mptIdToMptThenVertex_ acc'.1).
Proof.
  intros Hok [Hc Hm] Hrun.
  assert (Hall : graph_ok h acc'.1 acc'.2 ∧
                 own_vertex (Backend.kfIdToCovKfThenVertex_ acc'.1) ∧
                 own_vertex (Backend.mptIdToMptThenVertex_ acc'.1)); [|by destruct Hall].
  revert Hrun. unfold Backend.add_keyframe_vertices.
  destruct (MapManager.GetKeyframe mm kfId) as [kf|]; [|by intros [= <-]].
  intros Hrun. apply bind_Ok in Hrun as (f & Hf & Hrun).
  apply deref_Ok in Hf as (l & [= <-] & Hf).
  revert Hrun.
  apply (foldlM_invariant _
           (λ s, graph_ok h s.1 s.2 ∧
                 own_vertex (Backend.kfIdToCovKfThenVertex_ s.1) ∧
                 own_vertex (Backend.mptIdToMptThenVertex_ s.1))).
  - intros s a s' _ [Hs Hown] Hstep. split.
    + by apply (add_mappoint_vertex_ok mm h s s' a).
    + by apply (add_mappoint_vertex_own mm h s s' a).
  - simpl. split; [|split; [|done]].
    + apply graph_ok_addVertex; [done | | by left].
      intros id y Hy. destruct (decide (kfId = id)) as [<- | Hne].
      * rewrite lookup_insert_eq in Hy. injection Hy as <-. right. simpl.
        split; [by eexists |]. split; [done |]. by eexists _, _.
      * rewrite lookup_insert_ne in Hy by done. by left.
    + apply (own_vertex_insert _ _ acc.2); [done | | done].
      intros id' y. apply (recorded_cov_le h _ _ _ _ Hok).
Qed.

Section OwnVertices.
Context `{FrameOps} `{g2o.Solver}.

(** X16: in the graph [build_graph] builds every entity of the round has
    a vertex of its own: two covisible keyframes never share a pose vertex,
    two mappoints never share a mappoint vertex, and no vertex is entered
    both for a keyframe and for a mappoint. *)
Theorem X16_one_vertex_each (b b1 : Backend.t) (mm : MapManager.t) (h : Heap)
    (Hbuild : Backend.build_graph (Backend.CleanUp b) mm h = Ok b1) :
  (∀ id1 id2 kf1 kf2 v,
     Backend.kfIdToCovKfThenVertex_ b1 !! id1 = Some (kf1, v) →
     Backend.kfIdToCovKfThenVertex_ b1 !! id2 = Some (kf2, v) → id1 = id2) ∧
  (∀ id1 id2 mpt1 mpt2 v,
     Backend.mptIdToMptThenVertex_ b1 !! id1 = Some (mpt1, v) →
     Backend.mptIdToMptThenVertex_ b1 !! id2 = Some (mpt2, v) → id1 = id2) ∧
  (∀ id1 id2 kf mpt v1 v2,
     Backend.kfIdToCovKfThenVertex_ b1 !! id1 = Some (kf, v1) →
     Backend.mptIdToMptThenVertex_ b1 !! id2 = Some (mpt, v2) → v1 ≠ v2).
Proof.
  destruct (build_graph_ready _ _ _ _ Hbuild) as [vi [_ Hc Hm _]].
  assert (Hown : own_vertex (Backend.kfIdToCovKfThenVertex_ b1) ∧
                 own_vertex (Backend.mptIdToMptThenVertex_ b1)).
  { unfold Backend.build_graph in Hbuild.
    apply bind_Ok in Hbuild as (cur & _ & Hrun).
    apply bind_Ok in Hrun as (bv & Hbv & Hrun).
    apply bind_Ok in Hrun as (bve & Hbve & Hrun). injection Hrun as <-.
    assert (Hv : graph_ok h bv.1 bv.2 ∧
                 own_vertex (Backend.kfIdToCovKfThenVertex_ bv.1) ∧
                 own_vertex (Backend.mptIdToMptThenVertex_ bv.1)).
    { revert Hbv.
      apply (foldlM_invariant _
               (λ s, graph_ok h s.1 s.2 ∧
                     own_vertex (Backend.kfIdToCovKfThenVertex_ s.1) ∧
                     own_vertex (Backend.mptIdToMptThenVertex_ s.1))).
      - intros s a s' _ [Hs Hown] Hstep. split.
        + by apply (add_keyframe_vertices_ok mm h s s' a).
        + by apply (add_keyframe_vertices_own mm h s s' a).
      - split; [split; simpl; apply map_Forall_empty |].
        split; intros id1 id2 x1 x2 H1; simpl in H1; by rewrite lookup_empty in H1. }
    destruct Hv as (_ & Hv).
    revert Hbve.
    apply (foldlM_invariant _
             (λ s, own_vertex (Backend.kfIdToCovKfThenVertex_ s.1.1) ∧
                   own_vertex (Backend.mptIdToMptThenVertex_ s.1.1))); [|done].
    intros s a s' _ Hs Hstep. apply add_mappoint_edges_maps in Hstep as [E1 E2].
    by rewrite E1, E2. }
  destruct Hown as [Hoc Hom]. split; [|split].
  - intros id1 id2 kf1 kf2 v H1 H2. by apply (Hoc id1 id2 _ _ H1 H2).
  - intros id1 id2 mpt1 mpt2 v H1 H2. by apply (Hom id1 id2 _ _ H1 H2).
  - intros id1 id2 kf mpt v1 v2 H1 H2 ->.
    destruct (Hc _ _ H1) as [_ Hp]. destruct (Hm _ _ H2) as [_ Hq].
    unfold is_pose, is_point in *. simpl in *.
    by destruct (g2o.vertices (Backend.optimizer_ b1) !! v2) as [[? ? | ? ?]|].
Qed.

End OwnVertices.

(** [X16_one_vertex_each] on the round of [Scene.ba_heap]. *)
Lemma X16_one_vertex_each_witness :
  (∀ id1 id2 kf1 kf2 v,
     Backend.kfIdToCovKfThenVertex_ Scene.ba_backend !! id1 = Some (kf1, v) →
     Backend.kfIdToCovKfThenVertex_ Scene.ba_backend !! id2 = Some (kf2, v) →
     id1 = id2) ∧
  (∀ id1 id2 mpt1 mpt2 v,
     Backend.mptIdToMptThenVertex_ Scene.ba_backend !! id1 = Some (mpt1, v) →
     Backend.mptIdToMptThenVertex_ Scene.ba_backend !! id2 = Some (mpt2, v) →
     id1 = id2) ∧
  (∀ id1 id2 kf mpt v1 v2,
     Backend.kfIdToCovKfThenVertex_ Scene.ba_backend !! id1 = Some (kf, v1) →
     Backend.mptIdToMptThenVertex_ Scene.ba_backend !! id2 = Some (mpt, v2) →
     v1 ≠ v2).
Proof.
  exact (@X16_one_vertex_each Scene.frame_ops Scene.solver
           (Scene.backend0 (Some 1%positive)) Scene.ba_backend Scene.ba_map
           Scene.ba_heap ba_backend_built).
Defined.

(** ** The pose vertices of keyframes outside the covisible set *)

Lemma add_mappoint_vertex_edgeTo (mm : MapManager.t) (h : Heap)
    (acc acc' : Backend.t * Z) (mptId : Z) :
  Backend.add_mappoint_vertex mm h acc mptId = Ok acc' →
  Backend.edgeToKfThenMpt_ acc'.1 = Backend.edgeToKfThenMpt_ acc.1.
Proof.
  unfold Backend.add_mappoint_vertex.
  destruct (Backend.mptIdToMptThenVertex_ acc.1 !! mptId); [by intros [= <-] |].
  destruct (MapManager.GetMappoint mm mptId) as [mpt|]; [|by intros [= <-]].
  intros Hrun. apply bind_Ok in Hrun as (m & _ & Hrun).
  destruct (Mappoint.outlier_ m); by injection Hrun as <-.
Qed.

Lemma add_keyframe_vertices_edgeTo (mm : MapManager.t) (h : Heap)
    (acc acc' : Backend.t * Z) (kfId : Z) :
  Backend.add_keyframe_vertices mm h acc kfId = Ok acc' →
  Backend.edgeToKfThenMpt_ acc'.1 = Backend.edgeToKfThenMpt_ acc.1.
Proof.
  unfold Backend.add_keyframe_vertices.
  destruct (MapManager.GetKeyframe mm kfId) as [kf|]; [|by intros [= <-]].
  intros Hrun. apply bind_Ok in Hrun as (f & _ & Hrun). revert Hrun.
  apply (foldlM_invariant _
           (λ s, Backend.edgeToKfThenMpt_ s.1 = Backend.edgeToKfThenMpt_ acc.1));
    [|done].
  intros s a s' _ Hs Hstep. by rewrite (add_mappoint_vertex_edgeTo _ _ _ _ _ Hstep).
Qed.

Lemma recorded_edge_pose_le (h : Heap) (b : Backend.t) (vi e : Z) (ed : g2o.Edge) :
  graph_ok h b vi → is_Some (Backend.edgeToKfThenMpt_ b !! e) →
  g2o.edges (Backend.optimizer_ b) !! e = Some ed → g2o.vertex0 ed ≤ vi.
Proof.
  intros [Hv _ _ He] [x Hx] Hed. destruct (He e x Hx) as [Hr _].
  rewrite Hed in Hr. destruct Hr as [Hp _]. unfold is_pose in Hp.
  destruct (g2o.vertices (Backend.optimizer_ b) !! g2o.vertex0 ed) eqn:E; [|done].
  by apply (Hv _ _ E).
Qed.

(** Adding the edge [ed] under an id beyond the recorded ones: it shares
    its pose vertex with an edge recorded before only if that is the vertex
    of a covisible keyframe. *)
Lemma shared_pose_addEdge (b : Backend.t) (ei : Z) (ed : g2o.Edge) (x : loc * loc)
    (fixed : gmap Z (loc * Z)) (vs : gmap Z g2o.Vertex) :
  (∀ e y, Backend.edgeToKfThenMpt_ b !! e = Some y → e ≤ ei) →
  shared_pose_is_covisible b →
  (∀ e ed', is_Some (Backend.edgeToKfThenMpt_ b !! e) →
            g2o.edges (Backend.optimizer_ b) !! e = Some ed' →
            g2o.vertex0 ed' = g2o.vertex0 ed →
            ∃ id kf, Backend.kfIdToCovKfThenVertex_ b !! id = Some (kf, g2o.vertex0 ed)) →
  shared_pose_is_covisible
    (Backend.set_graph b (Backend.kfIdToCovKfThenVertex_ b)
       (Backend.mptIdToMptThenVertex_ b) fixed
       (<[ei + 1 := x]> (Backend.edgeToKfThenMpt_ b))
       (g2o.mkOptimizer vs (<[ei + 1 := ed]> (g2o.edges (Backend.optimizer_ b))))).
Proof.
  intros Hle Hold Hnew e1 e2 ed1 ed2 Hne H1 H2 E1 E2 Ev. simpl in *.
  destruct (decide (ei + 1 = e1)) as [<- | Hn1].
  - rewrite lookup_insert_eq in E1. injection E1 as <-.
    rewrite lookup_insert_ne in H2 by done. rewrite lookup_insert_ne in E2 by done.
    by apply (Hnew e2 ed2).
  - rewrite lookup_insert_ne in H1 by done. rewrite lookup_insert_ne in E1 by done.
    destruct (decide (ei + 1 = e2)) as [<- | Hn2].
    + rewrite lookup_insert_eq in E2. injection E2 as <-.
      rewrite Ev. by apply (Hnew e1 ed1).
    + rewrite lookup_insert_ne in H2 by done. rewrite lookup_insert_ne in E2 by done.
      by apply (Hold e1 e2 ed1 ed2).
Qed.

Section FixedVertices.
Context `{FrameOps} `{g2o.Solver}.

Lemma add_edge_apart (mm : MapManager.t) (h : Heap) (mpt : loc) (mptVertex : Z)
    (acc acc' : Backend.t * Z * Z) (obs : Z * Z) :
  graph_ok h acc.1.1 acc.1.2 →
  (∀ e y, Backend.edgeToKfThenMpt_ acc.1.1 !! e = Some y → e ≤ acc.2) →
  shared_pose_is_covisible acc.1.1 →
  Backend.add_edge mm h mpt mptVertex acc obs = Ok acc' →
  (∀ e y, Backend.edgeToKfThenMpt_ acc'.1.1 !! e = Some y → e ≤ acc'.2) ∧
  shared_pose_is_covisible acc'.1.1.
Proof.
  intros Hok Hle Hold. unfold Backend.add_edge.
  intros Hrun. apply bind_Ok in Hrun as (f & Hf & Hrun).
  apply deref_Ok in Hf as (kf & Hk & Hf). rewrite Hk in Hrun.
  apply bind_Ok in Hrun as (kpt & _ & Hrun).
  assert (Hbound : ∀ (x : loc * loc) e y,
            <[acc.2 + 1 := x]> (Backend.edgeToKfThenMpt_ acc.1.1) !! e = Some y →
            e ≤ acc.2 + 1).
  { intros x e y Hy. destruct (decide (acc.2 + 1 = e)) as [<- | Hne]; [lia |].
    rewrite lookup_insert_ne in Hy by done. apply Hle in Hy. lia. }
  destruct (Backend.kfIdToCovKfThenVertex_ acc.1.1 !! obs.1) as [kv|] eqn:Ecov;
    injection Hrun as <-; simpl.
  - split; [apply Hbound |].
    apply (shared_pose_addEdge acc.1.1 acc.2); [done | done |].
    intros e ed' _ _ _. simpl. exists obs.1, kv.1. by destruct kv.
  - split; [apply Hbound |].
    apply (shared_pose_addEdge
             (Backend.set_graph acc.1.1 (Backend.kfIdToCovKfThenVertex_ acc.1.1)
                (Backend.mptIdToMptThenVertex_ acc.1.1)
                (<[obs.1 := (kf, acc.1.2 + 1)]> (Backend.kfIdToFixedKfThenVertex_ acc.1.1))
                (Backend.edgeToKfThenMpt_ acc.1.1)
                (g2o.addVertex (acc.1.2 + 1) (g2o.VertexPose (Frame.GetTcw f) true)
                   (Backend.optimizer_ acc.1.1)))
             acc.2); [done | done |].
    intros e ed' He Hed Hv. simpl in *.
    pose proof (recorded_edge_pose_le h acc.1.1 acc.1.2 e ed' Hok He Hed). lia.
Qed.

Lemma add_mappoint_edges_apart (mm : MapManager.t) (h : Heap)
    (acc acc' : Backend.t * Z * Z) (x : Z * (loc * Z)) :
  graph_ok h acc.1.1 acc.1.2 →
  Backend.mptIdToMptThenVertex_ acc.1.1 !! x.1 = Some x.2 →
  (∀ e y, Backend.edgeToKfThenMpt_ acc.1.1 !! e = Some y → e ≤ acc.2) →
  shared_pose_is_covisible acc.1.1 →
  Backend.add_mappoint_edges mm h acc x = Ok acc' →
  (∀ e y, Backend.edgeToKfThenMpt_ acc'.1.1 !! e = Some y → e ≤ acc'.2) ∧
  shared_pose_is_covisible acc'.1.1.
Proof.
  intros Hok Hx Hle Hold. unfold Backend.add_mappoint_edges.
  intros Hrun. apply bind_Ok in Hrun as (m & Hm & Hrun).
  apply deref_Ok in Hm as (l & [= <-] & Hm).
  assert (Hall :
    (graph_ok h acc'.1.1 acc'.1.2 ∧
     Backend.mptIdToMptThenVertex_ acc'.1.1 = Backend.mptIdToMptThenVertex_ acc.1.1) ∧
    (∀ e y, Backend.edgeToKfThenMpt_ acc'.1.1 !! e = Some y → e ≤ acc'.2) ∧
    shared_pose_is_covisible acc'.1.1); [|by destruct Hall].
  revert Hrun.
  apply (foldlM_invariant _
           (λ s, (graph_ok h s.1.1 s.1.2 ∧
                  Backend.mptIdToMptThenVertex_ s.1.1 =
                  Backend.mptIdToMptThenVertex_ acc.1.1) ∧
                 (∀ e y, Backend.edgeToKfThenMpt_ s.1.1 !! e = Some y → e ≤ s.2) ∧
                 shared_pose_is_covisible s.1.1)); [|done].
  intros s a s' _ [[Hs Hsame] [Hles Holds]] Hstep.
  assert (Hq : is_point (Backend.optimizer_ s.1.1) x.2.2 = true).
  { rewrite <- Hsame in Hx. by destruct (ok_mpt _ _ _ Hs _ _ Hx). }
  destruct (add_edge_ok mm h x.2.1 x.2.2 s s' a Hs (ex_intro _ m Hm) Hq Hstep)
    as [Hs' Hsame'].
  split; [split; [done | congruence] |].
  by apply (add_edge_apart mm h x.2.1 x.2.2 s s' a).
Qed.

(** X17: two edges of the graph [build_graph] builds share their pose
    vertex only if it is the pose vertex of a covisible keyframe. A keyframe
    outside the covisible set gets a new fixed vertex for each of its
    observations: line 247 looks the keyframe up in [kfIdToCovKfThenVertex_]
    only, never in [kfIdToFixedKfThenVertex_]. *)
Theorem X17_fixed_vertex_per_observation (b b1 : Backend.t) (mm : MapManager.t)
    (h : Heap)
    (Hbuild : Backend.build_graph (Backend.CleanUp b) mm h = Ok b1) :
  ∀ e1 e2 ed1 ed2,
    e1 ≠ e2 →
    is_Some (Backend.edgeToKfThenMpt_ b1 !! e1) →
    is_Some (Backend.edgeToKfThenMpt_ b1 !! e2) →
    g2o.edges (Backend.optimizer_ b1) !! e1 = Some ed1 →
    g2o.edges (Backend.optimizer_ b1) !! e2 = Some ed2 →
    g2o.vertex0 ed1 = g2o.vertex0 ed2 →
    ∃ id kf, Backend.kfIdToCovKfThenVertex_ b1 !! id = Some (kf, g2o.vertex0 ed1).
Proof.
  unfold Backend.build_graph in Hbuild.
  apply bind_Ok in Hbuild as (cur & _ & Hrun).
  apply bind_Ok in Hrun as (bv & Hbv & Hrun).
  apply bind_Ok in Hrun as (bve & Hbve & Hrun). injection Hrun as <-.
  assert (Hv : graph_ok h bv.1 bv.2 ∧ Backend.edgeToKfThenMpt_ bv.1 = ∅).
  { revert Hbv.
    apply (foldlM_invariant _
             (λ s, graph_ok h s.1 s.2 ∧ Backend.edgeToKfThenMpt_ s.1 = ∅)).
    - intros s a s' _ [Hs He] Hstep. split.
      + by apply (add_keyframe_vertices_ok mm h s s' a).
      + by rewrite (add_keyframe_vertices_edgeTo _ _ _ _ _ Hstep).
    - split; [split; simpl; apply map_Forall_empty | done]. }
  destruct Hv as [Hv He].
  assert (Hall :
    (graph_ok h bve.1.1 bve.1.2 ∧
     Backend.mptIdToMptThenVertex_ bve.1.1 = Backend.mptIdToMptThenVertex_ bv.1) ∧
    (∀ e y, Backend.edgeToKfThenMpt_ bve.1.1 !! e = Some y → e ≤ bve.2) ∧
    shared_pose_is_covisible bve.1.1); [|by destruct Hall as (_ & _ & ?)].
  revert Hbve.
  apply (foldlM_invariant _
           (λ s, (graph_ok h s.1.1 s.1.2 ∧
                  Backend.mptIdToMptThenVertex_ s.1.1 =
                  Backend.mptIdToMptThenVertex_ bv.1) ∧
                 (∀ e y, Backend.edgeToKfThenMpt_ s.1.1 !! e = Some y → e ≤ s.2) ∧
                 shared_pose_is_covisible s.1.1)).
  - intros s [id x] s' Hin [[Hs Hsame] [Hles Holds]] Hstep.
    apply elem_of_map_to_list in Hin.
    assert (Hx : Backend.mptIdToMptThenVertex_ s.1.1 !! (id, x).1 = Some (id, x).2).
    { simpl. by rewrite Hsame. }
    destruct (add_mappoint_edges_ok mm h s s' (id, x) Hs Hx Hstep) as [Hs' Hsame'].
    split; [split; [done | congruence] |].
    by apply (add_mappoint_edges_apart mm h s s' (id, x)).
  - split; [by split |]. simpl. split.
    + intros e y. by rewrite He, lookup_empty.
    + intros e1 e2 ed1 ed2 _ [y Hy]. by rewrite He, lookup_empty in Hy.
Qed.

End FixedVertices.

(** On [Scene.far_heap] keyframe 3, which is not covisible with the
    current keyframe, observes two mappoints of the round: its two edges
    end in two fixed vertices, 4 and 5, and [kfIdToFixedKfThenVertex_]
    keeps the second. *)
Example far_keyframe_two_vertices :
  ∃ b1 ed1 ed3,
    @Backend.build_graph Scene.frame_ops Scene.solver
      (Backend.CleanUp (Scene.backend0 (Some 1%positive))) Scene.far_map
      Scene.far_heap = Ok b1 ∧
    Backend.edgeToKfThenMpt_ b1 !! 1 = Some (4%positive, 10%positive) ∧
    Backend.edgeToKfThenMpt_ b1 !! 3 = Some (4%positive, 11%positive) ∧
    g2o.edges (Backend.optimizer_ b1) !! 1 = Some ed1 ∧
    g2o.edges (Backend.optimizer_ b1) !! 3 = Some ed3 ∧
    g2o.vertex0 ed1 = 4 ∧ g2o.vertex0 ed3 = 5 ∧
    Backend.kfIdToFixedKfThenVertex_ b1 !! 3 = Some (4%positive, 5).
Proof.
  eexists _, _, _. split; [vm_compute; reflexivity |].
  repeat (split; [vm_compute; reflexivity |]). vm_compute. reflexivity.
Qed.

(** [X17_fixed_vertex_per_observation] on the round of [Scene.far_heap]. *)
Lemma X17_fixed_vertex_per_observation_witness :
  ∃ b1,
    @Backend.build_graph Scene.frame_ops Scene.solver
      (Backend.CleanUp (Scene.backend0 (Some 1%positive))) Scene.far_map
      Scene.far_heap = Ok b1 ∧
    ∀ e1 e2 ed1 ed2,
      e1 ≠ e2 →
      is_Some (Backend.edgeToKfThenMpt_ b1 !! e1) →
      is_Some (Backend.edgeToKfThenMpt_ b1 !! e2) →
      g2o.edges (Backend.optimizer_ b1) !! e1 = Some ed1 →
      g2o.edges (Backend.optimizer_ b1) !! e2 = Some ed2 →
      g2o.vertex0 ed1 = g2o.vertex0 ed2 →
      ∃ id kf, Backend.kfIdToCovKfThenVertex_ b1 !! id = Some (kf, g2o.vertex0 ed1).
Proof.
  eexists. split; [vm_compute; reflexivity |].
  apply (@X17_fixed_vertex_per_observation Scene.frame_ops Scene.solver
           (Scene.backend0 (Some 1%positive)) _ Scene.far_map Scene.far_heap).
  vm_compute. reflexivity.
Defined.

(** ** Every observation of a mappoint of the round has an edge *)

Section EveryObservation.
Context `{FrameOps} `{g2o.Solver}.

Lemma add_edge_keeps_edge (mm : MapManager.t) (h : Heap) (mpt mpt' : loc)
    (v v' kfId kptIdx : Z) (acc acc' : Backend.t * Z * Z) (obs : Z * Z) :
  observation_has_edge mm h mpt v kfId kptIdx acc →
  Backend.add_edge mm h mpt' v' acc obs = Ok acc' →
  observation_has_edge mm h mpt v kfId kptIdx acc'.
Proof.
  intros (e & ed & kf & f & kp & Hk & Hf & Hkp & Hle & He & Hed & Hv & Hm).
  unfold Backend.add_edge. intros Hrun.
  apply bind_Ok in Hrun as (f' & Hf' & Hrun).
  apply bind_Ok in Hrun as (kpt & _ & Hrun).
  destruct (MapManager.GetKeyframe mm obs.1) as [kf'|].
  - exists e, ed, kf, f, kp. do 3 (split; [done |]).
    destruct (Backend.kfIdToCovKfThenVertex_ acc.1.1 !! obs.1) as [kv|];
      injection Hrun as <-; simpl;
      (split; [lia |]); rewrite !lookup_insert_ne by lia; done.
  - injection Hrun as <-. by exists e, ed, kf, f, kp.
Qed.

Lemma add_edge_makes_edge (mm : MapManager.t) (h : Heap) (mpt : loc)
    (v kfId kptIdx : Z) (acc acc' : Backend.t * Z * Z) :
  Backend.add_edge mm h mpt v acc (kfId, kptIdx) = Ok acc' →
  observation_has_edge mm h mpt v kfId kptIdx acc'.
Proof.
  unfold Backend.add_edge. simpl. intros Hrun.
  apply bind_Ok in Hrun as (f & Hf & Hrun).
  apply deref_Ok in Hf as (kf & Hk & Hf). rewrite Hk in Hrun.
  apply bind_Ok in Hrun as (kp & Hkp & Hrun).
  destruct (Backend.kfIdToCovKfThenVertex_ acc.1.1 !! kfId) as [kv|];
    injection Hrun as <-; simpl;
    eexists (acc.2 + 1), _, kf, f, kp; simpl;
    rewrite !lookup_insert_eq; by repeat split.
Qed.

Lemma add_mappoint_edges_keeps_edge (mm : MapManager.t) (h : Heap) (mpt : loc)
    (v kfId kptIdx : Z) (acc acc' : Backend.t * Z * Z) (x : Z * (loc * Z)) :
  observation_has_edge mm h mpt v kfId kptIdx acc →
  Backend.add_mappoint_edges mm h acc x = Ok acc' →
  observation_has_edge mm h mpt v kfId kptIdx acc'.
Proof.
  intros Hobs. unfold Backend.add_mappoint_edges. intros Hrun.
  apply bind_Ok in Hrun as (m & _ & Hrun). revert Hrun.
  apply (foldlM_invariant _ (observation_has_edge mm h mpt v kfId kptIdx)); [|done].
  intros s a s' _ Hs Hstep. exact (add_edge_keeps_edge _ _ _ _ _ _ _ _ _ _ _ Hs Hstep).
Qed.

(** X18: when [build_graph] completes, every observation that a mappoint
    of the round records has its edge in the graph: for each keyframe id
    and keypoint index in [GetObservedByKeyframesMap] of a mappoint with a
    vertex, the Map Manager holds the keyframe, and an edge recorded for
    that keyframe and that mappoint ends in the vertex of the mappoint and
    measures the pixel of that keypoint. *)
Theorem X18_every_observation_has_an_edge (b b1 : Backend.t) (mm : MapManager.t)
    (h : Heap) (id : Z) (mpt : loc) (v : Z) (m : Mappoint.t) (kfId kptIdx : Z)
    (Hbuild : Backend.build_graph (Backend.CleanUp b) mm h = Ok b1)
    (Hk : Backend.mptIdToMptThenVertex_ b1 !! id = Some (mpt, v))
    (Hm : mappoints h !! mpt = Some m)
    (Hobs : Mappoint.GetObservedByKeyframesMap m !! kfId = Some kptIdx) :
  ∃ e ed kf f kp,
    MapManager.GetKeyframe mm kfId = Some kf ∧
    frames h !! kf = Some f ∧
    Frame.GetKeypoint kptIdx f = Ok kp ∧
    Backend.edgeToKfThenMpt_ b1 !! e = Some (kf, mpt) ∧
    g2o.edges (Backend.optimizer_ b1) !! e = Some ed ∧
    g2o.vertex1 ed = v ∧
    g2o.measurement ed = Frame.pt kp.
Proof.
  unfold Backend.build_graph in Hbuild.
  apply bind_Ok in Hbuild as (cur & _ & Hrun).
  apply bind_Ok in Hrun as (bv & Hbv & Hrun).
  apply bind_Ok in Hrun as (bve & Hbve & Hrun). injection Hrun as <-.
  assert (Hsame : Backend.mptIdToMptThenVertex_ bve.1.1 =
                  Backend.mptIdToMptThenVertex_ bv.1).
  { revert Hbve.
    apply (foldlM_invariant _
             (λ s, Backend.mptIdToMptThenVertex_ s.1.1 =
                   Backend.mptIdToMptThenVertex_ bv.1)); [|done].
    intros s a s' _ Hs Hstep. apply add_mappoint_edges_maps in Hstep as [_ E].
    congruence. }
  rewrite Hsame in Hk.
  assert (Hall : observation_has_edge mm h mpt v kfId kptIdx bve).
  { revert Hbve.
    apply (foldlM_establish _ (observation_has_edge mm h mpt v kfId kptIdx)
             (id, (mpt, v))).
    - intros s a s' Hs Hstep.
      by apply (add_mappoint_edges_keeps_edge mm h mpt v kfId kptIdx s s' a).
    - intros s s'. unfold Backend.add_mappoint_edges. cbn [fst snd].
      rewrite (deref_live _ _ _ Hm), bind_ret.
      apply (foldlM_establish _ (observation_has_edge mm h mpt v kfId kptIdx)
               (kfId, kptIdx)).
      + intros s0 a s0' Hs Hstep.
        exact (add_edge_keeps_edge _ _ _ _ _ _ _ _ _ _ _ Hs Hstep).
      + intros s0 s0'. apply add_edge_makes_edge.
      + by apply elem_of_map_to_list.
    - by apply elem_of_map_to_list. }
  destruct Hall as (e & ed & kf & f & kp & ? & ? & ? & _ & ? & ? & ? & ?).
  by exists e, ed, kf, f, kp.
Qed.

End EveryObservation.

(** [X18_every_observation_has_an_edge] on the round of [Scene.far_heap],
    for the observation of mappoint 6 by keyframe 3, which is not covisible
    with the current keyframe. *)
Lemma X18_every_observation_has_an_edge_witness :
  ∃ b1,
    @Backend.build_graph Scene.frame_ops Scene.solver
      (Backend.CleanUp (Scene.backend0 (Some 1%positive))) Scene.far_map
      Scene.far_heap = Ok b1 ∧
    ∃ e ed kf f kp,
      MapManager.GetKeyframe Scene.far_map 3 = Some kf ∧
      frames Scene.far_heap !! kf = Some f ∧
      Frame.GetKeypoint 1 f = Ok kp ∧
      Backend.edgeToKfThenMpt_ b1 !! e = Some (kf, 11%positive) ∧
      g2o.edges (Backend.optimizer_ b1) !! e = Some ed ∧
      g2o.vertex1 ed = 3 ∧
      g2o.measurement ed = Frame.pt kp.
Proof.
  eexists. split; [vm_compute; reflexivity |].
  apply (@X18_every_observation_has_an_edge Scene.frame_ops Scene.solver
           (Scene.backend0 (Some 1%positive)) _ Scene.far_map Scene.far_heap
           6 11%positive 3
           (Scene.mkMappoint 6 (1%Q, 1%Q, 1%Q) false [(0, 1); (3, 1)]) 3 1).
  - vm_compute. reflexivity.
  - vm_compute. reflexivity.
  - vm_compute. reflexivity.
  - vm_compute. reflexivity.
Defined.

(** ** A round without a current keyframe *)

Section NoKeyframe.
Context `{FrameOps} `{g2o.Solver}.

(** X19: [ProcessNewKeyframeAsync] takes a null keyframe as it takes any
    other, and no stage of the round tests [keyframeCurr_] before using it:
    after such a call the fuse step and [OptimizeLocalMap] dereference the
    null pointer, whatever the maps hold, and so does the handoff as soon as
    the frontend has a reference keyframe. *)
Theorem X19_null_keyframe_is_dereferenced (b : Backend.t) (mm : MapManager.t)
    (h : Heap) (oldMptIdKptIdxMap : gmap Z Z) (newMptKptIdxMap : gmap loc Z) :
  let b' := Backend.ProcessNewKeyframeAsync b None oldMptIdKptIdxMap newMptKptIdxMap in
  Backend.AddNewMappointsToExistingKeyframe_match b' mm h = Fault ∧
  Backend.OptimizeLocalMap b' mm h = Fault ∧
  ∀ r trackingMap,
    Backend.UpdateFrontendTrackingMap b' mm h (Some r) trackingMap = Fault.
Proof.
  simpl. split; [done |]. split; [done |]. intros r trackingMap.
  unfold Backend.UpdateFrontendTrackingMap, Backend.handoff, Backend.must_reset.
  simpl. by destruct (frames h !! r).
Qed.

End NoKeyframe.
